(** * downloader.js: a shallow embedding of the [Downloader] class

    The development follows [src/downloader.js].  JavaScript numbers are
    IEEE 754 binary64 values ([spec_float] at precision 53), the session
    object and the browser objects it touches (abort controllers, the blob
    URL store) live in an explicit state, and exceptions are threaded through
    a small state-and-exception monad. *)

From Stdlib Require Import ZArith Reals Lra Lia String Ascii List.
From Stdlib Require Import Strings.Byte.
From Stdlib Require Import Floats.SpecFloat.
From stdpp Require Import gmap strings list pretty.

Local Open Scope Z_scope.

(** ** ECMAScript numbers *)

Module Number.

Definition prec : Z := 53.
Definition emax : Z := 1024.

Definition number : Type := spec_float.

Definition NaN : number := S754_nan.
Definition of_Z (z : Z) : number := binary_normalize prec emax z 0 false.
Definition div : number -> number -> number := SFdiv prec emax.
Definition mul : number -> number -> number := SFmul prec emax.
Definition leb : number -> number -> bool := SFleb.

(** ToBoolean on a number: [NaN], [+0] and [-0] are falsy. *)
Definition truthy (x : number) : bool :=
  match x with
  | S754_zero _ | S754_nan => false
  | S754_infinity _ | S754_finite _ _ _ => true
  end.

(** [floor (x + 1/2)] for the finite value [x = (-1)^s * m * 2^e]. *)
Definition round_half_up (s : bool) (m : positive) (e : Z) : Z :=
  let n := cond_Zopp s (Zpos m) in
  if 0 <=? e then n * 2 ^ e else (n + 2 ^ (- e - 1)) / 2 ^ (- e).

(** [Math.round]: the nearest integer, ties towards [+∞]; [NaN], the
    infinities and the zeros are returned unchanged, and a value that
    rounds to zero keeps its sign. *)
Definition Math_round (x : number) : number :=
  match x with
  | S754_finite s m e =>
      let z := round_half_up s m e in
      if z =? 0 then S754_zero s else of_Z z
  | _ => x
  end.

(** *** StringToNumber, the unary [+] applied to a string *)

Definition is_white_space (c : ascii) : bool :=
  let n := nat_of_ascii c in
  ((9 <=? n) && (n <=? 13) || (n =? 32) || (n =? 160))%nat.

Fixpoint trim_left (s : string) : string :=
  match s with
  | String c r => if is_white_space c then trim_left r else s
  | EmptyString => EmptyString
  end.

Fixpoint trim_right (s : string) : string :=
  match s with
  | EmptyString => EmptyString
  | String c r =>
      match trim_right r with
      | EmptyString => if is_white_space c then EmptyString else String c EmptyString
      | r' => String c r'
      end
  end.

Definition digit_value (radix : Z) (c : ascii) : option Z :=
  let n := Z.of_nat (nat_of_ascii c) in
  let v :=
    if (48 <=? n) && (n <=? 57) then Some (n - 48)
    else if (97 <=? n) && (n <=? 122) then Some (n - 87)
    else if (65 <=? n) && (n <=? 90) then Some (n - 55)
    else None in
  match v with
  | Some d => if d <? radix then Some d else None
  | None => None
  end.

(** Reads the longest prefix of digits: its value, its length and the
    rest of the string. *)
Fixpoint read_digits (radix : Z) (s : string) (acc : Z) (count : nat)
  : Z * nat * string :=
  match s with
  | String c r =>
      match digit_value radix c with
      | Some d => read_digits radix r (radix * acc + d) (S count)
      | None => (acc, count, s)
      end
  | EmptyString => (acc, count, s)
  end.

(** The number nearest to [m * 10^k], for [m >= 0]. *)
Definition of_decimal (m k : Z) : number :=
  match m with
  | Zpos p =>
      if 0 <=? k then of_Z (m * 10 ^ k)
      else div (S754_finite false p 0) (S754_finite false (Z.to_pos (10 ^ (- k))) 0)
  | _ => S754_zero false
  end.

Definition read_sign (s : string) : bool * string :=
  match s with
  | String "+" r => (false, r)
  | String "-" r => (true, r)
  | _ => (false, s)
  end.

Definition read_exponent (s : string) : option Z :=
  match s with
  | EmptyString => Some 0
  | String c r =>
      if (Ascii.eqb c "e" || Ascii.eqb c "E")%bool then
        let '(neg, r1) := read_sign r in
        match read_digits 10 r1 0 0 with
        | (_, O, _) => None
        | (x, _, EmptyString) => Some (cond_Zopp neg x)
        | _ => None
        end
      else None
  end.

Definition unsigned_decimal (s : string) : option number :=
  if String.eqb s "Infinity" then Some (S754_infinity false) else
  let '(ip, n1, r1) := read_digits 10 s 0 0 in
  let '(fp, n2, r2) :=
    match r1 with
    | String "." r => read_digits 10 r ip 0
    | _ => (ip, O, r1)
    end in
  match (n1 + n2)%nat, (match r1 with String "." _ => false | _ => Nat.eqb n1 0 end) with
  | O, _ | _, true => None
  | _, false =>
      match read_exponent r2 with
      | Some x => Some (of_decimal fp (x - Z.of_nat n2))
      | None => None
      end
  end.

Definition non_decimal (radix : Z) (s : string) : option number :=
  match read_digits radix s 0 0 with
  | (_, O, _) => None
  | (v, _, EmptyString) => Some (of_Z v)
  | _ => None
  end.

Definition numeric_literal (s : string) : option number :=
  match s with
  | String "0" (String c r) =>
      if (Ascii.eqb c "x" || Ascii.eqb c "X")%bool then non_decimal 16 r
      else if (Ascii.eqb c "o" || Ascii.eqb c "O")%bool then non_decimal 8 r
      else if (Ascii.eqb c "b" || Ascii.eqb c "B")%bool then non_decimal 2 r
      else unsigned_decimal s
  | _ =>
      let '(neg, r) := read_sign s in
      match unsigned_decimal r with
      | Some x => Some (if neg then SFopp x else x)
      | None => None
      end
  end.

Definition StringToNumber (s : string) : number :=
  match trim_right (trim_left s) with
  | EmptyString => S754_zero false
  | t => match numeric_literal t with Some x => x | None => NaN end
  end.

(** The unary [+] applied to the result of [headers.get]: [null] gives
    [+0], a string goes through [StringToNumber]. *)
Definition ToNumber (v : option string) : number :=
  match v with
  | None => S754_zero false
  | Some s => StringToNumber s
  end.

End Number.

Import Number.

Local Open Scope string_scope.

(** ** Browser objects and the session state *)

(** A thrown JavaScript error: only [name] and [message] are inspected. *)
Record JsError := { err_name : string; err_message : string }.

Definition Error (message : string) : JsError :=
  {| err_name := "Error"; err_message := message |}.
Definition TypeError (message : string) : JsError :=
  {| err_name := "TypeError"; err_message := message |}.
Definition AbortError : JsError :=
  {| err_name := "AbortError"; err_message := "The user aborted a request." |}.

(** Where an exception came from.  The tag is a ghost annotation: the code
    only ever looks at the [JsError]. *)
Inductive Cause :=
| NetworkFailure   (* [fetch] rejected: no response *)
| HttpStatus       (* thrown by [download] on [!response.ok] *)
| Cancelled        (* a pending [fetch] or [read] rejected by the abort signal *)
| BodyFailure      (* [reader.read()] rejected: the body stream errored *)
| NoBody           (* [response.body] is null, so [getReader] cannot be read *)
| OutOfRange       (* [Uint8Array.prototype.set] out of bounds *)
| CallbackThrew.   (* raised by one of the caller's callbacks *)

#[global] Instance Cause_eq_dec : EqDecision Cause.
Proof. solve_decision. Defined.


Record Blob := { blob_bytes : list byte; blob_type : option string }.

(** The calls the page can make on a session, from inside a callback
    (invoked with [this] bound to the session) or between two steps of a
    suspended [download]. *)
Inductive Call := CallStop | CallCleanup.

(** What a callback body does: calls on the session, then possibly a throw. *)
Record Behaviour := { calls : list Call; throws : option JsError }.

Definition quiet : Behaviour := {| calls := []; throws := None |}.

Inductive Event :=
| Started
| Progress (percent : number)
| Success (blobUrl : nat) (contentType : option string)
| Failed (kind message : string)
| Requested (url : string) (headers : gmap string string) (signal : nat)
| ChunkRead (value : list byte)
| Aborted (controller : nat)
| Revoked (blobUrl : nat)
| Created (blobUrl : nat) (blob : Blob).

(** The fields of a [Downloader] instance. *)
Record Downloader := {
  controller : option nat;
  isPaused : bool;
  blobUrl : option nat
}.

(** The browser: abort controllers (with the aborted flag of their signal),
    the blob URL store, the URLs already revoked, and the trace of what was
    observed so far, oldest first. *)
Record Platform := {
  signals : gmap nat bool;
  blob_store : gmap nat Blob;
  revoked : gset nat;
  trace : list Event
}.

Record State := { this : Downloader; platform : Platform }.

Definition constructor : Downloader :=
  {| controller := None; isPaused := false; blobUrl := None |}.

Definition empty_platform : Platform :=
  {| signals := ∅; blob_store := ∅; revoked := ∅; trace := [] |}.

(** ** The state-and-exception monad *)

Inductive Outcome (A : Type) :=
| Returned (a : A)
| Threw (c : Cause) (e : JsError).
Arguments Returned {A} a.
Arguments Threw {A} c e.

Definition M (A : Type) : Type := State -> Outcome A * State.

#[global] Instance M_ret : MRet M := λ A a s, (Returned a, s).
#[global] Instance M_bind : MBind M := λ A B f m s,
  match m s with
  | (Returned a, s') => f a s'
  | (Threw c e, s') => (Threw c e, s')
  end.

Definition throw {A} (c : Cause) (e : JsError) : M A := λ s, (Threw c e, s).

Definition try_catch {A} (body : M A) (handler : Cause -> JsError -> M A) : M A :=
  λ s, match body s with
       | (Threw c e, s') => handler c e s'
       | r => r
       end.

Definition gets {A} (f : Downloader -> A) : M A := λ s, (Returned (f (this s)), s).

Definition set_controller (c : option nat) : M unit := λ s,
  (Returned tt,
   {| this := {| controller := c; isPaused := isPaused (this s); blobUrl := blobUrl (this s) |};
      platform := platform s |}).

Definition set_blobUrl (u : option nat) : M unit := λ s,
  (Returned tt,
   {| this := {| controller := controller (this s); isPaused := isPaused (this s); blobUrl := u |};
      platform := platform s |}).

Definition with_platform (f : Platform -> Platform) : M unit := λ s,
  (Returned tt, {| this := this s; platform := f (platform s) |}).

Definition emit (ev : Event) : M unit :=
  with_platform (λ p, {| signals := signals p; blob_store := blob_store p;
                         revoked := revoked p; trace := trace p ++ [ev] |}).

(** [new AbortController()] *)
Definition new_AbortController : M nat := λ s,
  let p := platform s in
  let c := fresh (dom (signals p)) in
  (Returned c,
   {| this := this s;
      platform := {| signals := <[c := false]> (signals p); blob_store := blob_store p;
                     revoked := revoked p; trace := trace p |} |}).

(** [controller.abort()] *)
Definition abort (c : nat) : M unit :=
  with_platform (λ p, {| signals := <[c := true]> (signals p); blob_store := blob_store p;
                         revoked := revoked p; trace := trace p ++ [Aborted c] |}).

(** [signal.aborted] *)
Definition aborted (p : Platform) (signal : nat) : bool :=
  match signals p !! signal with Some true => true | _ => false end.

(** [URL.revokeObjectURL(u)] *)
Definition revokeObjectURL (u : nat) : M unit :=
  with_platform (λ p, {| signals := signals p; blob_store := delete u (blob_store p);
                         revoked := {[u]} ∪ revoked p; trace := trace p ++ [Revoked u] |}).

(** [URL.createObjectURL(blob)]: a URL never handed out before. *)
Definition createObjectURL (b : Blob) : M nat := λ s,
  let p := platform s in
  let u := fresh (dom (blob_store p) ∪ revoked p) in
  (Returned u,
   {| this := this s;
      platform := {| signals := signals p; blob_store := <[u := b]> (blob_store p);
                     revoked := revoked p; trace := trace p ++ [Created u b] |} |}).

(** ** [stop] and [cleanup] (downloader.js, lines 132-153) *)

Definition stop : M unit :=
  c ← gets controller;
  match c with
  | Some c => abort c;; set_controller None
  | None => mret tt
  end;;
  u ← gets blobUrl;
  match u with
  | Some u => revokeObjectURL u;; set_blobUrl None
  | None => mret tt
  end.

Definition cleanup : M unit :=
  stop;;
  u ← gets blobUrl;
  match u with
  | Some u => revokeObjectURL u;; set_blobUrl None
  | None => mret tt
  end.

Definition perform (c : Call) : M unit :=
  match c with
  | CallStop => stop
  | CallCleanup => cleanup
  end.

Fixpoint perform_all (cs : list Call) : M unit :=
  match cs with
  | [] => mret tt
  | c :: cs => perform c;; perform_all cs
  end.

(** Invoking a callback: the invocation is observed, then its body runs. *)
Definition invoke (ev : Event) (b : Behaviour) : M unit :=
  emit ev;;
  perform_all (calls b);;
  match throws b with
  | Some e => throw CallbackThrew e
  | None => mret tt
  end.

(** ** The network and the page around one transfer *)

(** The response body as the reader delivers it.  Every [read()] is a
    suspension point: [interleaved] are the calls the page makes on the
    session while [download] waits for that read to settle. *)
Inductive Body :=
| BodyChunk (interleaved : list Call) (value : list byte) (rest : Body)
| BodyDone (interleaved : list Call)
| BodyError (interleaved : list Call) (message : string).

(** A response.  With a null body status [response.body] is [null] and
    the [body] field is not looked at. *)
Record Response := {
  status : nat;
  content_type : option string;       (* [headers.get('content-type')] *)
  content_length : option string;     (* [headers.get('Content-Length')] *)
  body : Body
}.

(** [response.ok]: the status is in the range 200-299. *)
Definition ok (r : Response) : bool :=
  ((200 <=? status r) && (status r <=? 299))%nat.

(** The null body statuses of the Fetch standard: a response with one of
    them has no body, whatever the server sent. *)
Definition null_body_status (st : nat) : bool :=
  ((st =? 101) || (st =? 103) || (st =? 204) || (st =? 205) || (st =? 304))%nat.

Inductive Network :=
| NetworkError (message : string)
| Respond (r : Response).

Record Scenario := { during_fetch : list Call; network : Network }.

(** The options object of [download]. *)
Record Options := {
  headers : option (gmap string string);
  started : option Behaviour;
  progress : option (number -> Behaviour);
  success : option (nat -> option string -> Behaviour);
  failed : option (string -> string -> Behaviour)
}.

(** A pending operation bound to [signal] settles: the page's interleaved
    calls run first; if the signal is aborted by then, the operation rejects
    with an [AbortError], otherwise it continues with [k]. *)
Definition unless_aborted {A} (signal : nat) (k : M A) : M A :=
  λ s, if aborted (platform s) signal then throw Cancelled AbortError s else k s.

Definition settle {A} (interleaved : list Call) (signal : nat) (k : M A) : M A :=
  perform_all interleaved;; unless_aborted signal k.

(** [await fetch(url, { headers, signal })]: with a signal that is already
    aborted the call rejects at once and no request is made. *)
Definition fetch (url : string) (hdrs : gmap string string) (signal : nat)
    (sc : Scenario) : M Response :=
  unless_aborted signal
    (emit (Requested url hdrs signal);;
     settle (during_fetch sc) signal
       match network sc with
       | NetworkError message => throw NetworkFailure (TypeError message)
       | Respond r => mret r
       end).

(** ** [download] (downloader.js, lines 35-127) *)

(** [Math.round((receivedLength / contentLength) * 100)] *)
Definition percentage (receivedLength : Z) (contentLength : number) : number :=
  Math_round (mul (div (of_Z receivedLength) contentLength) (of_Z 100)).

(** The [while (true)] loop over [reader.read()], lines 69-87.  The byte
    counter is a JavaScript number that only ever holds an integer; it is
    carried as a [Z] and converted where the source divides. *)
Fixpoint read_loop (options : Options) (signal : nat) (contentLength : number)
    (b : Body) (receivedLength : Z) (chunks : list (list byte))
  : M (Z * list (list byte)) :=
  match b with
  | BodyDone interleaved =>
      settle interleaved signal (mret (receivedLength, chunks))
  | BodyError interleaved message =>
      settle interleaved signal (throw BodyFailure (TypeError message))
  | BodyChunk interleaved value rest =>
      settle interleaved signal
        (emit (ChunkRead value);;
         let chunks := (chunks ++ [value])%list in
         let receivedLength := receivedLength + Z.of_nat (length value) in
         (if truthy contentLength then
            let percent := percentage receivedLength contentLength in
            match progress options with
            | Some f => invoke (Progress percent) (f percent)
            | None => mret tt
            end
          else mret tt);;
         read_loop options signal contentLength rest receivedLength chunks)
  end.

(** [allChunks.set(chunk, position)] on a typed array: a [RangeError] when
    the chunk does not fit. *)
Definition typed_array_set (allChunks chunk : list byte) (position : nat)
  : option (list byte) :=
  if (position + length chunk <=? length allChunks)%nat then
    Some (take position allChunks ++ chunk ++ drop (position + length chunk) allChunks)%list
  else None.

(** The [for (const chunk of chunks)] loop, lines 97-100. *)
Fixpoint copy_chunks (allChunks : list byte) (position : nat)
    (chunks : list (list byte)) : option (list byte) :=
  match chunks with
  | [] => Some allChunks
  | chunk :: chunks =>
      match typed_array_set allChunks chunk position with
      | Some allChunks => copy_chunks allChunks (position + length chunk) chunks
      | None => None
      end
  end.

(** Lines 94-100: [new Uint8Array(receivedLength)] filled chunk by chunk. *)
Definition combine (receivedLength : Z) (chunks : list (list byte)) : M (list byte) :=
  match copy_chunks (replicate (Z.to_nat receivedLength) x00) 0 chunks with
  | Some allChunks => mret allChunks
  | None => throw OutOfRange {| err_name := "RangeError"; err_message := "offset is out of bounds" |}
  end.

(** Lines 89-114, once the reader has signalled [done]: release the
    previous blob URL, assemble the payload, publish it, report success. *)
Definition finish (options : Options) (contentType : option string)
    (receivedLength : Z) (chunks : list (list byte)) : M (option nat) :=
  old ← gets blobUrl;
  match old with
  | Some u => revokeObjectURL u
  | None => mret tt
  end;;
  allChunks ← combine receivedLength chunks;
  u ← createObjectURL {| blob_bytes := allChunks; blob_type := contentType |};
  set_blobUrl (Some u);;
  match success options with
  | Some f => invoke (Success u contentType) (f u contentType)
  | None => mret tt
  end;;
  gets blobUrl.

(** The body of the [try] block, lines 40-114. *)
Definition download_try (url : string) (options : Options) (signal : nat)
    (sc : Scenario) : M (option nat) :=
  let hdrs := default ∅ (headers options) in
  match started options with
  | Some f => invoke Started f
  | None => mret tt
  end;;
  response ← fetch url hdrs signal sc;
  if negb (ok response) then
    throw HttpStatus (Error ("HTTP error! status: " +:+ pretty (status response)))
  else
    let contentType := content_type response in
    if null_body_status (status response) then
      throw NoBody (TypeError "Cannot read properties of null (reading 'getReader')")
    else
      let contentLength := ToNumber (content_length response) in
      '(receivedLength, chunks) ← read_loop options signal contentLength (body response) 0 [];
      finish options contentType receivedLength chunks.

(** The [catch] block, lines 116-126. *)
Definition download_catch (options : Options) (cause : Cause) (error : JsError)
  : M (option nat) :=
  match failed options with
  | Some f =>
      if String.eqb (err_name error) "AbortError" then
        invoke (Failed "ABORTED" "Download was stopped") (f "ABORTED" "Download was stopped")
      else
        invoke (Failed "ERROR" (err_message error)) (f "ERROR" (err_message error))
  | None => mret tt
  end;;
  throw cause error.

Definition download (url : string) (options : Options) (sc : Scenario)
  : M (option nat) :=
  c ← new_AbortController;
  set_controller (Some c);;
  let signal := c in
  try_catch (download_try url options signal sc) (download_catch options).

(** [String.prototype.download], lines 163-171: a fresh session; a rejected
    transfer is swallowed after [cleanup]. *)
Definition String_download (url : string) (options : Options) (sc : Scenario)
    (p : Platform) : State :=
  let s := {| this := constructor; platform := p |} in
  match download url options sc s with
  | (Returned _, s') => s'
  | (Threw _ _, s') => snd (cleanup s')
  end.

(** ** Vocabulary for stating properties of a run *)

(** The state with its trace replaced. *)
Definition retrace (t : list Event) (s : State) : State :=
  {| this := this s;
     platform := {| signals := signals (platform s); blob_store := blob_store (platform s);
                    revoked := revoked (platform s); trace := t |} |}.

(** The state with more events appended to its trace. *)
Definition record (evs : list Event) (s : State) : State :=
  retrace (trace (platform s) ++ evs) s.

(** What one call of [stop] appends to the trace. *)
Definition stop_events (s : State) : list Event :=
  match controller (this s) with Some c => [Aborted c] | None => [] end ++
  match blobUrl (this s) with Some u => [Revoked u] | None => [] end.

(** The state one call of [stop] leaves behind. *)
Definition halted (s : State) : State :=
  {| this := {| controller := None; isPaused := isPaused (this s); blobUrl := None |};
     platform :=
       {| signals := match controller (this s) with
                     | Some c => <[c := true]> (signals (platform s))
                     | None => signals (platform s)
                     end;
          blob_store := match blobUrl (this s) with
                        | Some u => delete u (blob_store (platform s))
                        | None => blob_store (platform s)
                        end;
          revoked := match blobUrl (this s) with
                     | Some u => {[u]} ∪ revoked (platform s)
                     | None => revoked (platform s)
                     end;
          trace := trace (platform s) ++ stop_events s |} |}.

(** The events a run appended: the trace of [s'] beyond that of [s]. *)
Definition events_since (s s' : State) : list Event :=
  drop (length (trace (platform s))) (trace (platform s')).

Definition is_progress (e : Event) : bool :=
  match e with Progress _ => true | _ => false end.
Definition is_success (e : Event) : bool :=
  match e with Success _ _ => true | _ => false end.
Definition is_failed (e : Event) : bool :=
  match e with Failed _ _ => true | _ => false end.
Definition is_created (e : Event) : bool :=
  match e with Created _ _ => true | _ => false end.
Definition is_revoked (e : Event) : bool :=
  match e with Revoked _ => true | _ => false end.
Definition is_aborted (e : Event) : bool :=
  match e with Aborted _ => true | _ => false end.

Definition count (f : Event -> bool) (evs : list Event) : nat :=
  length (List.filter f evs).

(** The percentages reported, and the chunks read, in order. *)
Definition reported (evs : list Event) : list number :=
  omap (λ e, match e with Progress p => Some p | _ => None end) evs.
Definition received (evs : list Event) : list (list byte) :=
  omap (λ e, match e with ChunkRead v => Some v | _ => None end) evs.

(** All the chunks of a body, and the cumulative byte counts after each. *)
Fixpoint body_chunks (b : Body) : list (list byte) :=
  match b with
  | BodyChunk _ value rest => value :: body_chunks rest
  | BodyDone _ | BodyError _ _ => []
  end.

Fixpoint cumulative (from : Z) (chunks : list (list byte)) : list Z :=
  match chunks with
  | [] => []
  | chunk :: chunks =>
      (from + Z.of_nat (length chunk)) :: cumulative (from + Z.of_nat (length chunk)) chunks
  end.

(** The state [download] builds before entering its [try] block, and the
    outcome of the [try] block alone. *)
Definition allocate : M nat :=
  c ← new_AbortController; set_controller (Some c);; mret c.

Definition attempt (url : string) (options : Options) (sc : Scenario) : M (option nat) :=
  c ← allocate; download_try url options c sc.

(** The state after the page has made the calls [cs]: every call is a
    [stop] or a [cleanup]. *)
Definition after_calls (cs : list Call) (s : State) : State :=
  match cs with [] => s | _ :: _ => halted s end.

Definition made_calls (cs : list Call) : bool :=
  match cs with [] => false | _ :: _ => true end.

Definition outcome_of (b : Behaviour) : Outcome unit :=
  match throws b with Some e => Threw CallbackThrew e | None => Returned tt end.

(** A state of the transfer that started in [s1]: the objects are those of
    [s1], or those [stop] leaves when the transfer has been stopped, and
    [evs] has been appended to the trace. *)
Definition quiesced (s : State) : State := retrace (trace (platform s)) (halted s).

Definition stage (s1 : State) (stopped : bool) (evs : list Event) : State :=
  record evs (if stopped then quiesced s1 else s1).

Definition stop_tail (s1 : State) (stopped : bool) : list Event :=
  if stopped then stop_events s1 else [].

(** Is the progress callback going to be invoked: the coerced
    [Content-Length] is truthy and a callback was given. *)
Definition reporting (options : Options) (contentLength : number) : bool :=
  truthy contentLength && match progress options with Some _ => true | None => false end.

(** The events of the read loop over the chunks [vs], starting from a byte
    count of [from]. *)
Fixpoint loop_events (rep : bool) (contentLength : number) (from : Z)
    (vs : list (list byte)) : list Event :=
  match vs with
  | [] => []
  | v :: vs =>
      let n := from + Z.of_nat (length v) in
      ChunkRead v :: (if rep then [Progress (percentage n contentLength)] else [])
        ++ loop_events rep contentLength n vs
  end.

Definition total_length (vs : list (list byte)) : Z :=
  Z.of_nat (length (concat vs)).

#[global] Arguments stage : simpl never.
#[global] Arguments record : simpl never.
#[global] Arguments halted : simpl never.
#[global] Arguments percentage : simpl never.

(** What the read loop leaves: its result, whether the transfer has been
    stopped, and the chunks [vs] it read. *)
Definition loop_result (options : Options) (out : Outcome (Z * list (list byte)))
    (b : bool) (rl : Z) (chs vs : list (list byte)) (body : Body) : Prop :=
  match out with
  | Returned (rl', chs') =>
      b = false ∧ vs = body_chunks body ∧ chs' = (chs ++ vs)%list ∧ rl' = rl + total_length vs
  | Threw cause e =>
      (cause = Cancelled ∧ e = AbortError ∧ b = true) ∨
      (cause = BodyFailure ∧ b = false ∧ vs = body_chunks body ∧ ∃ m, e = TypeError m) ∨
      (cause = CallbackThrew ∧ ∃ f p, progress options = Some f ∧ throws (f p) = Some e)
  end.

(** The state after lines 89-107 of [download]: the previous blob URL, if
    any, revoked, and a fresh one created for [blob] and stored in the
    session. *)
Definition released (s : State) : State :=
  match blobUrl (this s) with
  | Some u => snd (revokeObjectURL u s)
  | None => s
  end.

Definition fresh_url (s : State) : nat :=
  let p := platform (released s) in fresh (dom (blob_store p) ∪ revoked p).

Definition published (blob : Blob) (s : State) : State :=
  snd (set_blobUrl (Some (fresh_url s)) (snd (createObjectURL blob (released s)))).

#[global] Arguments published : simpl never.

(** The total length the response advertises, coerced as [download] does,
    and the chunks its body holds. *)
Definition advertised (sc : Scenario) : number :=
  match network sc with
  | Respond r => ToNumber (content_length r)
  | NetworkError _ => ToNumber None
  end.

Definition sent (sc : Scenario) : list (list byte) :=
  match network sc with
  | Respond r => body_chunks (body r)
  | NetworkError _ => []
  end.

Definition opening (e : Event) : bool :=
  match e with Started | Requested _ _ _ => true | _ => false end.

(** How the [try] block can fail before the stream completes: the thrown
    error, whether the transfer has been stopped, and the chunks read. *)
Definition early_failure (options : Options) (sc : Scenario) (cause : Cause)
    (e : JsError) (b : bool) (vs : list (list byte)) : Prop :=
  match cause with
  | Cancelled => e = AbortError ∧ b = true
  | NetworkFailure =>
      b = false ∧ vs = [] ∧ ∃ msg, network sc = NetworkError msg ∧ e = TypeError msg
  | HttpStatus =>
      b = false ∧ vs = [] ∧
      ∃ r, network sc = Respond r ∧ ok r = false ∧
           e = Error ("HTTP error! status: " +:+ pretty (status r))
  | BodyFailure => b = false ∧ vs = sent sc ∧ ∃ msg, e = TypeError msg
  | NoBody =>
      b = false ∧ vs = [] ∧
      ∃ r, network sc = Respond r ∧ ok r = true ∧ null_body_status (status r) = true ∧
           e = TypeError "Cannot read properties of null (reading 'getReader')"
  | CallbackThrew =>
      (∃ f, started options = Some f ∧ throws f = Some e) ∨
      (∃ f p, progress options = Some f ∧ throws (f p) = Some e)
  | OutOfRange => False
  end.

(** The two ways the [try] block can end: it fails before the stream
    completes, or it reaches [finish]. *)
Definition try_shape (options : Options) (sc : Scenario) (s1 : State)
    (out : Outcome (option nat)) (s2 : State) : Prop :=
  let rep := reporting options (advertised sc) in
  (∃ cause e b pre vs rest,
      out = Threw cause e ∧
      s2 = stage s1 b (pre ++ loop_events rep (advertised sc) 0 vs ++ stop_tail s1 b) ∧
      forallb opening pre = true ∧
      sent sc = (vs ++ rest)%list ∧
      early_failure options sc cause e b vs) ∨
  (∃ resp pre,
      network sc = Respond resp ∧ ok resp = true ∧
      forallb opening pre = true ∧
      (out, s2) =
        finish options (content_type resp) (total_length (sent sc)) (sent sc)
          (stage s1 false (pre ++ loop_events rep (advertised sc) 0 (sent sc)))).

(** The token [download] allocates when started in [s], and the state in
    which its [try] block is entered. *)
Definition token (s : State) : nat := fresh (dom (signals (platform s))).
Definition allocated (s : State) : State := snd (allocate s).

(** The kind and message the [catch] block passes to [failed]. *)
Definition failure_report (error : JsError) : string * string :=
  if String.eqb (err_name error) "AbortError"
  then ("ABORTED", "Download was stopped")
  else ("ERROR", err_message error).

(** What the [catch] block adds to the trace, whether the [failed] callback
    calls back into the session, and how the block ends. *)
Definition report_events (options : Options) (e : JsError) : list Event :=
  match failed options with
  | Some _ => [Failed (failure_report e).1 (failure_report e).2]
  | None => []
  end.

Definition handler_calls (options : Options) (e : JsError) : bool :=
  match failed options with
  | Some f => made_calls (calls (f (failure_report e).1 (failure_report e).2))
  | None => false
  end.

Definition rethrown (options : Options) (cause : Cause) (e : JsError) : Outcome (option nat) :=
  match failed options with
  | Some f =>
      match throws (f (failure_report e).1 (failure_report e).2) with
      | Some e' => Threw CallbackThrew e'
      | None => Threw cause e
      end
  | None => Threw cause e
  end.

(** The events of releasing the previous blob URL, and the state in which a
    transfer goes on once its payload is published: the objects after lines
    89-107, seen from the trace the transfer started with. *)
Definition release_events (s : State) : list Event :=
  match blobUrl (this s) with Some u => [Revoked u] | None => [] end.

Definition rebased (blob : Blob) (s1 : State) : State :=
  retrace (trace (platform s1)) (published blob s1).

#[global] Arguments rebased : simpl never.

Definition streaming (e : Event) : bool :=
  match e with ChunkRead _ | Progress _ => true | _ => false end.

Definition lifecycle (e : Event) : bool := is_aborted e || is_revoked e.

(** The payload a completed transfer publishes. *)
Definition payload (sc : Scenario) : Blob :=
  {| blob_bytes := concat (sent sc);
     blob_type := match network sc with
                  | Respond r => content_type r
                  | NetworkError _ => None
                  end |}.

(** ** Sample runs *)

Definition fresh_session : State :=
  {| this := constructor; platform := empty_platform |}.

Definition quiet_options : Options :=
  {| headers := None;
     started := Some quiet;
     progress := Some (λ _, quiet);
     success := Some (λ _ _, quiet);
     failed := Some (λ _ _, quiet) |}.

(** [download(url)] or [download(url, {})]: no headers, no callbacks. *)
Definition no_callbacks : Options :=
  {| headers := None; started := None; progress := None; success := None; failed := None |}.

Definition chunk_of (n : nat) : list byte := replicate n x01.

Definition answer (st : nat) (len : option string) (chunks : list (list byte)) : Response :=
  {| status := st; content_type := Some "text/plain"; content_length := len;
     body := foldr (BodyChunk []) (BodyDone []) chunks |}.

Definition respond (st : nat) (len : option string) (chunks : list (list byte)) : Scenario :=
  {| during_fetch := []; network := Respond (answer st len chunks) |}.

(** 1000 bytes in four chunks of 250, as advertised. *)
Definition four_quarters : Scenario :=
  respond 200 (Some "1000") [chunk_of 250; chunk_of 250; chunk_of 250; chunk_of 250].

Definition not_found : Scenario := respond 404 None [].

(** A session that still holds the blob URL [0] of an earlier transfer. *)
Definition used_session : State :=
  {| this := {| controller := Some 0%nat; isPaused := false; blobUrl := Some 0%nat |};
     platform := {| signals := {[ 0%nat := false ]};
                    blob_store := {[ 0%nat := {| blob_bytes := chunk_of 3; blob_type := None |} ]};
                    revoked := ∅;
                    trace := [] |} |}.

(** Callbacks that call back into the session or throw. *)
Definition releasing_options : Options :=
  {| headers := None; started := None; progress := None;
     success := Some (λ _ _, {| calls := [CallCleanup]; throws := None |});
     failed := Some (λ _ _, quiet) |}.

Definition throwing_success_options : Options :=
  {| headers := None; started := None; progress := None;
     success := Some (λ _ _, {| calls := []; throws := Some (Error "boom") |});
     failed := Some (λ _ _, quiet) |}.

Definition throwing_failed_options : Options :=
  {| headers := None; started := None; progress := None; success := None;
     failed := Some (λ _ _, {| calls := []; throws := Some (Error "handler") |}) |}.

(** The page calls [stop] while the request is pending. *)
Definition stopped_while_pending : Scenario :=
  {| during_fetch := [CallStop]; network := network four_quarters |}.

(** A body of 250 bytes under [Content-Length: 100]. *)
Definition oversized : Scenario := respond 200 (Some "100") [chunk_of 250].

(** 200 bytes of which 29 arrive first. *)
Definition uneven : Scenario := respond 200 (Some "200") [chunk_of 29; chunk_of 171].

(** 40 bytes of which 23 arrive first: exactly 57.5 percent. *)
Definition tied : Scenario := respond 200 (Some "40") [chunk_of 23; chunk_of 17].

(** ** Real-number semantics of binary64 values *)

Definition bpow (e : Z) : R := powerRZ 2 e.

Definition F2R (m e : Z) : R := (IZR m * bpow e)%R.

(** The real value of a finite number; the other numbers count as 0. *)
Definition B2R (x : number) : R :=
  match x with
  | S754_finite s m e => F2R (cond_Zopp s (Zpos m)) e
  | _ => 0%R
  end.

(** [y] lies in the unit interval that starts at the mantissa of [rs], at
    the place the round and sticky bits of [rs] tell. *)
Definition located (rs : shr_record) (y : R) : Prop :=
  let m := IZR (shr_m rs) in
  match shr_r rs, shr_s rs with
  | false, false => y = m
  | false, true => (m < y < m + / 2)%R
  | true, false => y = (m + / 2)%R
  | true, true => (m + / 2 < y < m + 1)%R
  end.

(** [M] is the integer nearest to [y], the even one on a tie. *)
Definition nearest_even (y : R) (M : Z) : Prop :=
  (Rabs (y - IZR M) <= / 2)%R ∧ (Rabs (y - IZR M) = (/ 2)%R -> Z.even M = true).

(** [f] is the positive normal binary64 number obtained by rounding the real
    [x] to nearest, ties to even: [x] lies in the binade of exponent [c], is
    rounded there to the integer [M] of units [2^c], and [f] is the
    canonical representation of [M * 2^c]. *)
Definition rounds_to (x : R) (f : number) : Prop :=
  ∃ m e c M,
    f = S754_finite false m e ∧
    Zpos (digits2_pos m) = 53 ∧
    c <= e <= c + 1 ∧
    -1074 <= e <= 971 ∧
    (bpow (c + 52) <= x < bpow (c + 53))%R ∧
    F2R (Zpos m) e = F2R M c ∧
    nearest_even (x * bpow (- c)) M.

(** A positive normal binary64 number in canonical form. *)
Definition canonical (f : number) : Prop :=
  ∃ m e, f = S754_finite false m e ∧ Zpos (digits2_pos m) = 53 ∧ -1074 <= e <= 971.

(** [(receivedLength / contentLength) * 100] when the total length is the
    integer [L], and the integer that [Math.round] makes of it. *)
Definition scaled (r L : Z) : number := mul (div (of_Z r) (of_Z L)) (of_Z 100).

Definition percent_Z (r L : Z) : Z :=
  match scaled r L with
  | S754_finite s m e => round_half_up s m e
  | _ => 0
  end.

(** The percentage in the words of the specification, [round(r/L*100)]:
    the exact quotient [100 * r / L] rounded to the nearest integer, a half
    rounding up as [Math.round] does. *)
Definition spec_percent (r L : Z) : Z := (200 * r + L) / (2 * L).

(** The comparison of the numbers 0 to 100, checked one pair at a time. *)
Definition leb_table : bool :=
  forallb (λ a, forallb (λ b, implb (a <=? b)%nat
                                (leb (of_Z (Z.of_nat a)) (of_Z (Z.of_nat b))))
                  (seq 0 101))
    (seq 0 101).


(** ** A session over its lifetime *)

(** [new Downloader()] in the browser state [p]. *)
Definition new_Downloader (p : Platform) : State :=
  {| this := constructor; platform := p |}.

(** What the page does with a session, one operation after the other: a
    transfer it awaits, or a call of [stop] or [cleanup] between two
    transfers. *)
Inductive Op :=
| OpDownload (url : string) (options : Options) (sc : Scenario)
| OpStop
| OpCleanup.

Definition step (o : Op) (s : State) : State :=
  match o with
  | OpDownload url options sc => snd (download url options sc s)
  | OpStop => snd (stop s)
  | OpCleanup => snd (cleanup s)
  end.

Definition run (ops : list Op) (s : State) : State :=
  foldl (λ s o, step o s) s ops.

(** The blob URL store without the blob the session holds. *)
Definition without_handle (s : State) : gmap nat Blob :=
  match blobUrl (this s) with
  | Some h => delete h (blob_store (platform s))
  | None => blob_store (platform s)
  end.

(** The session holds at most one blob of its own: the store is the one
    the session started with in [p], plus the blob behind its [blobUrl]
    field, which is registered and not revoked. *)
Definition one_blob (p : Platform) (s : State) : Prop :=
  (∀ k, blobUrl (this s) ≠ Some k -> blob_store (platform s) !! k = blob_store p !! k) ∧
  (∀ u, blobUrl (this s) = Some u ->
        blob_store p !! u = None ∧
        is_Some (blob_store (platform s) !! u) ∧
        (u ∉ revoked (platform s))).

(** The session touches no controller but its own: those of [p] are as
    they were, and the one in its [controller] field is not one of them and
    is not aborted. *)
Definition own_tokens (p : Platform) (s : State) : Prop :=
  (∀ c, c ∈ dom (signals p) -> signals (platform s) !! c = signals p !! c) ∧
  (∀ c, controller (this s) = Some c ->
        (c ∉ dom (signals p)) ∧ signals (platform s) !! c = Some false).

(** ** The opening of a transfer *)

(** What the [started] callback does, if there is one. *)
Definition started_events (options : Options) : list Event :=
  match started options with Some _ => [Started] | None => [] end.

Definition started_stops (options : Options) : bool :=
  match started options with Some f => made_calls (calls f) | None => false end.

Definition started_throws (options : Options) : option JsError :=
  match started options with Some f => throws f | None => None end.

(** The request [download] makes for [url] under the token [c]: none when
    the [started] callback threw or stopped the session. *)
Definition request_events (url : string) (options : Options) (c : nat) : list Event :=
  match started_throws options with
  | Some _ => []
  | None =>
      if started_stops options then []
      else [Requested url (default ∅ (headers options)) c]
  end.

Definition opening_events (url : string) (options : Options) (c : nat) : list Event :=
  (started_events options ++ request_events url options c)%list.

(** [try_shape] with the opening events spelled out, and with the chunks
    read tied to the status of the response. *)
Definition try_shape_at (pre : list Event) (options : Options) (sc : Scenario)
    (s1 : State) (out : Outcome (option nat)) (s2 : State) : Prop :=
  let rep := reporting options (advertised sc) in
  (∃ cause e b vs rest,
      out = Threw cause e ∧
      s2 = stage s1 b (pre ++ loop_events rep (advertised sc) 0 vs ++ stop_tail s1 b) ∧
      sent sc = (vs ++ rest)%list ∧
      early_failure options sc cause e b vs ∧
      (vs ≠ [] -> ∃ r, network sc = Respond r ∧ ok r = true)) ∨
  (∃ resp,
      network sc = Respond resp ∧ ok resp = true ∧
      (out, s2) =
        finish options (content_type resp) (total_length (sent sc)) (sent sc)
          (stage s1 false (pre ++ loop_events rep (advertised sc) 0 (sent sc)))).



(** ** A transfer that nothing disturbs *)

(** A callback body that neither calls back into the session nor throws. *)
Definition silent (b : Behaviour) : Prop := calls b = [] ∧ throws b = None.

(** Options whose [started], [progress] and [success] callbacks, where
    given, are silent whatever they are passed. *)
Definition calm (options : Options) : Prop :=
  (∀ f, started options = Some f -> silent f) ∧
  (∀ f p, progress options = Some f -> silent (f p)) ∧
  (∀ f u ct, success options = Some f -> silent (f u ct)).

(** A body that ends without an error, with no call of the page on the
    session while a read is pending. *)
Fixpoint calm_body (b : Body) : bool :=
  match b with
  | BodyChunk interleaved _ rest => negb (made_calls interleaved) && calm_body rest
  | BodyDone interleaved => negb (made_calls interleaved)
  | BodyError _ _ => false
  end.
(** * Properties *)

(** ** [stop] and [cleanup] *)

Lemma stop_eq s : stop s = (Returned tt, halted s).
Proof.
  destruct s as [[c p u] [sg bs rv tr]].
  unfold stop, halted, stop_events, mbind, M_bind, gets, mret, M_ret; simpl.
  destruct c as [c|], u as [u|]; simpl;
    unfold abort, revokeObjectURL, set_controller, set_blobUrl, with_platform; simpl;
    rewrite ?app_nil_r, <- ?app_assoc; reflexivity.
Qed.

Lemma halted_idem s : halted (halted s) = halted s.
Proof.
  destruct s as [[c p u] [sg bs rv tr]].
  unfold halted, stop_events; simpl. rewrite app_nil_r. reflexivity.
Qed.

Lemma cleanup_eq s : cleanup s = (Returned tt, halted s).
Proof.
  unfold cleanup, mbind, M_bind. rewrite stop_eq.
  unfold gets, mret, M_ret. reflexivity.
Qed.

Lemma events_since_record s evs : events_since s (record evs s) = evs.
Proof. unfold events_since, record, retrace; simpl. apply drop_app_length. Qed.

Lemma events_since_halted s : events_since s (halted s) = stop_events s.
Proof. unfold events_since, halted; simpl. apply drop_app_length. Qed.

Lemma halted_inert s :
  controller (this s) = None -> blobUrl (this s) = None -> halted s = s.
Proof.
  destruct s as [[c p u] [sg bs rv tr]]; simpl; intros -> ->.
  unfold halted, stop_events; simpl. rewrite app_nil_r. reflexivity.
Qed.

(** C5.  [stop] returns normally; it signals the token and then clears it,
    releases the payload handle, and leaves both fields null.  It appends
    exactly the abort and the revocation it performed to the trace (no
    callback is involved), changes nothing on a session that holds neither a
    token nor a handle, and a second [stop] changes nothing at all. *)
Theorem stop_cancels_and_releases (s : State) :
  ∃ s',
    stop s = (Returned tt, s') ∧
    controller (this s') = None ∧
    blobUrl (this s') = None ∧
    (∀ c, controller (this s) = Some c →
          aborted (platform s') c = true ∧
          events_since s s' =
            Aborted c :: match blobUrl (this s) with Some u => [Revoked u] | None => [] end) ∧
    (∀ u, blobUrl (this s) = Some u →
          blob_store (platform s') !! u = None ∧
          u ∈ revoked (platform s') ∧
          In (Revoked u) (events_since s s')) ∧
    count (λ e, negb (is_aborted e || is_revoked e)) (events_since s s') = 0%nat ∧
    (controller (this s) = None → blobUrl (this s) = None → s' = s) ∧
    stop s' = (Returned tt, s').
Proof.
  exists (halted s). rewrite !stop_eq, halted_idem, events_since_halted.
  destruct s as [[c p u] [sg bs rv tr]]; unfold stop_events, aborted; simpl.
  split; [reflexivity|]. split; [reflexivity|]. split; [reflexivity|].
  split; [intros c' [= ->]; simpl; split; [by rewrite lookup_insert_eq | reflexivity]|].
  split.
  { intros u' [= ->]; simpl. split; [apply lookup_delete_eq|].
    split; [set_solver|]. destruct c; simpl; auto. }
  split; [destruct c, u; reflexivity|].
  split; [|reflexivity].
  intros -> ->. unfold halted, stop_events; simpl. by rewrite app_nil_r.
Qed.

(** C6.  [cleanup] is [stop]: on every state both return normally with the
    same resulting state; after the [stop] it starts with, the handle is
    already null, so the guard of its second release is false; and a second
    [cleanup] changes nothing. *)
Theorem cleanup_is_stop (s : State) :
  cleanup s = stop s ∧
  blobUrl (this (snd (stop s))) = None ∧
  cleanup (snd (cleanup s)) = (Returned tt, snd (cleanup s)).
Proof.
  rewrite !cleanup_eq, stop_eq; simpl. rewrite halted_idem. auto.
Qed.

(** ** Running the monad *)

Lemma bind_eq {A B} (m : M A) (f : A -> M B) s :
  (m ≫= f) s = match m s with
               | (Returned a, s') => f a s'
               | (Threw c e, s') => (Threw c e, s')
               end.
Proof. reflexivity. Qed.

Lemma perform_all_eq cs s : perform_all cs s = (Returned tt, after_calls cs s).
Proof.
  destruct cs as [|c cs]; [reflexivity|]. simpl.
  assert (Hp : perform c s = (Returned tt, halted s))
    by (destruct c; [apply stop_eq | apply cleanup_eq]).
  rewrite bind_eq, Hp. clear Hp c.
  induction cs as [|c cs IH]; [reflexivity|]. simpl.
  assert (Hp : perform c (halted s) = (Returned tt, halted s))
    by (destruct c; [rewrite stop_eq | rewrite cleanup_eq]; by rewrite halted_idem).
  rewrite bind_eq, Hp. exact IH.
Qed.

Lemma emit_eq ev s : emit ev s = (Returned tt, record [ev] s).
Proof. reflexivity. Qed.

Lemma invoke_eq ev b s :
  invoke ev b s = (outcome_of b, after_calls (calls b) (record [ev] s)).
Proof.
  unfold invoke. rewrite bind_eq, emit_eq, bind_eq, perform_all_eq.
  unfold outcome_of. destruct (throws b); reflexivity.
Qed.

Lemma settle_eq {A} inter signal (k : M A) s :
  settle inter signal k s =
    if aborted (platform (after_calls inter s)) signal
    then (Threw Cancelled AbortError, after_calls inter s)
    else k (after_calls inter s).
Proof.
  unfold settle. rewrite bind_eq, perform_all_eq. reflexivity.
Qed.

(** ** Stages of a transfer *)

Lemma record_stage s1 b evs evs' : record evs' (stage s1 b evs) = stage s1 b (evs ++ evs').
Proof. unfold stage, record, retrace; simpl. by rewrite app_assoc. Qed.

Lemma stage_nil s1 : stage s1 false [] = s1.
Proof.
  destruct s1 as [d [sg bs rv tr]]. unfold stage, record, retrace; simpl.
  by rewrite app_nil_r.
Qed.

Lemma halted_stage s1 b evs :
  halted (stage s1 b evs) = stage s1 true (evs ++ stop_tail s1 (negb b)).
Proof.
  destruct s1 as [[c p u] [sg bs rv tr]], b;
    unfold stage, record, retrace, quiesced, halted, stop_tail, stop_events; simpl;
    rewrite ?app_nil_r, <- ?app_assoc; reflexivity.
Qed.

Lemma after_calls_stage cs s1 b evs :
  after_calls cs (stage s1 b evs) =
    stage s1 (b || made_calls cs) (evs ++ stop_tail s1 (negb b && made_calls cs)).
Proof.
  destruct cs; simpl.
  - rewrite orb_false_r, andb_false_r; simpl. by rewrite app_nil_r.
  - rewrite halted_stage, orb_true_r, andb_true_r. reflexivity.
Qed.

Lemma aborted_stage s1 c b evs :
  controller (this s1) = Some c ->
  signals (platform s1) !! c = Some false ->
  aborted (platform (stage s1 b evs)) c = b.
Proof.
  intros Hc Hs. destruct b; unfold aborted, stage, quiesced, halted; simpl.
  - rewrite Hc. by rewrite lookup_insert_eq.
  - by rewrite Hs.
Qed.

Lemma after_calls_stopped cs s1 evs :
  after_calls cs (stage s1 true evs) = stage s1 true evs.
Proof. rewrite after_calls_stage. cbn [orb negb andb stop_tail]. by rewrite app_nil_r. Qed.

Lemma after_calls_live cs s1 evs :
  after_calls cs (stage s1 false evs) =
    stage s1 (made_calls cs) (evs ++ stop_tail s1 (made_calls cs)).
Proof. rewrite after_calls_stage. reflexivity. Qed.

(** ** The read loop *)

Section Transfer.
Variables (s1 : State) (c : nat).
Hypothesis Hc : controller (this s1) = Some c.
Hypothesis Hs : signals (platform s1) !! c = Some false.

Lemma read_loop_stopped options L body rl chs evs :
  read_loop options c L body rl chs (stage s1 true evs) =
    (Threw Cancelled AbortError, stage s1 true evs).
Proof.
  destruct body; cbn [read_loop]; rewrite settle_eq, after_calls_stopped, aborted_stage; auto. 
Qed.

Lemma total_length_cons v vs :
  total_length (v :: vs) = Z.of_nat (length v) + total_length vs.
Proof. unfold total_length; simpl. rewrite length_app. lia. Qed.

Lemma read_loop_stage options L body :
  ∀ rl chs evs,
  ∃ out b vs,
    read_loop options c L body rl chs (stage s1 false evs) =
      (out, stage s1 b (evs ++ loop_events (reporting options L) L rl vs ++ stop_tail s1 b)) ∧
    (∃ rest, body_chunks body = (vs ++ rest)%list) ∧
    loop_result options out b rl chs vs body.
Proof.
  induction body as [inter v rest IH|inter|inter msg]; intros rl chs evs; cbn [read_loop].
  - rewrite settle_eq, after_calls_live, aborted_stage by assumption.
    destruct (made_calls inter) eqn:Hi.
    { exists (Threw Cancelled AbortError), true, [].
      split; [reflexivity|]. split; [by eexists|]. by left. }
    cbn [stop_tail]. rewrite app_nil_r, bind_eq, emit_eq, record_stage.
    rewrite bind_eq.
    assert (Hcons : ∀ out b vs,
      (∃ rest', body_chunks rest = (vs ++ rest')%list) →
      loop_result options out b (rl + Z.of_nat (length v)) (chs ++ [v])%list vs rest →
      (∃ rest', body_chunks (BodyChunk inter v rest) = ((v :: vs) ++ rest')%list) ∧
      loop_result options out b rl chs (v :: vs) (BodyChunk inter v rest)).
    { intros out b vs [rest' Hr] Hres. split; [exists rest'; simpl; by rewrite Hr|].
      destruct out as [[rl' chs']|cause e]; simpl in *.
      - destruct Hres as (-> & -> & -> & ->).
        rewrite total_length_cons, <- app_assoc. repeat split; lia.
      - destruct Hres as [H|[(-> & -> & -> & H)|H]]; auto.
        right; left. auto. }
    destruct (truthy L) eqn:HL; [destruct (progress options) as [f|] eqn:Hp|].
    + assert (Hrep : reporting options L = true) by (unfold reporting; by rewrite HL, Hp).
      rewrite Hrep in *.
      set (p := percentage (rl + Z.of_nat (length v)) L).
      rewrite invoke_eq, record_stage, after_calls_live. unfold outcome_of.
      destruct (throws (f p)) as [e|] eqn:Ht.
      { exists (Threw CallbackThrew e), (made_calls (calls (f p))), [v].
        split; [|split; [by eexists|]].
        - cbn [loop_events app]. fold p. rewrite <- !app_assoc; reflexivity.
        - right; right. split; [reflexivity|]. eauto. }
      destruct (made_calls (calls (f p))) eqn:Hm.
      { rewrite read_loop_stopped.
        exists (Threw Cancelled AbortError), true, [v].
        split; [|split; [by eexists|]].
        - cbn [loop_events app]. fold p. rewrite <- !app_assoc; reflexivity.
        - by left. }
      cbn [stop_tail]. rewrite app_nil_r.
      destruct (IH (rl + Z.of_nat (length v)) (chs ++ [v])%list
                   ((evs ++ [ChunkRead v]) ++ [Progress p])%list)
        as (out & b & vs & -> & Hr & Hres).
      exists out, b, (v :: vs).
      split; [|by apply (Hcons out b vs)].
      cbn [loop_events app]. fold p. rewrite <- !app_assoc; reflexivity.
    + assert (Hrep : reporting options L = false) by (unfold reporting; by rewrite HL, Hp).
      rewrite Hrep in *. cbn [mret M_ret].
      destruct (IH (rl + Z.of_nat (length v)) (chs ++ [v])%list (evs ++ [ChunkRead v])%list)
        as (out & b & vs & -> & Hr & Hres).
      exists out, b, (v :: vs).
      split; [|by apply (Hcons out b vs)].
      cbn [loop_events app]. rewrite <- !app_assoc; reflexivity.
    + assert (Hrep : reporting options L = false) by (unfold reporting; by rewrite HL).
      rewrite Hrep in *. cbn [mret M_ret].
      destruct (IH (rl + Z.of_nat (length v)) (chs ++ [v])%list (evs ++ [ChunkRead v])%list)
        as (out & b & vs & -> & Hr & Hres).
      exists out, b, (v :: vs).
      split; [|by apply (Hcons out b vs)].
      cbn [loop_events app]. rewrite <- !app_assoc; reflexivity.
  - rewrite settle_eq, after_calls_live, aborted_stage by assumption.
    destruct (made_calls inter) eqn:Hi.
    + exists (Threw Cancelled AbortError), true, [].
      split; [reflexivity|]. split; [by eexists|]. by left.
    + exists (Returned (rl, chs)), false, [].
      split; [reflexivity|]. split; [by eexists|].
      simpl. rewrite app_nil_r. unfold total_length; simpl. repeat split; lia.
  - rewrite settle_eq, after_calls_live, aborted_stage by assumption.
    destruct (made_calls inter) eqn:Hi.
    + exists (Threw Cancelled AbortError), true, [].
      split; [reflexivity|]. split; [by eexists|]. by left.
    + exists (Threw BodyFailure (TypeError msg)), false, [].
      split; [reflexivity|]. split; [by eexists|].
      right; left. repeat split; eauto.
Qed.
End Transfer.
(** ** Assembling the payload *)

Lemma copy_chunks_concat chunks :
  ∀ filled,
    copy_chunks (filled ++ replicate (length (concat chunks)) x00) (length filled) chunks =
      Some (filled ++ concat chunks)%list.
Proof.
  induction chunks as [|chunk chunks IH]; intros filled; simpl.
  - reflexivity.
  - unfold typed_array_set.
    rewrite (length_app chunk (concat chunks)), length_app, length_replicate.
    destruct (Nat.leb_spec (length filled + length chunk)
                (length filled + (length chunk + length (concat chunks)))) as [_|H]; [|lia].
    rewrite take_app_length.
    rewrite drop_app_ge by lia.
    replace (length filled + length chunk - length filled)%nat with (length chunk) by lia.
    rewrite drop_replicate.
    replace (length chunk + length (concat chunks) - length chunk)%nat
      with (length (concat chunks)) by lia.
    specialize (IH (filled ++ chunk)%list).
    rewrite length_app, <- app_assoc in IH. rewrite IH.
    by rewrite <- app_assoc.
Qed.

Lemma combine_eq chunks s :
  combine (total_length chunks) chunks s = (Returned (concat chunks), s).
Proof.
  unfold combine, total_length. rewrite Nat2Z.id.
  pose proof (copy_chunks_concat chunks []) as H. simpl in H. by rewrite H.
Qed.

Lemma finish_eq options ct chunks s :
  finish options ct (total_length chunks) chunks s =
    let blob := {| blob_bytes := concat chunks; blob_type := ct |} in
    let u := fresh_url s in
    let s3 := published blob s in
    match success options with
    | None => (Returned (Some u), s3)
    | Some f =>
        let s4 := after_calls (calls (f u ct)) (record [Success u ct] s3) in
        match throws (f u ct) with
        | Some e => (Threw CallbackThrew e, s4)
        | None => (Returned (blobUrl (this s4)), s4)
        end
    end.
Proof.
  unfold finish. rewrite bind_eq. cbn [gets].
  assert (Hrel : (match blobUrl (this s) with
                  | Some u => revokeObjectURL u
                  | None => mret ()
                  end) s = (Returned tt, released s)).
  { unfold released. by destruct (blobUrl (this s)). }
  rewrite bind_eq, Hrel, bind_eq, combine_eq, bind_eq.
  cbn [createObjectURL]. rewrite bind_eq. cbn [set_blobUrl].
  destruct (success options) as [f|].
  - rewrite bind_eq, invoke_eq. unfold outcome_of.
    destruct (throws _); reflexivity.
  - reflexivity.
Qed.
(** ** The [try] block *)

Section Attempt.
Variables (s1 : State) (c : nat).
Hypothesis Hc : controller (this s1) = Some c.
Hypothesis Hs : signals (platform s1) !! c = Some false.

Lemma started_stage options :
  ∃ o b pre,
    (match started options with
     | Some f => invoke Started f
     | None => mret ()
     end) (stage s1 false []) = (o, stage s1 b (pre ++ stop_tail s1 b)) ∧
    forallb opening pre = true ∧
    (o = Returned tt ∨
     ∃ f e, o = Threw CallbackThrew e ∧ started options = Some f ∧ throws f = Some e).
Proof.
  destruct (started options) as [f|].
  - rewrite invoke_eq, record_stage, after_calls_live.
    exists (outcome_of f), (made_calls (calls f)), [Started].
    split; [reflexivity|]. split; [reflexivity|].
    unfold outcome_of. destruct (throws f) eqn:Hf; [right|left]; eauto.
  - exists (Returned tt), false, []. auto.
Qed.

Lemma download_try_stage url options sc out s2 :
  download_try url options c sc (stage s1 false []) = (out, s2) ->
  try_shape options sc s1 out s2.
Proof.
  unfold download_try, try_shape.
  rewrite bind_eq.
  destruct (started_stage options) as (o & b0 & pre0 & -> & Hpre0 & Ho).
  destruct Ho as [->|(f & e & -> & Hf & He)].
  2:{ intros [= <- <-]. left.
      exists CallbackThrew, e, b0, pre0, [], (sent sc).
      repeat split; auto. simpl. eauto. }
  rewrite bind_eq. unfold fetch, unless_aborted.
  rewrite aborted_stage by assumption.
  destruct b0.
  { intros [= <- <-]. left.
    exists Cancelled, AbortError, true, pre0, [], (sent sc).
    repeat split; auto. }
  cbn [stop_tail]. rewrite app_nil_r.
  rewrite bind_eq, emit_eq, record_stage, settle_eq, after_calls_live,
    aborted_stage by assumption.
  destruct (made_calls (during_fetch sc)).
  { intros [= <- <-]. left.
    exists Cancelled, AbortError, true, (pre0 ++ [Requested url (default ∅ (headers options)) c])%list,
      [], (sent sc).
    repeat split; auto.
    rewrite forallb_app, Hpre0. reflexivity. }
  cbn [stop_tail]. rewrite app_nil_r.
  set (pre := (pre0 ++ [Requested url (default ∅ (headers options)) c])%list).
  assert (Hpre : forallb opening pre = true)
    by (unfold pre; rewrite forallb_app, Hpre0; reflexivity).
  unfold advertised, sent.
  destruct (network sc) as [msg|r] eqn:Hn.
  { intros [= <- <-]. left.
    exists NetworkFailure, (TypeError msg), false, pre, [], [].
    cbn [loop_events stop_tail app]. rewrite app_nil_r.
    repeat split; eauto. }
  cbn [mret M_ret].
  destruct (ok r) eqn:Hok; cbn [negb].
  2:{ intros [= <- <-]. left.
      exists HttpStatus, (Error ("HTTP error! status: " +:+ pretty (status r))),
        false, pre, [], (body_chunks (body r)).
      cbn [loop_events stop_tail app]. rewrite app_nil_r.
      repeat split; eauto. }
  cbv zeta.
  destruct (null_body_status (status r)) eqn:Hnull.
  { intros [= <- <-]. left.
    exists NoBody, (TypeError "Cannot read properties of null (reading 'getReader')"),
      false, pre, [], (body_chunks (body r)).
    cbn [loop_events stop_tail app]. rewrite app_nil_r.
    repeat split; eauto. }
  rewrite bind_eq.
  destruct (read_loop_stage s1 c Hc Hs options (ToNumber (content_length r)) (body r) 0 [] pre)
    as (lo & b & vs & -> & [rest Hrest] & Hres).
  destruct lo as [[rl chs]|cause e]; simpl in Hres.
  - destruct Hres as (-> & -> & -> & ->). cbn [stop_tail app].
    rewrite app_nil_r, Z.add_0_l. intros Hfin. right.
    exists r, pre. repeat split; auto.
  - intros [= <- <-]. left.
    exists cause, e, b, pre, vs, rest.
    repeat split; auto.
    destruct Hres as [(-> & -> & ->)|[(-> & -> & -> & m & ->)|(-> & H)]]; simpl.
    + auto.
    + unfold sent. rewrite Hn. eauto.
    + right. exact H.
Qed.
End Attempt.
(** ** [download] as a whole *)

Lemma allocate_eq s : allocate s = (Returned (token s), allocated s).
Proof. reflexivity. Qed.

Lemma allocated_controller s : controller (this (allocated s)) = Some (token s).
Proof. reflexivity. Qed.

Lemma allocated_signal s : signals (platform (allocated s)) !! token s = Some false.
Proof. unfold allocated, allocate; simpl. apply lookup_insert_eq. Qed.

Lemma token_fresh s : token s ∉ dom (signals (platform s)).
Proof. unfold token. apply is_fresh. Qed.

Lemma attempt_eq url options sc s :
  attempt url options sc s = download_try url options (token s) sc (allocated s).
Proof. reflexivity. Qed.

Lemma download_eq url options sc s :
  download url options sc s =
    match attempt url options sc s with
    | (Threw cause e, s2) => download_catch options cause e s2
    | r => r
    end.
Proof. reflexivity. Qed.

Lemma download_catch_eq options cause e s :
  download_catch options cause e s =
    match failed options with
    | None => (Threw cause e, s)
    | Some f =>
        let '(kind, message) := failure_report e in
        let s' := after_calls (calls (f kind message)) (record [Failed kind message] s) in
        match throws (f kind message) with
        | Some e' => (Threw CallbackThrew e', s')
        | None => (Threw cause e, s')
        end
    end.
Proof.
  unfold download_catch, failure_report.
  destruct (failed options) as [f|]; [|reflexivity].
  rewrite bind_eq.
  destruct (String.eqb (err_name e) "AbortError");
    rewrite invoke_eq; unfold outcome_of; destruct (throws _); reflexivity.
Qed.

Lemma attempt_shape url options sc s :
  try_shape options sc (allocated s) (fst (attempt url options sc s))
    (snd (attempt url options sc s)).
Proof.
  rewrite attempt_eq.
  apply (download_try_stage (allocated s) (token s) (allocated_controller s)
           (allocated_signal s) url).
  rewrite stage_nil. apply surjective_pairing.
Qed.

(** *** What a stage looks like *)

Lemma trace_stage s1 b evs :
  trace (platform (stage s1 b evs)) = (trace (platform s1) ++ evs)%list.
Proof. by destruct b. Qed.

Lemma this_stage s1 b evs :
  this (stage s1 b evs) =
    if b then {| controller := None; isPaused := isPaused (this s1); blobUrl := None |}
    else this s1.
Proof. by destruct b. Qed.

Lemma blob_store_stage s1 b evs :
  blob_store (platform (stage s1 b evs)) =
    if b then match blobUrl (this s1) with
              | Some u => delete u (blob_store (platform s1))
              | None => blob_store (platform s1)
              end
    else blob_store (platform s1).
Proof. by destruct b. Qed.

Lemma events_since_stage s b evs :
  events_since s (stage (allocated s) b evs) = evs.
Proof. unfold events_since. rewrite trace_stage. apply drop_app_length. Qed.
Lemma download_catch_after options cause e s :
  download_catch options cause e s =
    (rethrown options cause e,
     match failed options with
     | Some f =>
         after_calls (calls (f (failure_report e).1 (failure_report e).2))
           (record (report_events options e) s)
     | None => s
     end).
Proof.
  rewrite download_catch_eq. unfold rethrown, report_events.
  destruct (failed options) as [f|]; [|reflexivity].
  destruct (failure_report e) as [k m]. cbn [fst snd].
  destruct (throws (f k m)); reflexivity.
Qed.

Lemma download_catch_stage options cause e s1 b evs :
  download_catch options cause e (stage s1 b evs) =
    (rethrown options cause e,
     stage s1 (b || handler_calls options e)
       (evs ++ report_events options e ++ stop_tail s1 (negb b && handler_calls options e))).
Proof.
  rewrite download_catch_after. f_equal.
  unfold handler_calls, report_events.
  destruct (failed options) as [f|].
  - rewrite record_stage, after_calls_stage. by rewrite <- app_assoc.
  - rewrite orb_false_r, andb_false_r. cbn [stop_tail app]. by rewrite !app_nil_r.
Qed.

(** A [try] block that fails for another reason than a throwing callback
    has failed before the stream completed. *)
Lemma attempt_early url options sc s cause e s2 :
  attempt url options sc s = (Threw cause e, s2) ->
  cause ≠ CallbackThrew ->
  ∃ b pre vs rest,
    s2 = stage (allocated s) b
           (pre ++ loop_events (reporting options (advertised sc)) (advertised sc) 0 vs
                ++ stop_tail (allocated s) b) ∧
    forallb opening pre = true ∧
    sent sc = (vs ++ rest)%list ∧
    early_failure options sc cause e b vs.
Proof.
  intros Ha Hcause. pose proof (attempt_shape url options sc s) as Hshape.
  rewrite Ha in Hshape. cbn [fst snd] in Hshape.
  destruct Hshape as [(cause' & e' & b & pre & vs & rest & [= <- <-] & -> & Hpre & Hsent & Hearly)
                     |(resp & pre & _ & _ & _ & Hfin)].
  - exists b, pre, vs, rest. auto.
  - exfalso. rewrite finish_eq in Hfin. cbv zeta in Hfin.
    destruct (success options) as [f|]; [|discriminate].
    destruct (throws _); [|discriminate].
    injection Hfin as -> _ _. by apply Hcause.
Qed.

(** How a whole [download] ends when its [try] block failed early. *)
Lemma download_early url options sc s cause e s2 :
  attempt url options sc s = (Threw cause e, s2) ->
  cause ≠ CallbackThrew ->
  ∃ b pre vs rest,
    download url options sc s =
      (rethrown options cause e,
       stage (allocated s) (b || handler_calls options e)
         (pre ++ loop_events (reporting options (advertised sc)) (advertised sc) 0 vs
              ++ stop_tail (allocated s) b
              ++ report_events options e
              ++ stop_tail (allocated s) (negb b && handler_calls options e))) ∧
    forallb opening pre = true ∧
    sent sc = (vs ++ rest)%list ∧
    early_failure options sc cause e b vs.
Proof.
  intros Ha Hcause.
  destruct (attempt_early _ _ _ _ _ _ _ Ha Hcause) as (b & pre & vs & rest & -> & H).
  exists b, pre, vs, rest. split; [|exact H].
  rewrite download_eq, Ha, download_catch_stage. by rewrite <- !app_assoc.
Qed.
(** *** Completed transfers *)

Lemma published_stage blob s1 evs :
  published blob (stage s1 false evs) =
    stage (rebased blob s1) false
      (evs ++ release_events s1 ++ [Created (fresh_url s1) blob]).
Proof.
  destruct s1 as [[c p u] [sg bs rv tr]].
  unfold published, rebased, stage, record, retrace, released, fresh_url, release_events; simpl.
  destruct u; simpl; rewrite <- ?app_assoc; reflexivity.
Qed.

Lemma fresh_url_stage s1 evs : fresh_url (stage s1 false evs) = fresh_url s1.
Proof.
  destruct s1 as [[c p u] [sg bs rv tr]].
  unfold fresh_url, released, stage, record, retrace; simpl. by destruct u.
Qed.

Lemma rebased_controller blob s1 : controller (this (rebased blob s1)) = controller (this s1).
Proof.
  unfold rebased, published, released. destruct (blobUrl (this s1)); reflexivity.
Qed.

Lemma rebased_signals blob s1 : signals (platform (rebased blob s1)) = signals (platform s1).
Proof.
  unfold rebased, published, released. destruct (blobUrl (this s1)); reflexivity.
Qed.

Lemma rebased_blobUrl blob s1 : blobUrl (this (rebased blob s1)) = Some (fresh_url s1).
Proof. reflexivity. Qed.

Lemma rebased_trace blob s1 : trace (platform (rebased blob s1)) = trace (platform s1).
Proof. reflexivity. Qed.

Lemma download_completed url options sc s resp pre :
  network sc = Respond resp ->
  attempt url options sc s =
    finish options (content_type resp) (total_length (sent sc)) (sent sc)
      (stage (allocated s) false
         (pre ++ loop_events (reporting options (advertised sc)) (advertised sc) 0 (sent sc))) ->
  let s1 := allocated s in
  let u := fresh_url s1 in
  let ct := content_type resp in
  let base := rebased (payload sc) s1 in
  let evs := (pre ++ loop_events (reporting options (advertised sc)) (advertised sc) 0 (sent sc)
                  ++ release_events s1 ++ [Created u (payload sc)])%list in
  match success options with
  | None => download url options sc s = (Returned (Some u), stage base false evs)
  | Some g =>
      let b1 := made_calls (calls (g u ct)) in
      let evs1 := (evs ++ [Success u ct] ++ stop_tail base b1)%list in
      match throws (g u ct) with
      | None =>
          download url options sc s =
            (Returned (if b1 then None else Some u), stage base b1 evs1)
      | Some e =>
          download url options sc s =
            (rethrown options CallbackThrew e,
             stage base (b1 || handler_calls options e)
               (evs1 ++ report_events options e
                     ++ stop_tail base (negb b1 && handler_calls options e)))
      end
  end.
Proof.
  intros Hn Ha. cbv zeta.
  assert (Hblob : {| blob_bytes := concat (sent sc); blob_type := content_type resp |}
                  = payload sc) by (unfold payload; by rewrite Hn).
  rewrite finish_eq in Ha. cbv zeta in Ha.
  rewrite Hblob, published_stage, fresh_url_stage in Ha.
  rewrite download_eq, Ha.
  destruct (success options) as [g|].
  - rewrite record_stage, after_calls_live.
    destruct (throws _).
    + rewrite download_catch_stage. rewrite <- !app_assoc. reflexivity.
    + rewrite this_stage. rewrite <- !app_assoc.
      destruct (made_calls _); reflexivity.
  - rewrite <- !app_assoc. reflexivity.
Qed.
(** ** Reading traces *)

Lemma filter_none (f g : Event -> bool) l :
  (∀ e, g e = true -> f e = false) ->
  forallb g l = true ->
  List.filter f l = [].
Proof.
  intros Hfg. induction l as [|e l IH]; simpl; [reflexivity|].
  intros [He Hl]%andb_prop. rewrite (Hfg e He). auto.
Qed.

Lemma loop_events_streaming rep L rl vs :
  forallb streaming (loop_events rep L rl vs) = true.
Proof.
  revert rl. induction vs as [|v vs IH]; intros rl; simpl; [reflexivity|].
  rewrite forallb_app, IH. by destruct rep.
Qed.

Lemma stop_events_lifecycle s : forallb lifecycle (stop_events s) = true.
Proof.
  unfold stop_events. by destruct (controller (this s)), (blobUrl (this s)).
Qed.

Lemma stop_tail_lifecycle s b : forallb lifecycle (stop_tail s b) = true.
Proof. destruct b; [apply stop_events_lifecycle|reflexivity]. Qed.

Lemma release_events_lifecycle s : forallb lifecycle (release_events s) = true.
Proof. unfold release_events. by destruct (blobUrl (this s)). Qed.

Lemma report_events_failed options e : forallb is_failed (report_events options e) = true.
Proof. unfold report_events. by destruct (failed options). Qed.

Lemma filter_all (f : Event -> bool) l : forallb f l = true -> List.filter f l = l.
Proof.
  induction l as [|e l IH]; simpl; [reflexivity|].
  intros [-> Hl]%andb_prop. by rewrite IH.
Qed.

Lemma stop_tail_aborted s c b :
  controller (this s) = Some c ->
  List.filter is_aborted (stop_tail s b) = if b then [Aborted c] else [].
Proof.
  intros Hc. destruct b; [|reflexivity]. unfold stop_tail, stop_events.
  rewrite Hc. by destruct (blobUrl (this s)).
Qed.

Lemma stop_tail_revoked s b :
  List.filter is_revoked (stop_tail s b) = if b then release_events s else [].
Proof.
  destruct b; [|reflexivity]. unfold stop_tail, stop_events, release_events.
  by destruct (controller (this s)), (blobUrl (this s)).
Qed.

Lemma reported_loop_events rep L rl vs :
  reported (loop_events rep L rl vs) =
    if rep then (λ r, percentage r L) <$> cumulative rl vs else [].
Proof.
  revert rl. induction vs as [|v vs IH]; intros rl; simpl.
  - by destruct rep.
  - unfold reported in *. destruct rep; simpl; rewrite IH; reflexivity.
Qed.

Lemma received_loop_events rep L rl vs : received (loop_events rep L rl vs) = vs.
Proof.
  revert rl. induction vs as [|v vs IH]; intros rl; simpl; [reflexivity|].
  unfold received in *. destruct rep; simpl; by rewrite IH.
Qed.

Lemma reported_none (g : Event -> bool) l :
  (∀ e, g e = true -> is_progress e = false) -> forallb g l = true -> reported l = [].
Proof.
  intros Hg. induction l as [|e l IH]; simpl; [reflexivity|].
  intros [He Hl]%andb_prop. unfold reported in *. simpl.
  specialize (Hg e He). destruct e; try discriminate; by apply IH.
Qed.

Lemma received_none (g : Event -> bool) l :
  (∀ e, g e = true -> streaming e = false) -> forallb g l = true -> received l = [].
Proof.
  intros Hg. induction l as [|e l IH]; simpl; [reflexivity|].
  intros [He Hl]%andb_prop. unfold received in *. simpl.
  specialize (Hg e He). destruct e; try discriminate; by apply IH.
Qed.

Lemma reported_app l k : reported (l ++ k) = (reported l ++ reported k)%list.
Proof. apply omap_app. Qed.

Lemma received_app l k : received (l ++ k) = (received l ++ received k)%list.
Proof. apply omap_app. Qed.

Lemma count_app f l k : count f (l ++ k) = (count f l + count f k)%nat.
Proof. unfold count. by rewrite List.filter_app, length_app. Qed.

Lemma in_filter_aborted c l : In (Aborted c) l <-> In (Aborted c) (List.filter is_aborted l).
Proof. rewrite filter_In. tauto. Qed.

Lemma events_since_based s base b evs :
  trace (platform base) = trace (platform s) ->
  events_since s (stage base b evs) = evs.
Proof. intros H. unfold events_since. rewrite trace_stage, H. apply drop_app_length. Qed.

Lemma download_cases url options sc s :
  let s1 := allocated s in
  let L := advertised sc in
  let rep := reporting options L in
  (∃ cause e b pre vs rest,
      attempt url options sc s =
        (Threw cause e, stage s1 b (pre ++ loop_events rep L 0 vs ++ stop_tail s1 b)) ∧
      download url options sc s =
        (rethrown options cause e,
         stage s1 (b || handler_calls options e)
           (pre ++ loop_events rep L 0 vs ++ stop_tail s1 b ++ report_events options e
                ++ stop_tail s1 (negb b && handler_calls options e))) ∧
      forallb opening pre = true ∧
      sent sc = (vs ++ rest)%list ∧
      early_failure options sc cause e b vs) ∨
  (∃ resp pre,
      network sc = Respond resp ∧ ok resp = true ∧
      forallb opening pre = true ∧
      attempt url options sc s =
        finish options (content_type resp) (total_length (sent sc)) (sent sc)
          (stage s1 false (pre ++ loop_events rep L 0 (sent sc)))).
Proof.
  cbv zeta. pose proof (attempt_shape url options sc s) as Hshape.
  destruct (attempt url options sc s) as [out s2] eqn:Ha. cbn [fst snd] in Hshape.
  destruct Hshape as [(cause & e & b & pre & vs & rest & -> & -> & Hpre & Hsent & Hearly)
                     |(resp & pre & Hn & Hok & Hpre & Hfin)].
  - left. exists cause, e, b, pre, vs, rest.
    split; [reflexivity|]. split; [|auto].
    rewrite download_eq, Ha, download_catch_stage. by rewrite <- !app_assoc.
  - right. exists resp, pre. auto.
Qed.

Lemma release_events_revoked s : forallb is_revoked (release_events s) = true.
Proof. unfold release_events. by destruct (blobUrl (this s)). Qed.

Ltac no_events :=
  first
    [ reflexivity
    | eapply (filter_none _ opening); [by intros []|eassumption]
    | eapply (filter_none _ streaming); [by intros []|apply loop_events_streaming]
    | eapply (filter_none _ lifecycle);
      [by intros []
      |first [apply stop_tail_lifecycle|apply release_events_lifecycle|apply stop_events_lifecycle]]
    | eapply (filter_none _ is_revoked); [by intros []|apply release_events_revoked]
    | eapply (filter_none _ is_failed); [by intros []|apply report_events_failed] ].

Ltac sift :=
  rewrite ?List.filter_app;
  repeat match goal with
         | |- context [List.filter ?f ?l] =>
             let H := fresh in
             assert (H : List.filter f l = []) by no_events;
             rewrite H; clear H
         end;
  cbn [app].

(** ** What the read loop reports *)

Lemma reported_filter l : reported (List.filter streaming l) = reported l.
Proof.
  unfold reported. induction l as [|e l IH]; simpl; [reflexivity|].
  destruct e; simpl; try exact IH; f_equal; exact IH.
Qed.

Lemma received_filter l : received (List.filter streaming l) = received l.
Proof.
  unfold received. induction l as [|e l IH]; simpl; [reflexivity|].
  destruct e; simpl; try exact IH; f_equal; exact IH.
Qed.

(** In every run, what the trace holds of chunks and percentages is the
    read loop over the chunks that were read, a prefix of those sent. *)
Lemma download_streaming url options sc s :
  ∃ vs rest,
    sent sc = (vs ++ rest)%list ∧
    List.filter streaming (events_since s (snd (download url options sc s))) =
      loop_events (reporting options (advertised sc)) (advertised sc) 0 vs.
Proof.
  destruct (download_cases url options sc s)
    as [(cause & e & b & pre & vs & rest & _ & -> & Hpre & Hsent & _)
       |(resp & pre & Hn & _ & Hpre & Ha)]; cbn [snd].
  - exists vs, rest. split; [done|].
    rewrite events_since_stage. sift.
    rewrite (filter_all _ _ (loop_events_streaming _ _ _ _)). by rewrite ?app_nil_r.
  - pose proof (download_completed url options sc s resp pre Hn Ha) as Hd.
    cbv zeta in Hd. exists (sent sc), []. split; [by rewrite app_nil_r|].
    destruct (success options) as [g|]; [destruct (throws _) as [e|]|];
      rewrite Hd; cbn [snd]; rewrite events_since_based by reflexivity; sift;
      rewrite (filter_all _ _ (loop_events_streaming _ _ _ _)); by rewrite ?app_nil_r.
Qed.

Lemma download_reported url options sc s :
  ∃ vs rest,
    sent sc = (vs ++ rest)%list ∧
    received (events_since s (snd (download url options sc s))) = vs ∧
    reported (events_since s (snd (download url options sc s))) =
      if reporting options (advertised sc)
      then (λ r, percentage r (advertised sc)) <$> cumulative 0 vs
      else [].
Proof.
  destruct (download_streaming url options sc s) as (vs & rest & Hsent & Hev).
  exists vs, rest. split; [done|].
  rewrite <- received_filter, <- reported_filter, Hev.
  by rewrite received_loop_events, reported_loop_events.
Qed.

(** ** A [Content-Length] that coerces to a falsy number *)

Lemma fetch_eq url hdrs signal sc s :
  fetch url hdrs signal sc s =
    if aborted (platform s) signal then (Threw Cancelled AbortError, s)
    else
      let s' := after_calls (during_fetch sc) (record [Requested url hdrs signal] s) in
      if aborted (platform s') signal then (Threw Cancelled AbortError, s')
      else match network sc with
           | NetworkError m => (Threw NetworkFailure (TypeError m), s')
           | Respond r => (Returned r, s')
           end.
Proof.
  unfold fetch, unless_aborted. destruct (aborted (platform s) signal); [reflexivity|].
  rewrite bind_eq, emit_eq, settle_eq. cbv zeta.
  destruct (aborted _ signal); [reflexivity|]. by destruct (network sc).
Qed.

Lemma read_loop_falsy options c L1 L2 body :
  truthy L1 = false -> truthy L2 = false ->
  ∀ rl chs s,
    read_loop options c L1 body rl chs s = read_loop options c L2 body rl chs s.
Proof.
  intros H1 H2. induction body as [inter v rest IH|inter|inter msg]; intros rl chs s;
    cbn [read_loop]; rewrite !settle_eq; [|reflexivity..].
  destruct (aborted _ c); [reflexivity|].
  rewrite !bind_eq, emit_eq, !bind_eq, H1, H2. cbn [mret M_ret]. apply IH.
Qed.

Lemma download_falsy url options d st ct b cl1 cl2 s :
  truthy (ToNumber cl1) = false -> truthy (ToNumber cl2) = false ->
  download url options
    {| during_fetch := d;
       network := Respond {| status := st; content_type := ct;
                             content_length := cl1; body := b |} |} s =
  download url options
    {| during_fetch := d;
       network := Respond {| status := st; content_type := ct;
                             content_length := cl2; body := b |} |} s.
Proof.
  intros H1 H2. rewrite !download_eq, !attempt_eq. unfold download_try.
  rewrite !bind_eq.
  destruct (match started options with Some f => invoke Started f | None => mret () end
              (allocated s)) as [[[]|cause e] s2]; [|reflexivity].
  rewrite !bind_eq, !fetch_eq. cbn [during_fetch network].
  destruct (aborted (platform s2) (token s)); [reflexivity|]. cbv zeta.
  destruct (aborted _ (token s)); [reflexivity|].
  unfold ok. cbn [status content_type content_length body].
  destruct (negb _); [reflexivity|].
  destruct (null_body_status st); [reflexivity|].
  rewrite !bind_eq. by rewrite (read_loop_falsy options (token s) _ _ b H1 H2).
Qed.

(** ** Cumulative byte counts *)

Lemma cumulative_lookup_ge vs :
  ∀ from i x, cumulative from vs !! i = Some x -> from <= x.
Proof.
  induction vs as [|v vs IH]; intros from i x; [done|].
  destruct i as [|i]; simpl.
  - intros [= <-]. lia.
  - intros H%IH. lia.
Qed.

Lemma cumulative_lookup_le vs :
  ∀ from i j x y,
    (i <= j)%nat ->
    cumulative from vs !! i = Some x -> cumulative from vs !! j = Some y -> x <= y.
Proof.
  induction vs as [|v vs IH]; intros from i j x y Hij; [done|].
  destruct i as [|i], j as [|j]; simpl; try lia.
  - intros [= <-] [= <-]. lia.
  - intros [= <-] H%cumulative_lookup_ge. lia.
  - apply IH. lia.
Qed.

Lemma cumulative_app vs ws :
  ∀ from, cumulative from (vs ++ ws) =
          (cumulative from vs ++ cumulative (from + total_length vs) ws)%list.
Proof.
  induction vs as [|v vs IH]; intros from; simpl.
  - unfold total_length; simpl. by rewrite Z.add_0_r.
  - rewrite IH, total_length_cons. do 3 f_equal. lia.
Qed.

Lemma cumulative_lookup_total vs :
  ∀ from i x, cumulative from vs !! i = Some x -> x <= from + total_length vs.
Proof.
  induction vs as [|v vs IH]; intros from i x; [done|].
  rewrite total_length_cons. destruct i as [|i]; simpl.
  - intros [= <-]. unfold total_length. lia.
  - intros H%IH. lia.
Qed.

Lemma total_length_app vs ws :
  total_length (vs ++ ws) = total_length vs + total_length ws.
Proof. unfold total_length. rewrite concat_app, length_app. lia. Qed.

Lemma total_length_nonneg vs : 0 <= total_length vs.
Proof. unfold total_length. lia. Qed.

(** * Binary64 arithmetic *)

(** ** Powers of two *)

Lemma bpow_pos e : (0 < bpow e)%R.
Proof. apply powerRZ_lt. lra. Qed.

Lemma bpow_add a b : bpow (a + b) = (bpow a * bpow b)%R.
Proof. apply powerRZ_add. lra. Qed.

Lemma bpow_0 : bpow 0 = 1%R.
Proof. reflexivity. Qed.

Lemma bpow_1 : bpow 1 = 2%R.
Proof. unfold bpow. simpl. lra. Qed.

Lemma bpow_succ e : bpow (e + 1) = (2 * bpow e)%R.
Proof. rewrite bpow_add, bpow_1. lra. Qed.

Lemma bpow_opp e : (bpow e * bpow (- e) = 1)%R.
Proof. rewrite <- bpow_add. replace (e + - e) with 0 by lia. apply bpow_0. Qed.

Lemma bpow_IZR n : 0 <= n -> bpow n = IZR (2 ^ n).
Proof.
  intros Hn. pattern n. apply natlike_ind; [reflexivity| |exact Hn].
  intros k Hk IH. unfold Z.succ. rewrite bpow_succ, IH, Z.pow_add_r by lia.
  rewrite mult_IZR. simpl (2 ^ 1). lra.
Qed.

Lemma bpow_ge_1 n : 0 <= n -> (1 <= bpow n)%R.
Proof.
  intros Hn. rewrite bpow_IZR by exact Hn. apply IZR_le.
  pose proof (Z.pow_pos_nonneg 2 n eq_refl Hn). lia.
Qed.

Lemma bpow_le a b : a <= b -> (bpow a <= bpow b)%R.
Proof.
  intros Hab. replace b with (a + (b - a)) by lia. rewrite bpow_add.
  pose proof (bpow_pos a). pose proof (bpow_ge_1 (b - a) ltac:(lia)). nra.
Qed.

Lemma bpow_lt a b : a < b -> (bpow a < bpow b)%R.
Proof.
  intros Hab. replace b with (a + 1 + (b - a - 1)) by lia. rewrite bpow_add, bpow_succ.
  pose proof (bpow_pos a). pose proof (bpow_ge_1 (b - a - 1) ltac:(lia)). nra.
Qed.

Lemma bpow_lt_inv a b : (bpow a < bpow b)%R -> a < b.
Proof.
  intros H. destruct (Z_lt_le_dec a b) as [|Hle]; [assumption|].
  apply bpow_le in Hle. lra.
Qed.

(** ** Counting binary digits *)

Lemma digits2_size p : digits2_pos p = Pos.size p.
Proof. induction p; simpl; congruence. Qed.

Lemma digits2_bounds p :
  2 ^ (Zpos (digits2_pos p) - 1) <= Zpos p < 2 ^ Zpos (digits2_pos p).
Proof.
  rewrite digits2_size. split.
  - pose proof (Pos.size_le p) as H. apply Pos2Z.pos_le_pos in H.
    rewrite Pos2Z.inj_pow in H. change (Zpos p~0) with (2 * Zpos p) in H.
    replace (Zpos (Pos.size p)) with (Zpos (Pos.size p) - 1 + 1) in H by lia.
    rewrite Z.pow_add_r, Z.pow_1_r in H by lia.
    revert H. generalize (2 ^ (Z.pos (Pos.size p) - 1)). intros; lia.
  - pose proof (Pos.size_gt p) as H. apply Pos2Z.pos_lt_pos in H.
    rewrite Pos2Z.inj_pow in H. exact H.
Qed.

Lemma digits2_unique p d :
  2 ^ (d - 1) <= Zpos p < 2 ^ d -> Zpos (digits2_pos p) = d.
Proof.
  intros [Hlo Hhi]. pose proof (digits2_bounds p) as [Hlo' Hhi'].
  assert (Hd : 0 < d).
  { destruct (Z_lt_le_dec 0 d); [assumption|].
    exfalso. assert (2 ^ d <= 1).
    { destruct (Z.eq_dec d 0) as [->|]; [simpl; lia|rewrite Z.pow_neg_r by lia; lia]. }
    lia. }
  destruct (Z.lt_trichotomy (Zpos (digits2_pos p)) d) as [H|[H|H]]; [|assumption|].
  - assert (2 ^ Zpos (digits2_pos p) <= 2 ^ (d - 1)) by (apply Z.pow_le_mono_r; lia). lia.
  - assert (2 ^ d <= 2 ^ (Zpos (digits2_pos p) - 1)) by (apply Z.pow_le_mono_r; lia). lia.
Qed.
(** ** Shifting right with round and sticky bits *)

Lemma located_interval rs y :
  located rs y -> (IZR (shr_m rs) <= y < IZR (shr_m rs) + 1)%R.
Proof.
  unfold located. destruct (shr_r rs), (shr_s rs); intros H; lra.
Qed.

Lemma shr_1_located rs y :
  0 <= shr_m rs -> located rs y ->
  0 <= shr_m (shr_1 rs) ∧ located (shr_1 rs) (y * bpow (-1)).
Proof.
  assert (Hhalf : bpow (-1) = (/ 2)%R) by (unfold bpow; simpl; lra).
  rewrite Hhalf. destruct rs as [m r s]. unfold located; simpl. intros Hm Hloc.
  destruct m as [|[p|p|]|p]; try lia; simpl; (split; [lia|]).
  - (* 0 *) destruct r, s; simpl; lra.
  - (* 2p + 1 *)
    replace (IZR (Z.pos p~1)) with (2 * IZR (Z.pos p) + 1)%R in Hloc
      by (change (Z.pos p~1) with (2 * Z.pos p + 1); rewrite plus_IZR, mult_IZR; lra).
    destruct r, s; simpl; lra.
  - (* 2p *)
    replace (IZR (Z.pos p~0)) with (2 * IZR (Z.pos p))%R in Hloc
      by (change (Z.pos p~0) with (2 * Z.pos p); rewrite mult_IZR; lra).
    destruct r, s; simpl; lra.
  - (* 1 *) destruct r, s; simpl; lra.
Qed.

Lemma iter_shr_1_located n :
  ∀ rs y,
    0 <= shr_m rs -> located rs y ->
    0 <= shr_m (SpecFloat.iter_pos shr_1 n rs) ∧
    located (SpecFloat.iter_pos shr_1 n rs) (y * bpow (- Zpos n)).
Proof.
  induction n as [n IH|n IH|]; intros rs y Hm Hloc; cbn [SpecFloat.iter_pos].
  - destruct (shr_1_located rs y Hm Hloc) as [Hm1 Hl1].
    destruct (IH _ _ Hm1 Hl1) as [Hm2 Hl2].
    destruct (IH _ _ Hm2 Hl2) as [Hm3 Hl3].
    split; [exact Hm3|].
    replace (y * bpow (- Z.pos n~1))%R
      with (y * bpow (-1) * bpow (- Z.pos n) * bpow (- Z.pos n))%R; [exact Hl3|].
    rewrite !Rmult_assoc, <- !bpow_add. do 2 f_equal. lia.
  - destruct (IH _ _ Hm Hloc) as [Hm2 Hl2].
    destruct (IH _ _ Hm2 Hl2) as [Hm3 Hl3].
    split; [exact Hm3|].
    replace (y * bpow (- Z.pos n~0))%R
      with (y * bpow (- Z.pos n) * bpow (- Z.pos n))%R; [exact Hl3|].
    rewrite !Rmult_assoc, <- !bpow_add. do 2 f_equal. lia.
  - apply shr_1_located; assumption.
Qed.

(** [shr] by [n >= 0] places keeps the real [y * 2^e] in place. *)
Lemma shr_located rs e n y :
  0 <= n -> 0 <= shr_m rs -> located rs y ->
  let '(rs', e') := shr rs e n in
  e' = e + n ∧ 0 <= shr_m rs' ∧ located rs' (y * bpow (- n)).
Proof.
  intros Hn Hm Hloc. destruct n as [|p|p]; cbn [shr]; try lia.
  - change (bpow (- 0)) with 1%R. rewrite Rmult_1_r. repeat split; [lia|assumption..].
  - destruct (iter_shr_1_located p rs y Hm Hloc). auto.
Qed.

(** ** Rounding to nearest, ties to even *)

Lemma round_nearest_even_located rs y :
  located rs y ->
  let M := round_nearest_even (shr_m rs) (loc_of_shr_record rs) in
  nearest_even y M ∧ shr_m rs <= M <= shr_m rs + 1.
Proof.
  destruct rs as [m r s]. unfold located, nearest_even; simpl. intros Hloc.
  destruct r, s; simpl.
  - rewrite plus_IZR. split; [|lia]. split.
    + apply Rabs_le. lra.
    + intros H. exfalso. rewrite Rabs_left in H by lra. lra.
  - destruct (Z.even m) eqn:Hev.
    + split; [|lia]. split; [apply Rabs_le; lra|auto].
    + split; [|lia]. rewrite plus_IZR. split; [apply Rabs_le; lra|].
      intros _. rewrite Z.even_add, Hev. reflexivity.
  - split; [|lia]. split.
    + apply Rabs_le. lra.
    + intros H. exfalso. rewrite Rabs_right in H by lra. lra.
  - split; [|lia]. subst y. split.
    + apply Rabs_le. lra.
    + intros H. exfalso. replace (IZR m - IZR m)%R with 0%R in H by lra.
      rewrite Rabs_R0 in H. lra.
Qed.

Lemma Rabs_le_bounds a b : (Rabs a <= b)%R -> (- b <= a <= b)%R.
Proof. unfold Rabs. destruct (Rcase_abs a); lra. Qed.

Lemma nearest_even_mono y1 y2 M1 M2 :
  nearest_even y1 M1 -> nearest_even y2 M2 -> (y1 <= y2)%R -> M1 <= M2.
Proof.
  intros [H1 T1] [H2 T2] Hy.
  destruct (Z_le_gt_dec M1 M2) as [|Hgt]; [assumption|exfalso].
  assert (HM : (IZR M2 + 1 <= IZR M1)%R) by (rewrite <- plus_IZR; apply IZR_le; lia).
  apply Rabs_le_bounds in H1, H2.
  assert (E1 : (y1 - IZR M1 = - / 2)%R) by lra.
  assert (E2 : (y2 - IZR M2 = / 2)%R) by lra.
  assert (EM : M1 = M2 + 1) by (apply eq_IZR; rewrite plus_IZR; lra).
  assert (Ev1 : Z.even M1 = true).
  { apply T1. rewrite E1, Rabs_Ropp. apply Rabs_right. lra. }
  assert (Ev2 : Z.even M2 = true).
  { apply T2. rewrite E2. apply Rabs_right. lra. }
  rewrite EM, Z.even_add, Ev2 in Ev1. discriminate.
Qed.
(** ** [binary_round_aux] rounds to nearest even *)

Lemma shr_m_of_loc m l : shr_m (shr_record_of_loc m l) = m.
Proof. by destruct l as [|[]]. Qed.

Lemma fexp_normal k : -1074 <= k - 53 -> fexp 53 1024 k = k - 53.
Proof. unfold fexp, emin. lia. Qed.

Lemma IZR_pow2 n : 0 <= n -> IZR (2 ^ n) = bpow n.
Proof. intros. by rewrite bpow_IZR. Qed.

Lemma binary_round_aux_rounds mx ex lx y :
  0 < mx ->
  located (shr_record_of_loc mx lx) y ->
  53 <= Zdigits2 mx ->
  -1074 <= Zdigits2 mx + ex - 53 <= 970 ->
  rounds_to (y * bpow ex) (binary_round_aux 53 1024 false mx ex lx).
Proof.
  intros Hmx Hloc Hd Hrange.
  destruct mx as [|p|p]; try lia. cbn [Zdigits2] in *.
  set (d := Zpos (digits2_pos p)) in *.
  set (c := d + ex - 53) in *.
  (* the magnitude of [y] *)
  pose proof (located_interval _ _ Hloc) as Hy. rewrite shr_m_of_loc in Hy.
  pose proof (digits2_bounds p) as [Hlo Hhi]. fold d in Hlo, Hhi.
  assert (Hylo : (bpow (d - 1) <= y)%R).
  { rewrite <- IZR_pow2 by lia. apply IZR_le in Hlo. lra. }
  assert (Hyhi : (y < bpow d)%R).
  { rewrite <- IZR_pow2 by lia.
    assert (Zpos p + 1 <= 2 ^ d) by lia. apply IZR_le in H. rewrite plus_IZR in H. lra. }
  (* first shift *)
  unfold binary_round_aux, shr_fexp. cbn [Zdigits2]. fold d.
  rewrite fexp_normal by (fold c; lia).
  replace (d + ex - 53 - ex) with (d - 53) by lia.
  pose proof (shr_located (shr_record_of_loc (Zpos p) lx) ex (d - 53) y) as Hshr.
  rewrite shr_m_of_loc in Hshr. specialize (Hshr ltac:(lia) ltac:(lia) Hloc).
  destruct (shr (shr_record_of_loc (Z.pos p) lx) ex (d - 53)) as [rs1 e1].
  destruct Hshr as (He1 & Hm1 & Hl1).
  subst e1. replace (ex + (d - 53)) with c by (unfold c; clear; lia).
  set (y1 := (y * bpow (- (d - 53)))%R) in *.
  assert (Hy1lo : (bpow 52 <= y1)%R).
  { unfold y1. replace 52 with ((d - 1) + - (d - 53)) by lia. rewrite bpow_add.
    pose proof (bpow_pos (- (d - 53))). nra. }
  assert (Hy1hi : (y1 < bpow 53)%R).
  { assert (E : bpow 53 = (bpow d * bpow (- (d - 53)))%R)
      by (rewrite <- bpow_add; f_equal; lia).
    rewrite E. unfold y1. pose proof (bpow_pos (- (d - 53))). nra. }
  assert (Hx : (y * bpow ex = y1 * bpow c)%R).
  { unfold y1. rewrite Rmult_assoc, <- bpow_add. do 2 f_equal. unfold c. lia. }
  pose proof (located_interval _ _ Hl1) as Hi1.
  (* rounding *)
  destruct (round_nearest_even_located _ _ Hl1) as [Hne HM].
  set (M := round_nearest_even (shr_m rs1) (loc_of_shr_record rs1)) in *.
  assert (HMlo : 2 ^ 52 <= M).
  { assert (2 ^ 52 < shr_m rs1 + 1); [|lia].
    apply lt_IZR. rewrite plus_IZR, IZR_pow2 by lia. lra. }
  assert (HMhi : M <= 2 ^ 53).
  { assert (shr_m rs1 < 2 ^ 53); [|lia].
    apply lt_IZR. rewrite IZR_pow2 by lia. lra. }
  assert (Hxlo : (bpow (c + 52) <= y * bpow ex)%R).
  { rewrite Hx, Z.add_comm, bpow_add. pose proof (bpow_pos c). nra. }
  assert (Hxhi : (y * bpow ex < bpow (c + 53))%R).
  { rewrite Hx, Z.add_comm, bpow_add. pose proof (bpow_pos c). nra. }
  assert (Hsc : (y * bpow ex * bpow (- c) = y1)%R).
  { rewrite Hx, Rmult_assoc, bpow_opp. lra. }
  (* second shift *)
  destruct (Z.eq_dec M (2 ^ 53)) as [HM53|HM53].
  - rewrite HM53.
    replace (fexp 53 1024 (Zdigits2 (2 ^ 53) + c) - c) with 1
      by (change (Zdigits2 (2 ^ 53)) with 54; rewrite fexp_normal; lia).
    change (2 ^ 53) with 9007199254740992.
    cbn [shr SpecFloat.iter_pos shr_1 shr_record_of_loc shr_m].
    replace (c + 1 <=? 1024 - 53)%Z with true by (symmetry; apply Z.leb_le; lia).
    exists 4503599627370496%positive, (c + 1), c, M.
    split; [reflexivity|]. split; [reflexivity|]. split; [lia|]. split; [lia|].
    split; [lra|]. split.
    + unfold F2R. rewrite HM53, bpow_succ.
      change (2 ^ 53) with (2 * 4503599627370496). rewrite mult_IZR. lra.
    + by rewrite Hsc.
  - destruct M as [|q|q] eqn:HMq; try lia.
    assert (Hdq : Zpos (digits2_pos q) = 53) by (apply digits2_unique; lia).
    cbn [Zdigits2]. rewrite Hdq, fexp_normal by lia.
    replace (53 + c - 53 - c) with 0 by lia. cbn [shr shr_record_of_loc shr_m].
    replace (c <=? 1024 - 53)%Z with true by (symmetry; apply Z.leb_le; lia).
    exists q, c, c, (Zpos q).
    split; [reflexivity|]. split; [exact Hdq|]. split; [lia|]. split; [lia|].
    split; [lra|]. split; [reflexivity|]. by rewrite Hsc.
Qed.
(** ** Rounding is monotone *)

Lemma rounds_to_mantissa x c M :
  (bpow (c + 52) <= x < bpow (c + 53))%R ->
  nearest_even (x * bpow (- c)) M ->
  2 ^ 52 <= M <= 2 ^ 53.
Proof.
  intros [Hlo Hhi] [Hn _]. apply Rabs_le_bounds in Hn.
  pose proof (bpow_pos (- c)) as Hp.
  assert (H52 : (bpow 52 <= x * bpow (- c))%R).
  { replace 52 with (c + 52 + - c) by lia. rewrite bpow_add. nra. }
  assert (H53 : (x * bpow (- c) < bpow 53)%R).
  { replace 53 with (c + 53 + - c) at 1 by lia. rewrite bpow_add. nra. }
  rewrite <- (IZR_pow2 52) in H52 by lia. rewrite <- (IZR_pow2 53) in H53 by lia.
  split.
  - assert (2 ^ 52 - 1 < M); [|lia]. apply lt_IZR. rewrite minus_IZR. lra.
  - assert (M < 2 ^ 53 + 1); [|lia]. apply lt_IZR. rewrite plus_IZR. lra.
Qed.

Lemma rounds_to_mono x y f g :
  rounds_to x f -> rounds_to y g -> (x <= y)%R -> (B2R f <= B2R g)%R.
Proof.
  intros (m1 & e1 & c1 & M1 & -> & _ & _ & _ & X1 & V1 & N1)
         (m2 & e2 & c2 & M2 & -> & _ & _ & _ & X2 & V2 & N2) Hxy.
  simpl. rewrite V1, V2. unfold F2R.
  pose proof (rounds_to_mantissa _ _ _ X1 N1) as [_ HM1].
  pose proof (rounds_to_mantissa _ _ _ X2 N2) as [HM2 _].
  assert (Hc : c1 <= c2).
  { assert (c1 + 52 < c2 + 53); [|lia]. apply bpow_lt_inv. lra. }
  destruct (Z.eq_dec c1 c2) as [->|Hne].
  - pose proof (bpow_pos c2). pose proof (bpow_pos (- c2)).
    assert (HM : M1 <= M2).
    { apply (nearest_even_mono _ _ _ _ N1 N2). nra. }
    apply IZR_le in HM. nra.
  - apply IZR_le in HM1, HM2. rewrite (IZR_pow2 53) in HM1 by lia.
    rewrite (IZR_pow2 52) in HM2 by lia.
    pose proof (bpow_pos c1). pose proof (bpow_pos c2).
    assert (H12 : (bpow (c1 + 53) <= bpow (c2 + 52))%R) by (apply bpow_le; lia).
    rewrite (Z.add_comm c1), (Z.add_comm c2), !bpow_add in H12. nra.
Qed.

Lemma rounds_to_unique x f g : rounds_to x f -> rounds_to x g -> B2R f = B2R g.
Proof.
  intros Hf Hg. apply Rle_antisym; eapply rounds_to_mono; eauto; lra.
Qed.

Lemma canonical_bounds m e :
  Zpos (digits2_pos m) = 53 ->
  (bpow (e + 52) <= F2R (Zpos m) e < bpow (e + 53))%R.
Proof.
  intros Hd. pose proof (digits2_bounds m) as [Hlo Hhi]. rewrite Hd in Hlo, Hhi.
  apply IZR_le in Hlo. apply IZR_lt in Hhi. change (53 - 1) with 52 in Hlo.
  rewrite (IZR_pow2 52) in Hlo by lia. rewrite (IZR_pow2 53) in Hhi by lia.
  unfold F2R. rewrite !(Z.add_comm e), !bpow_add. pose proof (bpow_pos e). nra.
Qed.

Lemma rounds_to_self f : canonical f -> rounds_to (B2R f) f.
Proof.
  intros (m & e & -> & Hd & He). exists m, e, e, (Zpos m). simpl.
  split; [reflexivity|]. split; [exact Hd|]. split; [lia|]. split; [exact He|].
  split; [by apply canonical_bounds|]. split; [reflexivity|].
  unfold F2R, nearest_even. rewrite Rmult_assoc, bpow_opp, Rmult_1_r.
  replace (IZR (Z.pos m) - IZR (Z.pos m))%R with 0%R by lra.
  rewrite Rabs_R0. split; lra.
Qed.

Lemma rounds_to_canonical x f : rounds_to x f -> canonical f.
Proof. intros (m & e & c & M & -> & Hd & _ & He & _). by exists m, e. Qed.
(** ** Multiplication and division *)

Lemma digits2_ge p k : 2 ^ k <= Zpos p -> k < Zpos (digits2_pos p).
Proof.
  intros Hk. pose proof (digits2_bounds p) as [_ Hhi].
  destruct (Z_lt_le_dec k (Zpos (digits2_pos p))) as [|Hle]; [assumption|exfalso].
  assert (2 ^ Zpos (digits2_pos p) <= 2 ^ k) by (apply Z.pow_le_mono_r; lia). lia.
Qed.

Lemma digits2_le p k : 0 <= k -> Zpos p < 2 ^ k -> Zpos (digits2_pos p) <= k.
Proof.
  intros Hk0 Hk. pose proof (digits2_bounds p) as [Hlo _].
  destruct (Z_le_gt_dec (Zpos (digits2_pos p)) k) as [|Hgt]; [assumption|exfalso].
  assert (2 ^ k <= 2 ^ (Zpos (digits2_pos p) - 1)) by (apply Z.pow_le_mono_r; lia). lia.
Qed.

Lemma mul_rounds m1 e1 m2 e2 :
  Zpos (digits2_pos m1) = 53 ->
  Zpos (digits2_pos m2) = 53 ->
  -1126 <= e1 + e2 <= 917 ->
  rounds_to (F2R (Zpos m1) e1 * F2R (Zpos m2) e2)
    (mul (S754_finite false m1 e1) (S754_finite false m2 e2)).
Proof.
  intros H1 H2 He. unfold mul, SFmul. cbn [xorb].
  pose proof (digits2_bounds m1) as [L1 U1]. pose proof (digits2_bounds m2) as [L2 U2].
  rewrite H1 in L1, U1. rewrite H2 in L2, U2. change (53 - 1) with 52 in *.
  change (2 ^ 52) with 4503599627370496 in *.
  change (2 ^ 53) with 9007199254740992 in *.
  assert (Hlo : 2 ^ 104 <= Zpos (m1 * m2)).
  { rewrite Pos2Z.inj_mul. change (2 ^ 104) with (4503599627370496 * 4503599627370496). nia. }
  assert (Hhi : Zpos (m1 * m2) < 2 ^ 106).
  { rewrite Pos2Z.inj_mul. change (2 ^ 106) with (9007199254740992 * 9007199254740992). nia. }
  apply digits2_ge in Hlo. apply digits2_le in Hhi; [|lia].
  replace (F2R (Z.pos m1) e1 * F2R (Z.pos m2) e2)%R
    with (IZR (Zpos (m1 * m2)) * bpow (e1 + e2))%R
    by (unfold F2R; rewrite Pos2Z.inj_mul, mult_IZR, bpow_add; lra).
  apply binary_round_aux_rounds; cbn [Zdigits2]; try lia.
  reflexivity.
Qed.

Lemma new_location_located q m2 r :
  0 < m2 -> 0 <= r < m2 ->
  located (shr_record_of_loc q (new_location m2 r)) (IZR q + IZR r / IZR m2).
Proof.
  intros Hm2 Hr.
  assert (Hm2R : (0 < IZR m2)%R) by (apply IZR_lt; lia).
  set (t := (IZR r / IZR m2)%R).
  assert (Ht : (t * IZR m2 = IZR r)%R) by (unfold t; field; lra).
  assert (H2r : IZR (2 * r) = (2 * IZR r)%R) by (rewrite mult_IZR; lra).
  assert (Hr1 : (IZR r < IZR m2)%R) by (apply IZR_lt; lia).
  assert (Hr0 : (0 <= IZR r)%R) by (apply IZR_le; lia).
  unfold new_location, new_location_even, new_location_odd.
  destruct (Z.eq_dec r 0) as [->|Hr0'].
  { assert (t = 0%R) by (unfold t; field; lra).
    destruct (Z.even m2); unfold located; simpl; lra. }
  assert (Hrz : (r =? 0)%Z = false) by (apply Z.eqb_neq; exact Hr0').
  assert (Hrpos : (0 < IZR r)%R) by (apply IZR_lt; lia).
  assert (Htpos : (0 < t)%R) by (unfold t; apply Rdiv_lt_0_compat; lra).
  clearbody t.
  assert (Htlt : (t < 1)%R) by nra.
  destruct (Z.even m2) eqn:Hev; rewrite Hrz.
  - destruct (Z.compare_spec (2 * r) m2) as [He|Hl|Hg]; unfold located; simpl.
    + apply (f_equal IZR) in He. rewrite H2r in He.
      assert (t = (/ 2)%R) by (apply Rmult_eq_reg_r with (IZR m2); lra). lra.
    + apply IZR_lt in Hl. rewrite H2r in Hl. nra.
    + apply IZR_lt in Hg. rewrite H2r in Hg. nra.
  - assert (Hodd : 2 * r ≠ m2).
    { intros <-. rewrite Z.even_mul in Hev. discriminate. }
    destruct (Z.compare_spec (2 * r + 1) m2) as [He|Hl|Hg]; unfold located; simpl.
    + assert (Hl : 2 * r < m2) by lia. apply IZR_lt in Hl. rewrite H2r in Hl. nra.
    + assert (Hl' : 2 * r < m2) by lia. apply IZR_lt in Hl'. rewrite H2r in Hl'. nra.
    + assert (Hg' : m2 < 2 * r) by lia. apply IZR_lt in Hg'. rewrite H2r in Hg'. nra.
Qed.

Lemma div_rounds m1 e1 m2 e2 :
  Zpos (digits2_pos m1) = 53 ->
  Zpos (digits2_pos m2) = 53 ->
  -1021 <= e1 - e2 <= 1022 ->
  rounds_to (F2R (Zpos m1) e1 / F2R (Zpos m2) e2)
    (div (S754_finite false m1 e1) (S754_finite false m2 e2)).
Proof.
  intros H1 H2 He. unfold div, SFdiv, SFdiv_core_binary. cbn [xorb Zdigits2].
  rewrite H1, H2.
  pose proof (digits2_bounds m1) as [L1 U1]. pose proof (digits2_bounds m2) as [L2 U2].
  rewrite H1 in L1, U1. rewrite H2 in L2, U2. change (53 - 1) with 52 in *.
  change (2 ^ 52) with 4503599627370496 in *.
  change (2 ^ 53) with 9007199254740992 in *.
  rewrite fexp_normal by lia.
  replace (Z.min (53 + e1 - (53 + e2) - 53) (e1 - e2)) with (e1 - e2 - 53) by lia.
  replace (e1 - e2 - (e1 - e2 - 53)) with 53 by lia.
  rewrite Z.shiftl_mul_pow2 by lia. change (2 ^ 53) with 9007199254740992.
  pose proof (Z_div_mod (Zpos m1 * 9007199254740992) (Zpos m2) ltac:(lia)) as Hdm.
  destruct (Z.div_eucl (Zpos m1 * 9007199254740992) (Zpos m2)) as [q r].
  destruct Hdm as [Hq Hr].
  assert (Hqlo : 4503599627370496 <= q) by nia.
  assert (Hqhi : q < 18014398509481984) by nia.
  destruct q as [|q|q]; try lia.
  assert (Hd1 : 52 < Zpos (digits2_pos q)) by (apply digits2_ge; exact Hqlo).
  assert (Hd2 : Zpos (digits2_pos q) <= 54) by (apply digits2_le; [lia|exact Hqhi]).
  replace (F2R (Z.pos m1) e1 / F2R (Z.pos m2) e2)%R
    with ((IZR (Zpos q) + IZR r / IZR (Zpos m2)) * bpow (e1 - e2 - 53))%R.
  - apply binary_round_aux_rounds; cbn [Zdigits2]; try lia.
    apply new_location_located; lia.
  - unfold F2R.
    assert (Hm2R : (0 < IZR (Zpos m2))%R) by (apply IZR_lt; lia).
    pose proof (bpow_pos e2) as Hb2. pose proof (bpow_pos 53) as Hb53.
    replace (e1 - e2 - 53) with (e1 + (- e2 + - (53))) by lia. rewrite !bpow_add.
    pose proof (bpow_opp e2) as Ho2. pose proof (bpow_opp 53) as Ho53.
    apply (f_equal IZR) in Hq. rewrite plus_IZR, !mult_IZR in Hq.
    change (IZR 9007199254740992) with (IZR (2 ^ 53)) in Hq.
    rewrite (IZR_pow2 53) in Hq by lia.
    set (i2 := bpow (- e2)) in *. set (i53 := bpow (- (53))) in *.
    assert (Ei2 : i2 = (/ bpow e2)%R) by (apply Rmult_eq_reg_l with (bpow e2); [rewrite Ho2; field|]; lra).
    assert (Ei53 : i53 = (/ bpow 53)%R) by (apply Rmult_eq_reg_l with (bpow 53); [rewrite Ho53; field|]; lra).
    rewrite Ei2, Ei53.
    assert (Hr' : IZR r = (IZR (Z.pos m1) * bpow 53 - IZR (Z.pos m2) * IZR (Z.pos q))%R) by lra.
    rewrite Hr'. field. lra.
Qed.
(** ** Integers as binary64 numbers *)

Lemma binary_round_aux_canonical m e :
  Zpos (digits2_pos m) = 53 -> -1074 <= e <= 971 ->
  binary_round_aux 53 1024 false (Zpos m) e loc_Exact = S754_finite false m e.
Proof.
  intros Hd He. unfold binary_round_aux, shr_fexp.
  cbn [Zdigits2 shr_record_of_loc]. rewrite Hd, fexp_normal by lia.
  replace (53 + e - 53 - e) with 0 by lia.
  cbn [shr shr_m round_nearest_even loc_of_shr_record shr_r shr_s shr_record_of_loc Zdigits2].
  rewrite Hd, fexp_normal by lia. replace (53 + e - 53 - e) with 0 by lia.
  cbn [shr shr_m].
  replace (e <=? 1024 - 53)%Z with true by (symmetry; apply Z.leb_le; lia).
  reflexivity.
Qed.

Lemma iter_xO p k : Zpos (Pos.iter xO p k) = Zpos p * 2 ^ Zpos k.
Proof.
  induction k as [|k IH] using Pos.peano_ind.
  - simpl. lia.
  - rewrite Pos.iter_succ, Pos2Z.inj_xO, IH, Pos2Z.inj_succ, Z.pow_succ_r by lia. lia.
Qed.

Lemma of_Z_canonical z :
  0 < z < 2 ^ 53 ->
  ∃ m e,
    of_Z z = S754_finite false m e ∧ Zpos (digits2_pos m) = 53 ∧
    -52 <= e <= 0 ∧ F2R (Zpos m) e = IZR z.
Proof.
  intros [Hz0 Hz]. destruct z as [|p|p]; try lia.
  unfold of_Z, binary_normalize, binary_round, prec, emax.
  pose proof (digits2_bounds p) as [Hlo Hhi].
  set (d := Zpos (digits2_pos p)) in *.
  assert (Hd : 1 <= d <= 53).
  { split; [unfold d; lia|]. apply digits2_le; [lia|exact Hz]. }
  rewrite Z.add_0_r, fexp_normal by lia. unfold shl_align.
  destruct (d - 53 - 0) as [|k|k] eqn:Hk; try lia.
  - assert (d = 53) by lia.
    rewrite binary_round_aux_canonical by (fold d; lia).
    exists p, 0. repeat split; try lia. unfold F2R. rewrite bpow_0. lra.
  - assert (Hk' : Zpos k = 53 - d) by lia.
    assert (Hpk : 2 ^ (53 - 1) <= Zpos (Pos.iter xO p k) < 2 ^ 53).
    { rewrite iter_xO, Hk'.
      assert (E1 : 2 ^ (53 - 1) = 2 ^ (d - 1) * 2 ^ (53 - d))
        by (rewrite <- Z.pow_add_r by lia; f_equal; lia).
      assert (E2 : 2 ^ 53 = 2 ^ d * 2 ^ (53 - d))
        by (rewrite <- Z.pow_add_r by lia; f_equal; lia).
      rewrite E1, E2.
      assert (0 < 2 ^ (53 - d)) by (apply Z.pow_pos_nonneg; lia).
      revert Hlo Hhi H. generalize (2 ^ (d - 1)) (2 ^ d) (2 ^ (53 - d)). intros. nia. }
    apply digits2_unique in Hpk.
    rewrite binary_round_aux_canonical by lia.
    exists (Pos.iter xO p k), (d - 53). repeat split; try lia.
    unfold F2R. rewrite iter_xO, mult_IZR, (IZR_pow2 (Zpos k)) by lia.
    replace (d - 53) with (- Zpos k) by lia.
    rewrite Rmult_assoc, bpow_opp. lra.
Qed.

Lemma of_Z_100 : of_Z 100 = S754_finite false 7036874417766400 (-46).
Proof. reflexivity. Qed.

Lemma B2R_100 : F2R 7036874417766400 (-46) = 100%R.
Proof.
  unfold F2R. change 7036874417766400 with (100 * 2 ^ 46).
  rewrite mult_IZR, (IZR_pow2 46), Rmult_assoc, bpow_opp by lia. lra.
Qed.

(** ** [Math.round] *)

Lemma round_half_up_floor m e :
  let z := round_half_up false m e in
  (IZR z <= F2R (Zpos m) e + / 2 < IZR z + 1)%R.
Proof.
  unfold round_half_up, F2R. cbn [cond_Zopp].
  destruct (Z.leb_spec 0 e) as [He|He].
  - rewrite mult_IZR, IZR_pow2 by lia. lra.
  - set (h := 2 ^ (- e - 1)). set (D := 2 ^ (- e)).
    assert (HD : D = 2 * h).
    { unfold D, h. replace (- e) with (1 + (- e - 1)) at 1 by lia.
      rewrite Z.pow_add_r by lia. reflexivity. }
    assert (Hh : 0 < h) by (apply Z.pow_pos_nonneg; lia).
    pose proof (Z_div_mod (Zpos m + h) D ltac:(lia)) as Hdm.
    unfold Z.div. destruct (Z.div_eucl (Zpos m + h) D) as [z r]. cbn [fst].
    destruct Hdm as [Hz Hr].
    assert (HDR : bpow (- e) = IZR D) by (unfold D; by rewrite IZR_pow2 by lia).
    pose proof (bpow_opp e) as Ho. rewrite HDR in Ho.
    pose proof (bpow_pos e) as Hb.
    apply (f_equal IZR) in Hz. rewrite !plus_IZR, mult_IZR in Hz.
    assert (HhR : IZR D = (2 * IZR h)%R) by (rewrite HD, mult_IZR; lra).
    destruct Hr as [Hr0 Hr1]. apply IZR_le in Hr0. apply IZR_lt in Hr1.
    assert (HDpos : (0 < IZR D)%R) by (apply IZR_lt; lia).
    clearbody D h.
    (* multiply everything by D *)
    assert (E : ((IZR (Z.pos m) * bpow e + / 2) * IZR D = IZR D * IZR z + IZR r)%R).
    { rewrite Rmult_plus_distr_r, Rmult_assoc, Ho. rewrite <- Hz, HhR. field. }
    split.
    + apply Rmult_le_reg_r with (IZR D); [exact HDpos|]. rewrite E. nra.
    + apply Rmult_lt_reg_r with (IZR D); [exact HDpos|]. rewrite E. nra.
Qed.

Lemma Math_round_finite m e :
  Math_round (S754_finite false m e) = of_Z (round_half_up false m e).
Proof.
  unfold Math_round. by destruct (Z.eqb_spec (round_half_up false m e) 0) as [->|].
Qed.
(** ** The percentage *)

Section Percentage.
Variable L : Z.
Hypothesis HL : 0 < L < 2 ^ 53.

Lemma quotient_rounds r :
  0 < r < 2 ^ 53 ->
  rounds_to (IZR r / IZR L) (div (of_Z r) (of_Z L)).
Proof.
  intros Hr.
  destruct (of_Z_canonical r Hr) as (m1 & e1 & -> & D1 & E1 & <-).
  destruct (of_Z_canonical L HL) as (m2 & e2 & -> & D2 & E2 & <-).
  apply div_rounds; [assumption..|lia].
Qed.

Lemma quotient_range r :
  0 < r < 2 ^ 53 -> (bpow (-53) < IZR r / IZR L < bpow 53)%R.
Proof.
  intros [Hr0 Hr1]. destruct HL as [HL0 HL1].
  assert (R0 : (1 <= IZR r)%R) by (apply IZR_le; lia).
  assert (R1 : (IZR r < bpow 53)%R) by (rewrite <- IZR_pow2 by lia; by apply IZR_lt).
  assert (L0 : (1 <= IZR L)%R) by (apply IZR_le; lia).
  assert (L1 : (IZR L < bpow 53)%R) by (rewrite <- IZR_pow2 by lia; by apply IZR_lt).
  assert (Ho : (bpow 53 * bpow (-53) = 1)%R) by exact (bpow_opp 53).
  pose proof (bpow_pos (-53)) as Hp.
  pose proof (bpow_pos 53) as Hp'.
  set (t := (IZR r / IZR L)%R).
  assert (Ht : (t * IZR L = IZR r)%R) by (unfold t; field; lra).
  clearbody t. split.
  - apply Rmult_lt_reg_r with (IZR L); [lra|]. rewrite Ht.
    assert (H : (bpow (-53) * IZR L < bpow (-53) * bpow 53)%R)
      by (apply Rmult_lt_compat_l; lra).
    lra.
  - apply Rmult_lt_reg_r with (IZR L); [lra|]. rewrite Ht.
    assert (bpow 53 * 1 <= bpow 53 * IZR L)%R by (apply Rmult_le_compat_l; lra).
    lra.
Qed.

Lemma scaled_rounds r :
  0 < r < 2 ^ 53 ->
  rounds_to (B2R (div (of_Z r) (of_Z L)) * 100) (scaled r L).
Proof.
  intros Hr. pose proof (quotient_rounds r Hr) as Hq.
  pose proof (quotient_range r Hr) as [Hlo Hhi].
  unfold scaled. rewrite of_Z_100.
  destruct Hq as (m & e & c & M & -> & Hd & Hce & He & [Xlo Xhi] & _).
  assert (c + 52 < 53) by (apply bpow_lt_inv; lra).
  assert (-53 < c + 53) by (apply bpow_lt_inv; lra).
  cbn [B2R cond_Zopp]. rewrite <- B2R_100.
  apply mul_rounds; [assumption|reflexivity|lia].
Qed.

Lemma scaled_mono r1 r2 :
  0 < r1 -> r1 <= r2 -> r2 < 2 ^ 53 ->
  (B2R (scaled r1 L) <= B2R (scaled r2 L))%R.
Proof.
  intros H1 H12 H2.
  apply (rounds_to_mono _ _ _ _ (scaled_rounds r1 ltac:(lia)) (scaled_rounds r2 ltac:(lia))).
  apply Rmult_le_compat_r; [lra|].
  apply (rounds_to_mono _ _ _ _ (quotient_rounds r1 ltac:(lia)) (quotient_rounds r2 ltac:(lia))).
  assert (L0 : (0 < IZR L)%R) by (apply IZR_lt; lia).
  apply Rmult_le_compat_r; [apply Rlt_le, Rinv_0_lt_compat; exact L0|].
  apply IZR_le. exact H12.
Qed.

Lemma scaled_full : B2R (scaled L L) = 100%R.
Proof.
  assert (Hone : canonical (of_Z 1)) by (exists 4503599627370496%positive, (-52); by repeat split).
  assert (Hq : B2R (div (of_Z L) (of_Z L)) = 1%R).
  { pose proof (quotient_rounds L HL) as Hq.
    replace (IZR L / IZR L)%R with (B2R (of_Z 1)) in Hq.
    - rewrite (rounds_to_unique _ _ _ Hq (rounds_to_self _ Hone)).
      simpl. unfold F2R. change 4503599627370496 with (2 ^ 52).
      rewrite (IZR_pow2 52), bpow_opp by lia. reflexivity.
    - simpl. unfold F2R. change 4503599627370496 with (2 ^ 52).
      rewrite (IZR_pow2 52), bpow_opp by lia.
      assert (0 < IZR L)%R by (apply IZR_lt; lia). field. lra. }
  assert (Hhundred : canonical (of_Z 100))
    by (exists 7036874417766400%positive, (-46); by repeat split).
  pose proof (scaled_rounds L HL) as Hs. rewrite Hq in Hs.
  replace (1 * 100)%R with (B2R (of_Z 100)) in Hs
    by (rewrite of_Z_100; simpl; rewrite B2R_100; lra).
  rewrite (rounds_to_unique _ _ _ Hs (rounds_to_self _ Hhundred)).
  rewrite of_Z_100. simpl. apply B2R_100.
Qed.

Lemma scaled_positive r :
  0 < r < 2 ^ 53 ->
  ∃ m e, scaled r L = S754_finite false m e ∧ (0 < F2R (Zpos m) e)%R.
Proof.
  intros Hr. destruct (scaled_rounds r Hr) as (m & e & c & M & Hs & Hd & _).
  exists m, e. split; [exact Hs|].
  destruct (canonical_bounds m e Hd) as [Hlo _]. pose proof (bpow_pos (e + 52)). lra.
Qed.

(** The percentage of [r] bytes out of [L] is an integer-valued number. *)
Lemma percentage_of_Z r :
  0 <= r < 2 ^ 53 ->
  percentage r (of_Z L) = of_Z (percent_Z r L).
Proof.
  intros Hr. unfold percentage, percent_Z. fold (scaled r L).
  destruct (Z.eq_dec r 0) as [->|Hr0].
  - destruct (of_Z_canonical L HL) as (m2 & e2 & HL' & _).
    unfold scaled. rewrite HL', of_Z_100. reflexivity.
  - destruct (scaled_positive r ltac:(lia)) as (m & e & -> & _).
    apply Math_round_finite.
Qed.

Lemma percent_Z_floor r :
  0 < r < 2 ^ 53 ->
  (IZR (percent_Z r L) <= B2R (scaled r L) + / 2 < IZR (percent_Z r L) + 1)%R.
Proof.
  intros Hr. unfold percent_Z.
  destruct (scaled_positive r Hr) as (m & e & -> & _).
  apply round_half_up_floor.
Qed.

Lemma percent_Z_zero : percent_Z 0 L = 0.
Proof.
  destruct (of_Z_canonical L HL) as (m2 & e2 & HL' & _).
  unfold percent_Z, scaled. rewrite HL', of_Z_100. reflexivity.
Qed.

Lemma percent_Z_nonneg r : 0 <= r < 2 ^ 53 -> 0 <= percent_Z r L.
Proof.
  intros Hr. destruct (Z.eq_dec r 0) as [->|Hr0]; [rewrite percent_Z_zero; lia|].
  pose proof (percent_Z_floor r ltac:(lia)) as [_ Hhi].
  destruct (scaled_positive r ltac:(lia)) as (m & e & Hs & Hpos).
  rewrite Hs in Hhi. simpl in Hhi.
  assert (-1 < percent_Z r L); [|lia]. apply lt_IZR. lra.
Qed.

Lemma percent_Z_mono r1 r2 :
  0 <= r1 -> r1 <= r2 -> r2 < 2 ^ 53 -> percent_Z r1 L <= percent_Z r2 L.
Proof.
  intros H1 H12 H2.
  destruct (Z.eq_dec r1 0) as [->|Hr1].
  { rewrite percent_Z_zero. by apply percent_Z_nonneg. }
  pose proof (percent_Z_floor r1 ltac:(lia)) as [Hlo1 _].
  pose proof (percent_Z_floor r2 ltac:(lia)) as [_ Hhi2].
  pose proof (scaled_mono r1 r2 ltac:(lia) H12 H2).
  assert (percent_Z r1 L < percent_Z r2 L + 1); [|lia].
  apply lt_IZR. rewrite plus_IZR. lra.
Qed.

Lemma percent_Z_full : percent_Z L L = 100.
Proof.
  pose proof (percent_Z_floor L HL) as [Hlo Hhi]. rewrite scaled_full in Hlo, Hhi.
  assert (percent_Z L L < 101) by (apply lt_IZR; lra).
  assert (99 < percent_Z L L) by (apply lt_IZR; lra).
  lia.
Qed.

Lemma percent_Z_bounds r : 0 <= r <= L -> 0 <= percent_Z r L <= 100.
Proof.
  intros Hr. split; [apply percent_Z_nonneg; lia|].
  rewrite <- percent_Z_full. apply percent_Z_mono; lia.
Qed.
End Percentage.

Lemma leb_table_true : leb_table = true.
Proof. vm_compute. reflexivity. Qed.

Lemma leb_small a b : 0 <= a -> a <= b -> b <= 100 -> leb (of_Z a) (of_Z b) = true.
Proof.
  intros Ha Hab Hb. pose proof leb_table_true as H. unfold leb_table in H.
  rewrite forallb_forall in H.
  assert (Ha' : In (Z.to_nat a) (seq 0 101)) by (apply in_seq; lia).
  specialize (H _ Ha'). rewrite forallb_forall in H.
  assert (Hb' : In (Z.to_nat b) (seq 0 101)) by (apply in_seq; lia).
  specialize (H _ Hb'). rewrite !Z2Nat.id in H by lia.
  replace (Z.to_nat a <=? Z.to_nat b)%nat with true in H
    by (symmetry; apply Nat.leb_le; lia).
  exact H.
Qed.

(** ** The accuracy of the percentage *)

Lemma rounds_to_error x f :
  rounds_to x f -> (Rabs (B2R f - x) <= x * bpow (-53))%R.
Proof.
  intros (m & e & c & M & -> & _ & _ & _ & [Hlo _] & HF & [Hn _]).
  cbn [B2R cond_Zopp]. rewrite HF. unfold F2R.
  apply Rabs_le_bounds in Hn.
  pose proof (bpow_pos c) as HB.
  pose proof (bpow_opp c) as Hinv.
  assert (Hhalf : (bpow (c + 52) * bpow (-53) = bpow c * / 2)%R).
  { rewrite <- bpow_add. replace (c + 52 + -53) with (c + -1) by lia.
    rewrite bpow_add. f_equal.
    pose proof (bpow_opp 1) as H1. rewrite bpow_1 in H1.
    change (- (1)) with (-1) in H1. lra. }
  pose proof (bpow_pos (-53)) as Hu.
  set (B := bpow c) in *. set (Bi := bpow (- c)) in *. set (u := bpow (-53)) in *.
  assert (Hy : (x * Bi * B = x)%R) by (rewrite Rmult_assoc, (Rmult_comm Bi), Hinv; ring).
  apply Rabs_le.
  assert (H1 : (0 <= (x * Bi - IZR M + / 2) * B)%R) by (apply Rmult_le_pos; lra).
  assert (H2 : (0 <= (/ 2 - (x * Bi - IZR M)) * B)%R) by (apply Rmult_le_pos; lra).
  assert (H3 : (0 <= (x - bpow (c + 52)) * u)%R) by (apply Rmult_le_pos; lra).
  lra.
Qed.

Lemma ratio_bounds r L : 0 < L -> 0 < r <= L -> (0 < IZR r / IZR L <= 1)%R.
Proof.
  intros HL [Hr Hle].
  assert (0 < IZR L)%R by (apply IZR_lt; lia).
  assert (0 < IZR r)%R by (apply IZR_lt; lia).
  assert (IZR r <= IZR L)%R by (apply IZR_le; lia).
  split.
  - by apply Rdiv_lt_0_compat.
  - apply (Rmult_le_reg_r (IZR L)); [lra|].
    unfold Rdiv. rewrite Rmult_assoc, Rinv_l by lra. lra.
Qed.

Lemma scaled_error r L :
  0 < L < 2 ^ 53 -> 0 < r <= L ->
  (Rabs (B2R (scaled r L) - 100 * (IZR r / IZR L)) <= bpow (-45))%R.
Proof.
  intros HL Hr.
  assert (Hr' : 0 < r < 2 ^ 53) by lia.
  pose proof (rounds_to_error _ _ (quotient_rounds L HL r Hr')) as Hq.
  pose proof (rounds_to_error _ _ (scaled_rounds L HL r Hr')) as Hs.
  pose proof (ratio_bounds r L ltac:(lia) Hr) as [Hx0 Hx1].
  apply Rabs_le_bounds in Hq, Hs.
  pose proof (bpow_pos (-53)) as Hu.
  assert (Hu2 : (bpow (-53) <= / 2)%R).
  { pose proof (bpow_le (-53) (-1) ltac:(lia)) as H.
    pose proof (bpow_opp 1) as H1. rewrite bpow_1 in H1.
    change (- (1)) with (-1) in H1. lra. }
  assert (H45 : bpow (-45) = (256 * bpow (-53))%R).
  { replace (-45) with (8 + -53) by lia. rewrite bpow_add. f_equal.
    rewrite (bpow_IZR 8) by lia. reflexivity. }
  rewrite H45.
  set (x := (IZR r / IZR L)%R) in *.
  set (q := B2R (div (of_Z r) (of_Z L))) in *.
  set (s := B2R (scaled r L)) in *.
  set (u := bpow (-53)) in *.
  apply Rabs_le.
  assert (Hxu : (0 <= x * u <= u)%R) by nra.
  assert (Hqu : (0 <= q * u <= (1 + u) * u)%R) by nra.
  assert (Huu : (u * u <= u * / 2)%R) by nra.
  lra.
Qed.

Lemma spec_percent_floor r L :
  0 < L ->
  (IZR (spec_percent r L) <= 100 * (IZR r / IZR L) + / 2 < IZR (spec_percent r L) + 1)%R.
Proof.
  intros HL. unfold spec_percent.
  pose proof (Z.div_mod (200 * r + L) (2 * L) ltac:(lia)) as Hdm.
  pose proof (Z.mod_pos_bound (200 * r + L) (2 * L) ltac:(lia)) as [Hm0 Hm1].
  set (E := (200 * r + L) / (2 * L)) in *.
  set (m := (200 * r + L) mod (2 * L)) in *.
  apply (f_equal IZR) in Hdm. rewrite !plus_IZR, !mult_IZR in Hdm.
  apply IZR_le in Hm0. apply IZR_lt in Hm1. rewrite mult_IZR in Hm1.
  assert (Hl : (0 < IZR L)%R) by (apply IZR_lt; lia).
  assert (Hy : (IZR r / IZR L * IZR L = IZR r)%R) by (field; lra).
  set (y := (IZR r / IZR L)%R) in *.
  split; nra.
Qed.

Lemma near_spec p E x eps :
  (Rabs (IZR p - x) <= / 2 + eps)%R ->
  (IZR E <= x + / 2 < IZR E + 1)%R ->
  (∀ k : Z, (eps < Rabs (x - (IZR k + / 2)))%R) ->
  p = E.
Proof.
  intros Hp%Rabs_le_bounds HE Hfar.
  destruct (Z.lt_trichotomy p E) as [Hlt|[->|Hgt]]; [exfalso|reflexivity|exfalso].
  - assert (Hle : (IZR p <= IZR E - 1)%R).
    { rewrite <- minus_IZR. apply IZR_le. lia. }
    specialize (Hfar (E - 1)). rewrite minus_IZR in Hfar.
    assert (Rabs (x - (IZR E - 1 + / 2)) <= eps)%R by (apply Rabs_le; lra).
    lra.
  - assert (Hge : (IZR E + 1 <= IZR p)%R).
    { rewrite <- plus_IZR. apply IZR_le. lia. }
    specialize (Hfar E).
    assert (Rabs (x - (IZR E + / 2)) <= eps)%R by (apply Rabs_le; lra).
    lra.
Qed.

Lemma percent_Z_accurate r L :
  0 < L < 2 ^ 53 -> 0 <= r <= L ->
  (Rabs (IZR (percent_Z r L) - 100 * (IZR r / IZR L)) <= / 2 + bpow (-45))%R.
Proof.
  intros HL Hr.
  pose proof (bpow_pos (-45)) as H45.
  destruct (decide (r = 0)) as [->|Hne].
  - rewrite percent_Z_zero by exact HL.
    unfold Rdiv. rewrite !Rmult_0_l, Rmult_0_r, Rminus_0_r, Rabs_R0. lra.
  - pose proof (scaled_error r L HL ltac:(lia)) as Hs.
    pose proof (percent_Z_floor L HL r ltac:(lia)) as Hp.
    apply Rabs_le_bounds in Hs. apply Rabs_le. lra.
Qed.
(** * The claims *)

(** C4 (as amended).  [download] starts by allocating a token that is new
    and not aborted, and runs its [try] and [catch] blocks with that token
    installed.  When the transfer has ended, the session still holds the
    token, un-aborted, unless [stop] or [cleanup] was called during the
    transfer, in which case the token has been aborted and the field is
    null; nothing else clears it.  A later [stop] clears it. *)
Theorem token_cleared_only_by_stop url options sc s :
  let c := token s in
  let s' := snd (download url options sc s) in
  let evs := events_since s s' in
  (c ∉ dom (signals (platform s))) ∧
  controller (this (allocated s)) = Some c ∧
  aborted (platform (allocated s)) c = false ∧
  download url options sc s =
    try_catch (download_try url options c sc) (download_catch options) (allocated s) ∧
  ((controller (this s') = Some c ∧ aborted (platform s') c = false ∧ ¬ In (Aborted c) evs) ∨
   (controller (this s') = None ∧ aborted (platform s') c = true ∧ In (Aborted c) evs)) ∧
  controller (this (snd (stop s'))) = None.
Proof.
  cbv zeta.
  split; [apply token_fresh|]. split; [reflexivity|].
  split; [unfold aborted; by rewrite allocated_signal|]. split; [reflexivity|].
  split; [|by rewrite stop_eq].
  pose proof (allocated_controller s) as Hc. pose proof (allocated_signal s) as Hs.
  destruct (download_cases url options sc s)
    as [(cause & e & b & pre & vs & rest & _ & -> & Hpre & _ & _)
       |(resp & pre & Hn & _ & Hpre & Ha)]; cbn [snd].
  - rewrite this_stage, aborted_stage, events_since_stage by assumption.
    rewrite in_filter_aborted. sift.
    rewrite !(stop_tail_aborted _ _ _ Hc).
    destruct b, (handler_calls options e); simpl; intuition congruence.
  - pose proof (download_completed url options sc s resp pre Hn Ha) as Hd.
    cbv zeta in Hd.
    set (base := rebased (payload sc) (allocated s)) in *.
    assert (Hcb : controller (this base) = Some (token s))
      by (unfold base; by rewrite rebased_controller).
    assert (Hsb : signals (platform base) !! token s = Some false)
      by (unfold base; by rewrite rebased_signals).
    assert (Htb : trace (platform base) = trace (platform s)) by reflexivity.
    destruct (success options) as [g|]; [destruct (throws _) as [e|]|];
      rewrite Hd; cbn [snd];
      rewrite this_stage, aborted_stage, events_since_based by assumption;
      rewrite in_filter_aborted; sift;
      rewrite ?(stop_tail_aborted _ _ _ Hcb).
    + destruct (made_calls _), (handler_calls options e); simpl; intuition congruence.
    + destruct (made_calls _); simpl; intuition congruence.
    + simpl; intuition congruence.
Qed.
(** C7 (as amended).  When the [try] block fails by a network error, a
    non-success status, a cancellation or a body error, no blob URL is
    created.  If no [stop] or [cleanup] was called during the transfer, the
    session's blob URL and the blob URL store are what they were, and
    nothing was revoked; if one was called - as on every cancellation - the
    previous blob URL is the only one revoked and the field is null. *)
Theorem failed_transfer_creates_no_handle url options sc s cause e s2 :
  attempt url options sc s = (Threw cause e, s2) ->
  cause ≠ CallbackThrew ->
  let s' := snd (download url options sc s) in
  let evs := events_since s s' in
  count is_created evs = 0%nat ∧
  dom (blob_store (platform s')) ⊆ dom (blob_store (platform s)) ∧
  ((∀ c, ¬ In (Aborted c) evs) ->
     blobUrl (this s') = blobUrl (this s) ∧
     blob_store (platform s') = blob_store (platform s) ∧
     count is_revoked evs = 0%nat) ∧
  ((∃ c, In (Aborted c) evs) ->
     blobUrl (this s') = None ∧
     blob_store (platform s') =
       match blobUrl (this s) with
       | Some u => delete u (blob_store (platform s))
       | None => blob_store (platform s)
       end ∧
     List.filter is_revoked evs = release_events s) ∧
  (cause = Cancelled -> In (Aborted (token s)) evs).
Proof.
  intros Ha Hcause. cbv zeta.
  destruct (download_early _ _ _ _ _ _ _ Ha Hcause)
    as (b & pre & vs & rest & -> & Hpre & _ & Hearly). cbn [snd].
  pose proof (allocated_controller s) as Hc.
  rewrite events_since_stage, this_stage, blob_store_stage.
  change (blobUrl (this (allocated s))) with (blobUrl (this s)).
  change (blob_store (platform (allocated s))) with (blob_store (platform s)).
  assert (Hab : ∀ c, In (Aborted c)
            (pre ++ loop_events (reporting options (advertised sc)) (advertised sc) 0 vs ++
             stop_tail (allocated s) b ++ report_events options e ++
             stop_tail (allocated s) (negb b && handler_calls options e)) <->
            c = token s ∧ b || handler_calls options e = true).
  { intros c. rewrite in_filter_aborted. sift. rewrite !(stop_tail_aborted _ _ _ Hc).
    destruct b, (handler_calls options e); simpl; intuition congruence. }
  split; [unfold count; sift; reflexivity|].
  split.
  { destruct (b || handler_calls options e); [|done].
    destruct (blobUrl (this s)); [|done]. rewrite dom_delete_L. intros x [Hx _]%elem_of_difference. exact Hx. }
  split; [|split].
  - intros Hno. destruct (b || handler_calls options e) eqn:Hb.
    { exfalso. apply (Hno (token s)), Hab. auto. }
    apply orb_false_elim in Hb as [-> ->].
    repeat split; try reflexivity. unfold count. sift. reflexivity.
  - intros [c [-> Hb]%Hab]. rewrite Hb. repeat split.
    sift. rewrite !stop_tail_revoked.
    change (release_events (allocated s)) with (release_events s).
    destruct b, (handler_calls options e); try discriminate; simpl;
      by rewrite ?app_nil_r.
  - intros ->. destruct Hearly as [_ ->]. apply Hab. auto.
Qed.
Lemma length_report_events options e : (length (report_events options e) <= 1)%nat.
Proof. unfold report_events. destruct (failed options); simpl; lia. Qed.

(** C3 (as amended).  When the [try] block fails by a network error, a
    non-success status, a cancellation, a missing body or a body error, the
    [failed] callback, if one is given, is invoked exactly once: with
    ["ABORTED"] and ["Download was stopped"] exactly when a pending
    operation was rejected by the aborted signal, with ["ERROR"] and the
    error's message otherwise, the message for a non-success status being
    ["HTTP error! status: "] followed by the status in decimal.  The success
    callback is not invoked, and [download] rejects with the error of the
    transfer: always when no [failed] callback is given, and otherwise
    unless the [failed] callback itself throws.  In every attempt, each of
    the two callbacks is invoked at most once, and both are only when the
    success callback threw; what [failed] is then told follows the name of
    that exception: ["ABORTED"] when it is named [AbortError], ["ERROR"]
    with its message otherwise. *)
Theorem failure_reported_once url options sc s :
  let r := download url options sc s in
  let evs := events_since s (snd r) in
  (∀ cause e s2,
      attempt url options sc s = (Threw cause e, s2) ->
      cause ≠ CallbackThrew ->
      let kind := if decide (cause = Cancelled) then "ABORTED" else "ERROR" in
      let message :=
        if decide (cause = Cancelled) then "Download was stopped" else err_message e in
      (cause = Cancelled -> e = AbortError ∧ In (Aborted (token s)) evs) ∧
      (cause = HttpStatus ->
         ∃ resp, network sc = Respond resp ∧ ok resp = false ∧
                 message = "HTTP error! status: " +:+ pretty (status resp)) ∧
      count is_success evs = 0%nat ∧
      match failed options with
      | Some f =>
          List.filter is_failed evs = [Failed kind message] ∧
          fst r = match throws (f kind message) with
                  | None => Threw cause e
                  | Some e' => Threw CallbackThrew e'
                  end
      | None => List.filter is_failed evs = [] ∧ fst r = Threw cause e
      end) ∧
  (count is_success evs <= 1)%nat ∧
  (count is_failed evs <= 1)%nat ∧
  (count is_success evs = 1%nat -> count is_failed evs = 1%nat ->
     ∃ g u ct e,
       success options = Some g ∧ throws (g u ct) = Some e ∧
       List.filter is_failed evs =
         [if String.eqb (err_name e) "AbortError"
          then Failed "ABORTED" "Download was stopped"
          else Failed "ERROR" (err_message e)]).
Proof.
  cbv zeta. split.
  - intros cause e s2 Ha Hcause.
    destruct (download_early _ _ _ _ _ _ _ Ha Hcause)
      as (b & pre & vs & rest & -> & Hpre & _ & Hearly). cbn [fst snd].
    pose proof (allocated_controller s) as Hc.
    rewrite events_since_stage.
    assert (Hrep : failure_report e =
                   (if decide (cause = Cancelled) then "ABORTED" else "ERROR",
                    if decide (cause = Cancelled) then "Download was stopped"
                    else err_message e)).
    { destruct cause; simpl in Hearly; try done.
      - by destruct Hearly as (_ & _ & msg & _ & ->).
      - by destruct Hearly as (_ & _ & resp & _ & _ & ->).
      - by destruct Hearly as [-> _].
      - by destruct Hearly as (_ & _ & msg & ->).
      - by destruct Hearly as (_ & _ & resp & _ & _ & _ & ->). }
    split; [|split; [|split]].
    + intros ->. destruct Hearly as [-> ->]. split; [reflexivity|].
      rewrite in_filter_aborted. sift. rewrite !(stop_tail_aborted _ _ _ Hc). simpl. auto.
    + intros ->. destruct Hearly as (_ & _ & resp & Hn & Hok & ->). eauto.
    + unfold count. sift. reflexivity.
    + sift. rewrite (filter_all _ _ (report_events_failed options e)).
      unfold report_events, rethrown. rewrite Hrep. cbn [fst snd].
      destruct (failed options) as [f|]; [|by rewrite ?app_nil_r].
      split; [reflexivity|]. by destruct (throws _).
  - destruct (download_cases url options sc s)
      as [(cause & e & b & pre & vs & rest & _ & -> & Hpre & _ & _)
         |(resp & pre & Hn & _ & Hpre & Ha)]; cbn [snd].
    + rewrite events_since_stage. unfold count. sift.
      rewrite (filter_all _ _ (report_events_failed options e)).
      pose proof (length_report_events options e).
      simpl. rewrite ?app_nil_r. repeat split; try lia.
    + pose proof (download_completed url options sc s resp pre Hn Ha) as Hd.
      cbv zeta in Hd.
      destruct (success options) as [g|] eqn:Hg; [destruct (throws _) as [e|] eqn:He|];
        rewrite Hd; cbn [snd]; rewrite events_since_based by reflexivity;
        unfold count; sift; simpl.
      * rewrite (filter_all _ _ (report_events_failed options e)).
        pose proof (length_report_events options e).
        rewrite ?app_nil_r. repeat split; try lia. intros _ Hone.
        exists g, (fresh_url (allocated s)), (content_type resp), e.
        split; [reflexivity|]. split; [exact He|].
        revert Hone. unfold report_events, failure_report.
        destruct (failed options); [intros _|discriminate].
        by destruct (String.eqb (err_name e) "AbortError").
      * repeat split; try lia.
      * repeat split; try lia.
Qed.
Lemma length_concat_sum (chunks : list (list byte)) :
  length (concat chunks) = sum_list_with length chunks.
Proof. induction chunks as [|v vs IH]; simpl; [reflexivity|]. rewrite length_app. lia. Qed.

Lemma rebased_blob_store blob s1 :
  blob_store (platform (rebased blob s1)) =
    <[fresh_url s1 := blob]>
      (match blobUrl (this s1) with
       | Some h => delete h (blob_store (platform s1))
       | None => blob_store (platform s1)
       end).
Proof.
  unfold rebased, published, fresh_url, released. by destruct (blobUrl (this s1)).
Qed.

Lemma rebased_revoked blob s1 :
  revoked (platform (rebased blob s1)) =
    match blobUrl (this s1) with
    | Some h => {[h]} ∪ revoked (platform s1)
    | None => revoked (platform s1)
    end.
Proof.
  unfold rebased, published, fresh_url, released. by destruct (blobUrl (this s1)).
Qed.

Lemma revoked_stage s1 b evs :
  revoked (platform (stage s1 b evs)) =
    if b then match blobUrl (this s1) with
              | Some u => {[u]} ∪ revoked (platform s1)
              | None => revoked (platform s1)
              end
    else revoked (platform s1).
Proof. by destruct b. Qed.

Lemma fresh_url_spec s :
  (fresh_url s ∉ dom (blob_store (platform s))) ∧
  (fresh_url s ∉ revoked (platform s)) ∧
  blobUrl (this s) ≠ Some (fresh_url s).
Proof.
  unfold fresh_url, released.
  destruct (blobUrl (this s)) as [h|] eqn:Hh; simpl.
  - set (X := dom (delete h (blob_store (platform s))) ∪ ({[h]} ∪ revoked (platform s))).
    pose proof (is_fresh X) as Hf. generalize dependent (fresh X). intros u Hf.
    unfold X in Hf. clear X.
    rewrite dom_delete_L in Hf.
    rewrite !not_elem_of_union, not_elem_of_difference, not_elem_of_singleton in Hf.
    destruct Hf as [[Hd|Hd%elem_of_singleton] [Hne Hr]]; [|done].
    repeat split; auto. congruence.
  - pose proof (is_fresh (dom (blob_store (platform s)) ∪ revoked (platform s))) as Hf.
    rewrite not_elem_of_union in Hf. destruct Hf. repeat split; auto.
Qed.

(** C1 (as amended).  A [download] that returns has received a response
    with a success status and has read every chunk of its body, in order.
    It then revoked the blob URL the session held, if any, and only then
    created a new one, never handed out before, for the blob whose bytes
    are the chunks concatenated in the order received - their total length
    being the sum of the chunk lengths - and whose type is the response's
    content type.  What it returns is the session's [blobUrl] field after
    the success callback: the new blob URL, still registered, unless that
    callback called [stop] or [cleanup], which revokes it and makes
    [download] return [null]. *)
Theorem payload_is_the_stream url options sc s r s' :
  download url options sc s = (Returned r, s') ->
  ∃ resp pre post,
    network sc = Respond resp ∧ ok resp = true ∧
    let chunks := body_chunks (body resp) in
    let ct := content_type resp in
    let blob := {| blob_bytes := concat chunks; blob_type := ct |} in
    let u := fresh_url (allocated s) in
    events_since s s' = (pre ++ release_events s ++ [Created u blob] ++ post)%list ∧
    forallb (λ e, opening e || streaming e) pre = true ∧
    received pre = chunks ∧
    length (blob_bytes blob) = sum_list_with length chunks ∧
    (u ∉ dom (blob_store (platform s))) ∧
    (u ∉ revoked (platform s)) ∧
    blobUrl (this s) ≠ Some u ∧
    (∀ h, blobUrl (this s) = Some h ->
          blob_store (platform s') !! h = None ∧ h ∈ revoked (platform s')) ∧
    r = blobUrl (this s') ∧
    match success options with
    | Some g =>
        if made_calls (calls (g u ct))
        then post = [Success u ct; Aborted (token s); Revoked u] ∧
             r = None ∧ blob_store (platform s') !! u = None
        else post = [Success u ct] ∧
             r = Some u ∧ blob_store (platform s') !! u = Some blob
    | None => post = [] ∧ r = Some u ∧ blob_store (platform s') !! u = Some blob
    end.
Proof.
  intros Hd.
  destruct (download_cases url options sc s)
    as [(cause & e & b & pre & vs & rest & _ & Hd' & _)|(resp & pre & Hn & Hok & Hpre & Ha)].
  { rewrite Hd in Hd'. unfold rethrown in Hd'.
    destruct (failed options); [destruct (throws _)|]; discriminate. }
  pose proof (download_completed url options sc s resp pre Hn Ha) as Hc.
  cbv zeta in Hc.
  assert (Hsent : sent sc = body_chunks (body resp)) by (unfold sent; by rewrite Hn).
  assert (Hpay : payload sc =
                 {| blob_bytes := concat (body_chunks (body resp));
                    blob_type := content_type resp |})
    by (unfold payload; by rewrite Hn, Hsent).
  rewrite Hpay, Hsent in Hc.
  destruct (fresh_url_spec (allocated s)) as (Hf1 & Hf2 & Hf3).
  change (blob_store (platform (allocated s))) with (blob_store (platform s)) in Hf1.
  change (revoked (platform (allocated s))) with (revoked (platform s)) in Hf2.
  change (blobUrl (this (allocated s))) with (blobUrl (this s)) in Hf3.
  set (L := advertised sc) in *. set (rep := reporting options L) in *.
  set (u := fresh_url (allocated s)) in *.
  set (blob := {| blob_bytes := concat (body_chunks (body resp));
                  blob_type := content_type resp |}) in *.
  set (base := rebased blob (allocated s)) in *.
  assert (Hub : blobUrl (this base) = Some u) by reflexivity.
  assert (Hcb : controller (this base) = Some (token s))
    by (unfold base; by rewrite rebased_controller).
  assert (Hold : ∀ b evs h, blobUrl (this s) = Some h ->
            blob_store (platform (stage base b evs)) !! h = None ∧
            h ∈ revoked (platform (stage base b evs))).
  { intros b evs h Hh.
    assert (Hne : u ≠ h) by congruence.
    rewrite blob_store_stage, revoked_stage, Hub. unfold base.
    rewrite rebased_blob_store, rebased_revoked.
    change (blobUrl (this (allocated s))) with (blobUrl (this s)). rewrite Hh.
    change (blob_store (platform (allocated s))) with (blob_store (platform s)).
    fold u. destruct b.
    - rewrite lookup_delete_ne, lookup_insert_ne, lookup_delete_eq by done.
      split; [done|]. set_solver.
    - rewrite lookup_insert_ne, lookup_delete_eq by done. split; [done|]. set_solver. }
  assert (Hnew : blob_store (platform (stage base false [])) !! u = Some blob).
  { rewrite blob_store_stage. unfold base. rewrite rebased_blob_store. fold u.
    apply lookup_insert_eq. }
  exists resp, (pre ++ loop_events rep L 0 (body_chunks (body resp)))%list.
  assert (Hpre' : forallb (λ e, opening e || streaming e)
                    (pre ++ loop_events rep L 0 (body_chunks (body resp))) = true).
  { rewrite forallb_app. apply andb_true_intro. split.
    - rewrite forallb_forall in *. intros x Hx. by rewrite (Hpre x Hx).
    - pose proof (loop_events_streaming rep L 0 (body_chunks (body resp))) as Hl.
      rewrite forallb_forall in *. intros x Hx. rewrite (Hl x Hx). apply orb_true_r. }
  assert (Hrec : received (pre ++ loop_events rep L 0 (body_chunks (body resp))) =
                 body_chunks (body resp)).
  { rewrite received_app, received_loop_events.
    rewrite (received_none opening) by (assumption || by intros []). reflexivity. }
  destruct (success options) as [g|].
  - destruct (throws _); rewrite Hd in Hc; [unfold rethrown in Hc;
      destruct (failed options); [destruct (throws _)|]; discriminate|].
    injection Hc as -> ->.
    eexists. split; [done|]. split; [done|]. cbv zeta.
    rewrite events_since_based by reflexivity.
    split; [rewrite <- !app_assoc; reflexivity|].
    split; [done|]. split; [done|]. split; [apply length_concat_sum|].
    split; [done|]. split; [done|]. split; [done|]. split; [apply Hold|].
    rewrite this_stage, blob_store_stage, Hub.
    destruct (made_calls _).
    + split; [reflexivity|].
      unfold stop_tail, stop_events. rewrite Hcb, Hub.
      split; [reflexivity|]. split; [reflexivity|apply lookup_delete_eq].
    + split; [by rewrite Hub|]. split; [reflexivity|].
      split; [reflexivity|exact Hnew].
  - rewrite Hd in Hc. injection Hc as -> ->.
    exists []. split; [done|]. split; [done|]. cbv zeta.
    rewrite events_since_based by reflexivity.
    split; [rewrite <- !app_assoc; reflexivity|].
    split; [done|]. split; [done|]. split; [apply length_concat_sum|].
    split; [done|]. split; [done|]. split; [done|]. split; [apply Hold|].
    rewrite this_stage. split; [by rewrite Hub|]. split; [reflexivity|].
    split; [reflexivity|exact Hnew].
Qed.
(** C9.  When the response carries no [Content-Length] header, the
    progress callback is never invoked, whatever the body delivers and
    however the transfer ends. *)
Theorem no_length_no_progress url options sc s :
  (∀ r, network sc = Respond r -> content_length r = None) ->
  reported (events_since s (snd (download url options sc s))) = [].
Proof.
  intros Hnone.
  destruct (download_reported url options sc s) as (vs & rest & _ & _ & ->).
  assert (Hadv : advertised sc = S754_zero false).
  { unfold advertised. destruct (network sc) as [|r] eqn:Hn; [reflexivity|].
    by rewrite (Hnone r eq_refl). }
  unfold reporting. by rewrite Hadv.
Qed.
(** C10.  A [Content-Length] header whose value is ["0"], or a string that
    [StringToNumber] maps to [NaN], coerces to a falsy number; [download]
    then ends with the same outcome and in the same state as when the header
    is absent, and the progress callback is never invoked. *)
Theorem unusable_length_is_no_length url options d st ct v b s :
  v = "0" ∨ StringToNumber v = NaN ->
  let sc cl :=
    {| during_fetch := d;
       network := Respond {| status := st; content_type := ct;
                             content_length := cl; body := b |} |} in
  truthy (ToNumber (Some v)) = false ∧
  download url options (sc (Some v)) s = download url options (sc None) s ∧
  reported (events_since s (snd (download url options (sc (Some v)) s))) = [].
Proof.
  intros Hv. cbv zeta.
  assert (Hfalsy : truthy (ToNumber (Some v)) = false).
  { destruct Hv as [->|Hv]; [reflexivity|]. simpl. by rewrite Hv. }
  split; [exact Hfalsy|]. split.
  - by apply download_falsy.
  - destruct (download_reported url options
                {| during_fetch := d;
                   network := Respond {| status := st; content_type := ct;
                                         content_length := Some v; body := b |} |} s)
      as (vs & rest & _ & _ & ->).
    unfold reporting, advertised. cbn [network content_length]. by rewrite Hfalsy.
Qed.

Lemma reporting_of_Z options sc resp f L :
  network sc = Respond resp ->
  progress options = Some f ->
  ToNumber (content_length resp) = of_Z L ->
  0 < L < 2 ^ 53 ->
  advertised sc = of_Z L ∧ reporting options (advertised sc) = true.
Proof.
  intros Hn Hp HL HLr.
  assert (Ha : advertised sc = of_Z L) by (unfold advertised; by rewrite Hn).
  split; [exact Ha|]. unfold reporting. rewrite Ha, Hp.
  destruct (of_Z_canonical L HLr) as (m & e & -> & _). reflexivity.
Qed.

Lemma cumulative_last vs :
  ∀ from x, last (cumulative from vs) = Some x -> x = from + total_length vs.
Proof.
  induction vs as [|v vs IH]; intros from x; [discriminate|].
  cbn [cumulative]. rewrite total_length_cons.
  destruct vs as [|w vs].
  - intros [= <-]. unfold total_length. simpl. lia.
  - intros H. rewrite (IH _ _ H). lia.
Qed.

Lemma length_cumulative vs : ∀ from, length (cumulative from vs) = length vs.
Proof. induction vs as [|v vs IH]; intros from; simpl; [reflexivity|]. by rewrite IH. Qed.

Lemma loop_events_of_Z L vs :
  0 < L < 2 ^ 53 ->
  ∀ from,
    0 <= from -> from + total_length vs <= L ->
    loop_events true (of_Z L) from vs =
      concat (zip_with (λ v p, [ChunkRead v; Progress (of_Z p)]) vs
                ((λ r, percent_Z r L) <$> cumulative from vs)).
Proof.
  intros HL. induction vs as [|v vs IH]; intros from H0 Hle; [reflexivity|].
  rewrite total_length_cons in Hle. pose proof (total_length_nonneg vs).
  cbn [loop_events cumulative fmap list_fmap zip_with concat app].
  rewrite percentage_of_Z by lia. rewrite IH by lia. reflexivity.
Qed.

(** C2 (as amended).  When the response advertises the total length [L],
    a progress callback is given, and the byte counts after each chunk read
    end at [L]: the callback is invoked once after each chunk, in the order
    of arrival, with [Math.round((r / L) * 100)] for the count [r] reached,
    computed on binary64 numbers as the source does.  That value is an
    integer from 0 to 100 within [1/2 + 2^-45] of the exact [100 * r / L]:
    it is the [round(r/L*100)] of the specification whenever the exact value
    is farther than [2^-45] from every half-integer, and may be the integer
    next to it otherwise.  Each value is at most the next one, and the last
    one is 100. *)
Theorem progress_follows_the_stream url options sc s resp f L :
  network sc = Respond resp ->
  progress options = Some f ->
  ToNumber (content_length resp) = of_Z L ->
  0 < L < 2 ^ 53 ->
  let evs := events_since s (snd (download url options sc s)) in
  let rs := cumulative 0 (received evs) in
  last rs = Some L ->
  ∃ ps : list Z,
    length ps = length rs ∧
    List.filter streaming evs =
      concat (zip_with (λ v p, [ChunkRead v; Progress (of_Z p)]) (received evs) ps) ∧
    reported evs = of_Z <$> ps ∧
    reported evs = (λ r, percentage r (of_Z L)) <$> rs ∧
    (∀ i r p, rs !! i = Some r -> ps !! i = Some p ->
        0 <= p <= 100 ∧
        (Rabs (IZR p - 100 * (IZR r / IZR L)) <= / 2 + bpow (-45))%R ∧
        ((∀ k : Z, (bpow (-45) < Rabs (100 * (IZR r / IZR L) - (IZR k + / 2)))%R) ->
         p = spec_percent r L)) ∧
    (∀ i p q, ps !! i = Some p -> ps !! S i = Some q -> p <= q) ∧
    (∀ i p q, reported evs !! i = Some p -> reported evs !! S i = Some q -> leb p q = true) ∧
    last ps = Some 100 ∧
    last (reported evs) = Some (of_Z 100).
Proof.
  intros Hn Hp HL HLr. cbv zeta.
  destruct (reporting_of_Z options sc resp f L Hn Hp HL HLr) as [Ha Hrep].
  destruct (download_streaming url options sc s) as (vs & rest & _ & Hstream).
  rewrite Hrep, Ha in Hstream.
  set (evs := events_since s (snd (download url options sc s))) in *.
  assert (Hrec : received evs = vs)
    by (rewrite <- received_filter, Hstream; apply received_loop_events).
  assert (Hrp : reported evs = (λ r, percentage r (of_Z L)) <$> cumulative 0 vs)
    by (rewrite <- reported_filter, Hstream; apply reported_loop_events).
  rewrite Hrec. intros Hlast.
  pose proof (cumulative_last vs 0 L Hlast) as Htotal.
  assert (Hle : ∀ i r, cumulative 0 vs !! i = Some r -> 0 <= r <= L).
  { intros i r Hi. split; [by apply (cumulative_lookup_ge vs 0 i)|].
    pose proof (cumulative_lookup_total vs 0 i r Hi). lia. }
  assert (Hps : (λ r, percentage r (of_Z L)) <$> cumulative 0 vs =
                of_Z <$> ((λ r, percent_Z r L) <$> cumulative 0 vs)).
  { rewrite <- list_fmap_compose. apply list_eq. intros i.
    rewrite !list_lookup_fmap.
    destruct (cumulative 0 vs !! i) as [r|] eqn:Hi; [|reflexivity].
    simpl. rewrite percentage_of_Z; [reflexivity|assumption|].
    pose proof (Hle i r Hi). lia. }
  assert (Hmono : ∀ i p q,
            ((λ r, percent_Z r L) <$> cumulative 0 vs) !! i = Some p ->
            ((λ r, percent_Z r L) <$> cumulative 0 vs) !! S i = Some q ->
            0 <= p ∧ p <= q ∧ q <= 100).
  { intros i p q. rewrite !list_lookup_fmap.
    destruct (cumulative 0 vs !! i) as [r1|] eqn:H1; [|done].
    destruct (cumulative 0 vs !! S i) as [r2|] eqn:H2; [|done].
    intros [= <-] [= <-].
    pose proof (Hle _ _ H1). pose proof (Hle _ _ H2).
    pose proof (cumulative_lookup_le vs 0 i (S i) r1 r2 ltac:(lia) H1 H2).
    pose proof (percent_Z_bounds L HLr r1 ltac:(lia)).
    pose proof (percent_Z_bounds L HLr r2 ltac:(lia)).
    pose proof (percent_Z_mono L HLr r1 r2 ltac:(lia) ltac:(lia) ltac:(lia)). lia. }
  exists ((λ r, percent_Z r L) <$> cumulative 0 vs).
  split; [by rewrite length_fmap|].
  split; [rewrite Hstream; apply loop_events_of_Z; [assumption|lia|lia]|].
  split; [by rewrite Hrp, Hps|]. split; [exact Hrp|].
  split; [|split; [|split; [|split]]].
  - intros i r p Hi. rewrite list_lookup_fmap, Hi. intros [= <-].
    pose proof (Hle i r Hi) as Hr.
    split; [by apply percent_Z_bounds|].
    pose proof (percent_Z_accurate r L HLr Hr) as Hacc.
    split; [exact Hacc|]. intros Hfar.
    apply (near_spec _ _ (100 * (IZR r / IZR L)) (bpow (-45)));
      [exact Hacc|apply spec_percent_floor; lia|exact Hfar].
  - intros i p q Hi Hj. by destruct (Hmono i p q Hi Hj) as (_ & ? & _).
  - intros i p q.
    rewrite Hrp, Hps, (list_lookup_fmap of_Z _ i), (list_lookup_fmap of_Z _ (S i)).
    destruct (((λ r, percent_Z r L) <$> cumulative 0 vs) !! i) as [p'|] eqn:H1; [|done].
    destruct (((λ r, percent_Z r L) <$> cumulative 0 vs) !! S i) as [q'|] eqn:H2; [|done].
    intros [= <-] [= <-].
    destruct (Hmono i p' q' H1 H2) as (? & ? & ?). by apply leb_small.
  - rewrite fmap_last, Hlast. simpl. by rewrite percent_Z_full.
  - rewrite Hrp, fmap_last, Hlast. simpl.
    by rewrite percentage_of_Z, percent_Z_full by lia.
Qed.

(** C8 (as amended).  When the response advertises the total length [L], a
    positive integer, and its body holds at most [L] bytes, every value
    passed to the progress callback is an integer between 0 and 100. *)
Theorem progress_within_bounds url options sc s resp L :
  network sc = Respond resp ->
  ToNumber (content_length resp) = of_Z L ->
  0 < L < 2 ^ 53 ->
  total_length (body_chunks (body resp)) <= L ->
  Forall (λ p, ∃ z, 0 <= z <= 100 ∧ p = of_Z z)
    (reported (events_since s (snd (download url options sc s)))).
Proof.
  intros Hn HL HLr Htotal.
  destruct (download_reported url options sc s) as (vs & rest & Hsent & _ & ->).
  assert (Ha : advertised sc = of_Z L) by (unfold advertised; by rewrite Hn).
  unfold sent in Hsent. rewrite Hn in Hsent. rewrite Hsent, total_length_app in Htotal.
  pose proof (total_length_nonneg rest).
  destruct (reporting options (advertised sc)); [|constructor].
  rewrite Ha. apply Forall_fmap, Forall_lookup. intros i r Hi. simpl.
  pose proof (cumulative_lookup_ge vs 0 i r Hi).
  pose proof (cumulative_lookup_total vs 0 i r Hi).
  exists (percent_Z r L). split.
  - apply percent_Z_bounds; [assumption|lia].
  - apply percentage_of_Z; [assumption|lia].
Qed.
(** * Sample runs *)

(** The scenario of the specification: 1000 bytes in four chunks of 250. *)
Example four_quarters_progress :
  reported (events_since fresh_session
              (snd (download "u" quiet_options four_quarters fresh_session))) =
    [of_Z 25; of_Z 50; of_Z 75; of_Z 100].
Proof. vm_compute. reflexivity. Qed.

(** Binary64 at work: 29 bytes out of 200 are reported as 14, not 15. *)
Example uneven_progress :
  reported (events_since fresh_session
              (snd (download "u" quiet_options uneven fresh_session))) =
    [of_Z 14; of_Z 100].
Proof. vm_compute. reflexivity. Qed.

(** Header values that [StringToNumber] does not parse, and some it does. *)
Example unparseable_lengths :
  Forall (λ v, StringToNumber v = NaN) ["abc"; "12px"; "1,000"; "0x"; "1e"; "+-1"].
Proof. repeat constructor. Qed.

Example parseable_lengths :
  StringToNumber "1000" = of_Z 1000 ∧ StringToNumber " 42 " = of_Z 42 ∧
  StringToNumber "1e3" = of_Z 1000 ∧ StringToNumber "0x10" = of_Z 16 ∧
  StringToNumber "" = of_Z 0.
Proof. repeat split. Qed.

(** * Counterexamples and witnesses *)

(** Against C1 as stated: a transfer that completes, whose success callback
    calls [cleanup], makes [download] return [null], and the blob URL it
    created is no longer registered. *)
Lemma success_callback_releases_the_payload :
  let r := download "u" releasing_options four_quarters fresh_session in
  fst r = Returned None ∧ blob_store (platform (snd r)) = ∅.
Proof. vm_compute. split; reflexivity. Qed.

Lemma payload_is_the_stream_witness :
  let s := fresh_session in
  let s' := snd (download "u" quiet_options four_quarters s) in
  download "u" quiet_options four_quarters s = (Returned (Some 0%nat), s') ∧
  ∃ resp pre post,
    network four_quarters = Respond resp ∧ ok resp = true ∧
    let chunks := body_chunks (body resp) in
    let ct := content_type resp in
    let blob := {| blob_bytes := concat chunks; blob_type := ct |} in
    let u := fresh_url (allocated s) in
    events_since s s' = (pre ++ release_events s ++ [Created u blob] ++ post)%list ∧
    forallb (λ e, opening e || streaming e) pre = true ∧
    received pre = chunks ∧
    length (blob_bytes blob) = sum_list_with length chunks ∧
    (u ∉ dom (blob_store (platform s))) ∧
    (u ∉ revoked (platform s)) ∧
    blobUrl (this s) ≠ Some u ∧
    (∀ h, blobUrl (this s) = Some h ->
          blob_store (platform s') !! h = None ∧ h ∈ revoked (platform s')) ∧
    Some 0%nat = blobUrl (this s') ∧
    match success quiet_options with
    | Some g =>
        if made_calls (calls (g u ct))
        then post = [Success u ct; Aborted (token s); Revoked u] ∧
             Some 0%nat = None ∧ blob_store (platform s') !! u = None
        else post = [Success u ct] ∧
             Some 0%nat = Some u ∧ blob_store (platform s') !! u = Some blob
    | None => post = [] ∧ Some 0%nat = Some u ∧ blob_store (platform s') !! u = Some blob
    end.
Proof.
  cbv zeta. split; [vm_compute; reflexivity|].
  apply (payload_is_the_stream "u" quiet_options four_quarters fresh_session (Some 0%nat)).
  vm_compute. reflexivity.
Defined.

(** Against C2 as stated: of 40 bytes advertised, 23 arrive first.  The
    exact percentage is 57.5, which [round] makes 58; the callback is
    invoked with 57. *)
Lemma progress_rounds_a_tie_down :
  let evs := events_since fresh_session (snd (download "u" quiet_options tied fresh_session)) in
  cumulative 0 (received evs) = [23; 40] ∧
  reported evs = [of_Z 57; of_Z 100] ∧
  spec_percent 23 40 = 58 ∧
  of_Z 57 ≠ of_Z 58.
Proof. vm_compute. repeat split; discriminate || reflexivity. Qed.

Lemma progress_follows_the_stream_witness :
  let s := fresh_session in
  let resp := answer 200 (Some "40") [chunk_of 23; chunk_of 17] in
  let evs := events_since s (snd (download "u" quiet_options tied s)) in
  let rs := cumulative 0 (received evs) in
  (network tied = Respond resp ∧
   progress quiet_options = Some (λ _, quiet) ∧
   ToNumber (content_length resp) = of_Z 40 ∧
   0 < 40 < 2 ^ 53 ∧
   last rs = Some 40) ∧
  ∃ ps : list Z,
    length ps = length rs ∧
    List.filter streaming evs =
      concat (zip_with (λ v p, [ChunkRead v; Progress (of_Z p)]) (received evs) ps) ∧
    reported evs = of_Z <$> ps ∧
    reported evs = (λ r, percentage r (of_Z 40)) <$> rs ∧
    (∀ i r p, rs !! i = Some r -> ps !! i = Some p ->
        0 <= p <= 100 ∧
        (Rabs (IZR p - 100 * (IZR r / IZR 40)) <= / 2 + bpow (-45))%R ∧
        ((∀ k : Z, (bpow (-45) < Rabs (100 * (IZR r / IZR 40) - (IZR k + / 2)))%R) ->
         p = spec_percent r 40)) ∧
    (∀ i p q, ps !! i = Some p -> ps !! S i = Some q -> p <= q) ∧
    (∀ i p q, reported evs !! i = Some p -> reported evs !! S i = Some q -> leb p q = true) ∧
    last ps = Some 100 ∧
    last (reported evs) = Some (of_Z 100).
Proof.
  cbv zeta. split.
  - repeat split; reflexivity || lia.
  - apply (progress_follows_the_stream "u" quiet_options tied fresh_session
             (answer 200 (Some "40") [chunk_of 23; chunk_of 17]) (λ _, quiet) 40);
      reflexivity || lia.
Defined.
(** Against C3 as stated: when the success callback throws, the [catch]
    block reports that exception, so both callbacks fire in one attempt;
    and when the [failed] callback throws, [download] rejects with its
    exception, not with the error of the transfer. *)
Lemma success_and_failed_both_fire :
  (let r := download "u" throwing_success_options four_quarters fresh_session in
   let evs := events_since fresh_session (snd r) in
   count is_success evs = 1%nat ∧ count is_failed evs = 1%nat) ∧
  (let r := download "u" throwing_failed_options not_found fresh_session in
   fst (attempt "u" throwing_failed_options not_found fresh_session) =
     Threw HttpStatus (Error "HTTP error! status: 404") ∧
   fst r = Threw CallbackThrew (Error "handler")).
Proof. vm_compute. repeat split; reflexivity. Qed.

Lemma failure_reported_once_witness :
  let e := Error "HTTP error! status: 404" in
  let with_callback := download "u" quiet_options not_found fresh_session in
  let without := download "u" no_callbacks not_found fresh_session in
  (attempt "u" quiet_options not_found fresh_session =
     (Threw HttpStatus e, snd (attempt "u" quiet_options not_found fresh_session)) ∧
   attempt "u" no_callbacks not_found fresh_session =
     (Threw HttpStatus e, snd (attempt "u" no_callbacks not_found fresh_session)) ∧
   HttpStatus ≠ CallbackThrew) ∧
  (List.filter is_failed (events_since fresh_session (snd with_callback)) =
     [Failed "ERROR" "HTTP error! status: 404"] ∧
   fst with_callback = Threw HttpStatus e) ∧
  (List.filter is_failed (events_since fresh_session (snd without)) = [] ∧
   fst without = Threw HttpStatus e).
Proof.
  cbv zeta.
  assert (H1 : attempt "u" quiet_options not_found fresh_session =
               (Threw HttpStatus (Error "HTTP error! status: 404"),
                snd (attempt "u" quiet_options not_found fresh_session)))
    by (vm_compute; reflexivity).
  assert (H2 : attempt "u" no_callbacks not_found fresh_session =
               (Threw HttpStatus (Error "HTTP error! status: 404"),
                snd (attempt "u" no_callbacks not_found fresh_session)))
    by (vm_compute; reflexivity).
  assert (Hne : HttpStatus ≠ CallbackThrew) by discriminate.
  split; [auto|]. split.
  - exact (proj2 (proj2 (proj2
             (proj1 (failure_reported_once "u" quiet_options not_found fresh_session)
                HttpStatus (Error "HTTP error! status: 404") _ H1 Hne)))).
  - exact (proj2 (proj2 (proj2
             (proj1 (failure_reported_once "u" no_callbacks not_found fresh_session)
                HttpStatus (Error "HTTP error! status: 404") _ H2 Hne)))).
Defined.

(** Against C4 as stated: after a transfer that succeeded, and after one
    that failed, the session still holds its token. *)
Lemma token_survives_the_transfer :
  controller (this (snd (download "u" quiet_options four_quarters fresh_session))) = Some 0%nat ∧
  controller (this (snd (download "u" quiet_options not_found fresh_session))) = Some 0%nat.
Proof. vm_compute. split; reflexivity. Qed.

(** Against C7 as stated: a transfer cancelled by [stop] on a session that
    holds a blob URL fails with [ABORTED], and that blob URL has been
    revoked and the field set to null. *)
Lemma cancellation_releases_the_handle :
  let r := download "u" quiet_options stopped_while_pending used_session in
  blobUrl (this used_session) = Some 0%nat ∧
  is_Some (blob_store (platform used_session) !! 0%nat) ∧
  fst r = Threw Cancelled AbortError ∧
  List.filter is_failed (events_since used_session (snd r)) =
    [Failed "ABORTED" "Download was stopped"] ∧
  blobUrl (this (snd r)) = None ∧
  blob_store (platform (snd r)) !! 0%nat = None.
Proof. vm_compute. repeat split; try reflexivity. eexists; reflexivity. Qed.

Lemma failed_transfer_creates_no_handle_witness :
  let s := used_session in
  let s' := snd (download "u" quiet_options not_found s) in
  let evs := events_since s s' in
  (attempt "u" quiet_options not_found s =
     (Threw HttpStatus (Error "HTTP error! status: 404"),
      snd (attempt "u" quiet_options not_found s)) ∧
   HttpStatus ≠ CallbackThrew) ∧
  count is_created evs = 0%nat ∧
  dom (blob_store (platform s')) ⊆ dom (blob_store (platform s)) ∧
  ((∀ c, ¬ In (Aborted c) evs) ->
     blobUrl (this s') = blobUrl (this s) ∧
     blob_store (platform s') = blob_store (platform s) ∧
     count is_revoked evs = 0%nat) ∧
  ((∃ c, In (Aborted c) evs) ->
     blobUrl (this s') = None ∧
     blob_store (platform s') =
       match blobUrl (this s) with
       | Some u => delete u (blob_store (platform s))
       | None => blob_store (platform s)
       end ∧
     List.filter is_revoked evs = release_events s) ∧
  (HttpStatus = Cancelled -> In (Aborted (token s)) evs).
Proof.
  cbv zeta. split; [split; [vm_compute; reflexivity|discriminate]|].
  apply (failed_transfer_creates_no_handle "u" quiet_options not_found used_session
           HttpStatus (Error "HTTP error! status: 404")
           (snd (attempt "u" quiet_options not_found used_session)));
    [vm_compute; reflexivity|discriminate].
Defined.

(** Against C8 as stated: 250 bytes under [Content-Length: 100] are
    reported as 250 percent. *)
Lemma progress_beyond_100 :
  reported (events_since fresh_session
              (snd (download "u" quiet_options oversized fresh_session))) = [of_Z 250] ∧
  leb (of_Z 250) (of_Z 100) = false.
Proof. vm_compute. split; reflexivity. Qed.

Lemma progress_within_bounds_witness :
  let resp := answer 200 (Some "1000") [chunk_of 250; chunk_of 250; chunk_of 250; chunk_of 250] in
  (network four_quarters = Respond resp ∧
   ToNumber (content_length resp) = of_Z 1000 ∧
   0 < 1000 < 2 ^ 53 ∧
   total_length (body_chunks (body resp)) <= 1000) ∧
  Forall (λ p, ∃ z, 0 <= z <= 100 ∧ p = of_Z z)
    (reported (events_since fresh_session
                 (snd (download "u" quiet_options four_quarters fresh_session)))).
Proof.
  cbv zeta. split.
  - repeat split; reflexivity || lia.
  - apply (progress_within_bounds "u" quiet_options four_quarters fresh_session
             (answer 200 (Some "1000") [chunk_of 250; chunk_of 250; chunk_of 250; chunk_of 250])
             1000); reflexivity || lia.
Defined.

Lemma no_length_no_progress_witness :
  let sc := respond 200 None [chunk_of 250; chunk_of 250] in
  (∀ r, network sc = Respond r -> content_length r = None) ∧
  reported (events_since fresh_session (snd (download "u" quiet_options sc fresh_session))) = [].
Proof.
  cbv zeta.
  assert (H : ∀ r, network (respond 200 None [chunk_of 250; chunk_of 250]) = Respond r ->
                   content_length r = None)
    by (intros r [= <-]; reflexivity).
  split; [exact H|].
  exact (no_length_no_progress "u" quiet_options _ fresh_session H).
Defined.

Lemma unusable_length_is_no_length_witness :
  let sc cl :=
    {| during_fetch := [];
       network := Respond {| status := 200; content_type := None; content_length := cl;
                             body := BodyChunk [] (chunk_of 3) (BodyDone []) |} |} in
  ("abc" = "0" ∨ StringToNumber "abc" = NaN) ∧
  truthy (ToNumber (Some "abc")) = false ∧
  download "u" quiet_options (sc (Some "abc")) fresh_session =
    download "u" quiet_options (sc None) fresh_session ∧
  reported (events_since fresh_session
              (snd (download "u" quiet_options (sc (Some "abc")) fresh_session))) = [].
Proof.
  cbv zeta.
  assert (H : "abc" = "0" ∨ StringToNumber "abc" = NaN) by (right; reflexivity).
  split; [exact H|].
  exact (unusable_length_is_no_length "u" quiet_options [] 200%nat None "abc"
           (BodyChunk [] (chunk_of 3) (BodyDone [])) fresh_session H).
Defined.

(** * Beyond the claims: the session over its lifetime *)

(** ** The opening of a transfer, spelled out *)

Section Opening.
Variables (s1 : State) (c : nat).
Hypothesis Hc : controller (this s1) = Some c.
Hypothesis Hs : signals (platform s1) !! c = Some false.

Lemma download_try_at url options sc out s2 :
  download_try url options c sc (stage s1 false []) = (out, s2) ->
  try_shape_at (opening_events url options c) options sc s1 out s2.
Proof.
  unfold download_try, try_shape_at, opening_events, request_events,
    started_events, started_stops, started_throws.
  rewrite bind_eq.
  assert (Hst :
    (match started options with
     | Some f => invoke Started f
     | None => mret ()
     end) (stage s1 false []) =
    (match started options with Some f => outcome_of f | None => Returned tt end,
     stage s1 (match started options with Some f => made_calls (calls f) | None => false end)
       (match started options with Some _ => [Started] | None => [] end ++
        stop_tail s1 (match started options with Some f => made_calls (calls f) | None => false end)))).
  { destruct (started options) as [f|]; [|reflexivity].
    by rewrite invoke_eq, record_stage, after_calls_live. }
  rewrite Hst. clear Hst.
  set (pre0 := match started options with Some _ => [Started] | None => [] end).
  set (b0 := match started options with Some f => made_calls (calls f) | None => false end).
  assert (Ho : match started options with Some f => outcome_of f | None => Returned tt end =
               match match started options with Some f => throws f | None => None end with
               | Some e => Threw CallbackThrew e
               | None => Returned tt
               end).
  { destruct (started options) as [f|]; reflexivity. }
  rewrite Ho. clear Ho.
  destruct (match started options with Some f => throws f | None => None end) as [e|] eqn:Hthrow.
  { intros [= <- <-]. left.
    exists CallbackThrew, e, b0, [], (sent sc).
    rewrite app_nil_r. cbn [loop_events app].
    repeat split; auto; try done.
    simpl. left. destruct (started options) as [f|]; [eauto|discriminate]. }
  rewrite bind_eq. unfold fetch, unless_aborted.
  rewrite aborted_stage by assumption.
  destruct b0.
  { intros [= <- <-]. left.
    exists Cancelled, AbortError, true, [], (sent sc).
    rewrite app_nil_r. cbn [loop_events app].
    repeat split; auto; done. }
  cbn [stop_tail]. rewrite app_nil_r.
  rewrite bind_eq, emit_eq, record_stage, settle_eq, after_calls_live,
    aborted_stage by assumption.
  set (pre := (pre0 ++ [Requested url (default ∅ (headers options)) c])%list).
  destruct (made_calls (during_fetch sc)).
  { intros [= <- <-]. left.
    exists Cancelled, AbortError, true, [], (sent sc).
    cbn [loop_events app].
    repeat split; auto; done. }
  cbn [stop_tail]. rewrite app_nil_r.
  unfold advertised, sent.
  destruct (network sc) as [msg|r] eqn:Hn.
  { intros [= <- <-]. left.
    exists NetworkFailure, (TypeError msg), false, [], [].
    cbn [loop_events stop_tail app]. rewrite app_nil_r.
    repeat split; eauto; done. }
  cbn [mret M_ret].
  destruct (ok r) eqn:Hok; cbn [negb].
  2:{ intros [= <- <-]. left.
      exists HttpStatus, (Error ("HTTP error! status: " +:+ pretty (status r))),
        false, [], (body_chunks (body r)).
      cbn [loop_events stop_tail app]. rewrite app_nil_r.
      repeat split; eauto; done. }
  cbv zeta.
  destruct (null_body_status (status r)) eqn:Hnull.
  { intros [= <- <-]. left.
    exists NoBody, (TypeError "Cannot read properties of null (reading 'getReader')"),
      false, [], (body_chunks (body r)).
    cbn [loop_events stop_tail app]. rewrite app_nil_r.
    repeat split; eauto; done. }
  rewrite bind_eq.
  destruct (read_loop_stage s1 c Hc Hs options (ToNumber (content_length r)) (body r) 0 [] pre)
    as (lo & b & vs & -> & [rest Hrest] & Hres).
  destruct lo as [[rl chs]|cause e]; simpl in Hres.
  - destruct Hres as (-> & -> & -> & ->). cbn [stop_tail app].
    rewrite app_nil_r, Z.add_0_l. intros Hfin. right.
    exists r. repeat split; auto.
  - intros [= <- <-]. left.
    exists cause, e, b, vs, rest.
    repeat split; eauto.
    destruct Hres as [(-> & -> & ->)|[(-> & -> & -> & m & ->)|(-> & H)]]; simpl.
    + auto.
    + unfold sent. rewrite Hn. eauto.
    + right. exact H.
Qed.
End Opening.

Lemma download_cases_at url options sc s :
  let s1 := allocated s in
  let L := advertised sc in
  let rep := reporting options L in
  let pre := opening_events url options (token s) in
  (∃ cause e b vs rest,
      attempt url options sc s =
        (Threw cause e, stage s1 b (pre ++ loop_events rep L 0 vs ++ stop_tail s1 b)) ∧
      download url options sc s =
        (rethrown options cause e,
         stage s1 (b || handler_calls options e)
           (pre ++ loop_events rep L 0 vs ++ stop_tail s1 b ++ report_events options e
                ++ stop_tail s1 (negb b && handler_calls options e))) ∧
      sent sc = (vs ++ rest)%list ∧
      early_failure options sc cause e b vs ∧
      (vs ≠ [] -> ∃ r, network sc = Respond r ∧ ok r = true)) ∨
  (∃ resp,
      network sc = Respond resp ∧ ok resp = true ∧
      attempt url options sc s =
        finish options (content_type resp) (total_length (sent sc)) (sent sc)
          (stage s1 false (pre ++ loop_events rep L 0 (sent sc)))).
Proof.
  cbv zeta.
  assert (Hshape : try_shape_at (opening_events url options (token s)) options sc
                     (allocated s) (fst (attempt url options sc s))
                     (snd (attempt url options sc s))).
  { rewrite attempt_eq.
    apply (download_try_at (allocated s) (token s) (allocated_controller s)
             (allocated_signal s) url).
    rewrite stage_nil. apply surjective_pairing. }
  destruct (attempt url options sc s) as [out s2] eqn:Ha. cbn [fst snd] in Hshape.
  destruct Hshape as [(cause & e & b & vs & rest & -> & -> & Hsent & Hearly & Hvs)
                     |(resp & Hn & Hok & Hfin)].
  - left. exists cause, e, b, vs, rest.
    split; [reflexivity|]. split; [|auto].
    rewrite download_eq, Ha, download_catch_stage. by rewrite <- !app_assoc.
  - right. exists resp. auto.
Qed.

Lemma opening_events_opening url options c :
  forallb opening (opening_events url options c) = true.
Proof.
  unfold opening_events, request_events, started_events.
  destruct (started options), (started_throws options), (started_stops options); reflexivity.
Qed.
(** ** The state a transfer leaves *)

Lemma signals_stage s1 b evs :
  signals (platform (stage s1 b evs)) =
    if b then match controller (this s1) with
              | Some c => <[c := true]> (signals (platform s1))
              | None => signals (platform s1)
              end
    else signals (platform s1).
Proof. by destruct b. Qed.

Lemma rebased_isPaused blob s1 : isPaused (this (rebased blob s1)) = isPaused (this s1).
Proof. unfold rebased, published, released. by destruct (blobUrl (this s1)). Qed.

(** Every transfer ends in a stage of the state it allocated, or of that
    state with the payload published. *)
Lemma download_state url options sc s :
  ∃ base b evs,
    snd (download url options sc s) = stage base b evs ∧
    (base = allocated s ∨ base = rebased (payload sc) (allocated s)).
Proof.
  destruct (download_cases url options sc s)
    as [(cause & e & b & pre & vs & rest & _ & -> & _)|(resp & pre & Hn & _ & _ & Ha)].
  - eexists _, _, _. split; [reflexivity|]. by left.
  - pose proof (download_completed url options sc s resp pre Hn Ha) as Hd.
    cbv zeta in Hd.
    destruct (success options) as [g|]; [destruct (throws _) as [e|]|]; rewrite Hd;
      (eexists _, _, _; split; [reflexivity|]; by right).
Qed.

Lemma download_isPaused url options sc s :
  isPaused (this (snd (download url options sc s))) = isPaused (this s).
Proof.
  destruct (download_state url options sc s) as (base & b & evs & -> & [->| ->]);
    rewrite this_stage; destruct b; cbn [isPaused]; by rewrite ?rebased_isPaused.
Qed.

Lemma download_signals url options sc s c :
  c ≠ token s ->
  signals (platform (snd (download url options sc s))) !! c = signals (platform s) !! c.
Proof.
  intros Hne.
  assert (Ha : signals (platform (allocated s)) !! c = signals (platform s) !! c).
  { change (signals (platform (allocated s))) with (<[token s := false]> (signals (platform s))).
    by rewrite lookup_insert_ne. }
  destruct (download_state url options sc s) as (base & b & evs & -> & [->| ->]);
    rewrite signals_stage, ?rebased_controller, ?rebased_signals, allocated_controller;
    destruct b; by rewrite ?lookup_insert_ne.
Qed.

Lemma download_controller url options sc s :
  let s' := snd (download url options sc s) in
  controller (this s') = None ∨
  controller (this s') = Some (token s) ∧ signals (platform s') !! token s = Some false.
Proof.
  cbv zeta.
  destruct (download_state url options sc s) as (base & b & evs & -> & [->| ->]);
    rewrite this_stage, signals_stage;
    (destruct b; [by left|right]);
    by rewrite ?rebased_controller, ?rebased_signals, allocated_controller, allocated_signal.
Qed.

Lemma fresh_url_without s : without_handle s !! fresh_url s = None.
Proof.
  destruct (fresh_url_spec s) as (Hd & _ & Hne).
  apply not_elem_of_dom in Hd. unfold without_handle.
  destruct (blobUrl (this s)) as [h|]; [|exact Hd].
  rewrite lookup_delete_ne by congruence. exact Hd.
Qed.

Lemma fresh_url_allocated s : fresh_url (allocated s) = fresh_url s.
Proof.
  unfold fresh_url, released.
  change (blobUrl (this (allocated s))) with (blobUrl (this s)).
  by destruct (blobUrl (this s)).
Qed.

Lemma download_store url options sc s :
  let s' := snd (download url options sc s) in
  (blobUrl (this s') = blobUrl (this s) ∧
   blob_store (platform s') = blob_store (platform s) ∧
   revoked (platform s') = revoked (platform s)) ∨
  (blobUrl (this s') = None ∧ blob_store (platform s') = without_handle s) ∨
  (∃ u blob,
     blobUrl (this s') = Some u ∧
     blob_store (platform s') = <[u := blob]> (without_handle s) ∧
     blob_store (platform s) !! u = None ∧
     blobUrl (this s) ≠ Some u ∧
     (u ∉ revoked (platform s'))).
Proof.
  cbv zeta.
  pose proof (fresh_url_spec s) as (Hd & Hr & Hne).
  pose proof (fresh_url_without s) as Hw.
  rewrite <- fresh_url_allocated in Hd, Hr, Hne, Hw.
  destruct (download_state url options sc s) as (base & b & evs & -> & [->| ->]);
    rewrite this_stage, blob_store_stage, revoked_stage; destruct b; cbn [blobUrl].
  - right. left. done.
  - left. done.
  - right. left. split; [done|].
    rewrite rebased_blobUrl, rebased_blob_store.
    change (match blobUrl (this (allocated s)) with
            | Some h => delete h (blob_store (platform (allocated s)))
            | None => blob_store (platform (allocated s))
            end) with (without_handle s).
    rewrite delete_insert_eq. by apply delete_id.
  - right. right. exists (fresh_url (allocated s)), (payload sc).
    rewrite rebased_blobUrl, rebased_blob_store, rebased_revoked.
    split; [done|]. split; [done|].
    split; [by apply not_elem_of_dom|]. split; [done|].
    change (blobUrl (this (allocated s))) with (blobUrl (this s)).
    change (revoked (platform (allocated s))) with (revoked (platform s)).
    destruct (blobUrl (this s)) as [h|]; [|done].
    rewrite not_elem_of_union, not_elem_of_singleton. split; [congruence|done].
Qed.
(** ** Invariants of a session *)

Lemma run_invariant (P : State -> Prop) :
  (∀ o s, P s -> P (step o s)) -> ∀ ops s, P s -> P (run ops s).
Proof. intros Hstep ops. induction ops as [|o ops IH]; simpl; auto. Qed.

Lemma step_stop s : step OpStop s = halted s.
Proof. unfold step. by rewrite stop_eq. Qed.

Lemma step_cleanup s : step OpCleanup s = halted s.
Proof. unfold step. by rewrite cleanup_eq. Qed.

(** X1.  No operation of the class writes the [isPaused] field: after any
    sequence of transfers, stops and cleanups it is what it was, and on a
    session made by the constructor it is [false] for ever. *)
Theorem pause_flag_never_changes (ops : list Op) :
  (∀ s, isPaused (this (run ops s)) = isPaused (this s)) ∧
  (∀ p, isPaused (this (run ops (new_Downloader p))) = false).
Proof.
  assert (H : ∀ s, isPaused (this (run ops s)) = isPaused (this s)).
  { intros s.
    apply (run_invariant (λ s', isPaused (this s') = isPaused (this s))); [|reflexivity].
    intros [url options sc| |] s' <-.
    - apply download_isPaused.
    - by rewrite step_stop.
    - by rewrite step_cleanup. }
  split; [exact H|]. intros p. by rewrite H.
Qed.

Lemma without_handle_lookup p s k :
  one_blob p s -> without_handle s !! k = blob_store p !! k.
Proof.
  intros [H1 H2]. unfold without_handle.
  destruct (blobUrl (this s)) as [h|] eqn:Hh.
  - destruct (decide (k = h)) as [->|Hne].
    + rewrite lookup_delete_eq. symmetry. by apply H2.
    + rewrite lookup_delete_ne by done. apply H1. congruence.
  - by apply H1.
Qed.

Lemma one_blob_halted p s : one_blob p s -> one_blob p (halted s).
Proof.
  intros H. split.
  - intros k _. change (blob_store (platform (halted s))) with (without_handle s).
    by apply without_handle_lookup.
  - intros u Hu. discriminate Hu.
Qed.

Lemma one_blob_download p url options sc s :
  one_blob p s -> one_blob p (snd (download url options sc s)).
Proof.
  intros H.
  destruct (download_store url options sc s)
    as [(Hb & Hs & Hr)|[(Hb & Hs)|(u & blob & Hb & Hs & Hu & Hne & Hr)]].
  - destruct H as [H1 H2]. split.
    + intros k. rewrite Hb, Hs. apply H1.
    + intros u. rewrite Hb, Hs, Hr. apply H2.
  - split.
    + intros k _. rewrite Hs. by apply without_handle_lookup.
    + intros u. rewrite Hb. discriminate.
  - split.
    + intros k. rewrite Hb, Hs. intros Hk.
      rewrite lookup_insert_ne by congruence. by apply without_handle_lookup.
    + intros u'. rewrite Hb, Hs. intros [= <-].
      split; [|split; [|exact Hr]].
      * destruct H as [H1 _]. rewrite <- H1 by exact Hne. exact Hu.
      * rewrite lookup_insert_eq. eauto.
Qed.

(** X2.  Whatever transfers, stops and cleanups the page performs on a
    session, the blob URL store differs from the one the session was created
    in by at most one entry: the blob URL the session holds, which is
    registered and not revoked.  Every other blob URL it created is gone. *)
Theorem session_keeps_one_blob (ops : list Op) (p : Platform) :
  let s := run ops (new_Downloader p) in
  (∀ k, blobUrl (this s) ≠ Some k -> blob_store (platform s) !! k = blob_store p !! k) ∧
  (∀ u, blobUrl (this s) = Some u ->
        blob_store p !! u = None ∧
        is_Some (blob_store (platform s) !! u) ∧
        (u ∉ revoked (platform s))).
Proof.
  cbv zeta. apply (run_invariant (one_blob p)).
  - intros [url options sc| |] s H.
    + by apply one_blob_download.
    + rewrite step_stop. by apply one_blob_halted.
    + rewrite step_cleanup. by apply one_blob_halted.
  - split; [done|]. intros u Hu. discriminate Hu.
Qed.

Lemma own_tokens_halted p s : own_tokens p s -> own_tokens p (halted s).
Proof.
  intros [H1 H2]. split.
  - intros c Hc. unfold halted. cbn [signals platform].
    destruct (controller (this s)) as [c'|] eqn:Hc'; [|by apply H1].
    destruct (H2 c' eq_refl) as [Hn _].
    rewrite lookup_insert_ne by (intros ->; contradiction). by apply H1.
  - intros c Hc. discriminate Hc.
Qed.

Lemma own_tokens_download p url options sc s :
  own_tokens p s -> own_tokens p (snd (download url options sc s)).
Proof.
  intros [H1 H2].
  assert (Hfresh : token s ∉ dom (signals p)).
  { intros Hin. apply (token_fresh s). apply elem_of_dom.
    rewrite (H1 _ Hin). by apply elem_of_dom. }
  split.
  - intros c Hc. rewrite download_signals; [by apply H1|].
    intros ->. contradiction.
  - intros c Hc.
    destruct (download_controller url options sc s) as [Hn|[Hs Hf]]; [congruence|].
    rewrite Hs in Hc. injection Hc as <-. done.
Qed.

(** X3.  A session signals no abort controller but those it allocated
    itself: every controller that existed when the session was created is
    as it was, after any sequence of transfers, stops and cleanups; and the
    controller the session holds, if any, is one of its own that has not
    been aborted. *)
Theorem session_aborts_only_its_tokens (ops : list Op) (p : Platform) :
  let s := run ops (new_Downloader p) in
  (∀ c, c ∈ dom (signals p) -> signals (platform s) !! c = signals p !! c) ∧
  (∀ c, controller (this s) = Some c ->
        (c ∉ dom (signals p)) ∧ aborted (platform s) c = false).
Proof.
  cbv zeta.
  assert (H : own_tokens p (run ops (new_Downloader p))).
  { apply (run_invariant (own_tokens p)).
    - intros [url options sc| |] s H.
      + by apply own_tokens_download.
      + rewrite step_stop. by apply own_tokens_halted.
      + rewrite step_cleanup. by apply own_tokens_halted.
    - split; [done|]. intros c Hc. discriminate Hc. }
  destruct H as [H1 H2]. split; [exact H1|].
  intros c Hc. destruct (H2 c Hc) as [Hn Hf]. split; [exact Hn|].
  unfold aborted. by rewrite Hf.
Qed.
(** ** [String.prototype.download] *)

Lemma rethrown_threw options cause e : ∃ c' e', rethrown options cause e = Threw c' e'.
Proof.
  unfold rethrown. destruct (failed options) as [f|]; [destruct (throws _)|]; eauto.
Qed.

Lemma download_returned url options sc s r :
  fst (download url options sc s) = Returned r ->
  blobUrl (this (snd (download url options sc s))) = r.
Proof.
  destruct (download_cases url options sc s)
    as [(cause & e & b & pre & vs & rest & _ & -> & _)|(resp & pre & Hn & _ & _ & Ha)].
  - cbn [fst]. destruct (rethrown_threw options cause e) as (c' & e' & ->). discriminate.
  - pose proof (download_completed url options sc s resp pre Hn Ha) as Hd.
    cbv zeta in Hd.
    destruct (success options) as [g|]; [destruct (throws _) as [e|]|]; rewrite Hd;
      cbn [fst snd]; rewrite this_stage.
    + destruct (rethrown_threw options CallbackThrew e) as (c' & e' & ->). discriminate.
    + intros [= <-]. destruct (made_calls _); [done|]. apply rebased_blobUrl.
    + intros [= <-]. apply rebased_blobUrl.
Qed.

(** X4.  [String.prototype.download] on a new session: when the transfer
    is fulfilled the session is left as [download] left it, holding the
    blob URL the transfer resolved with; when it is rejected, [cleanup] has
    run: both fields are null, the token of the transfer is aborted, and no
    blob of the transfer remains in the store. *)
Theorem string_download_settles url options sc (p : Platform) :
  let s := String_download url options sc p in
  let r := download url options sc (new_Downloader p) in
  match fst r with
  | Returned u => s = snd r ∧ blobUrl (this s) = u
  | Threw _ _ =>
      controller (this s) = None ∧
      blobUrl (this s) = None ∧
      blob_store (platform s) = blob_store p ∧
      aborted (platform s) (token (new_Downloader p)) = true
  end.
Proof.
  cbv zeta. unfold String_download.
  change {| this := constructor; platform := p |} with (new_Downloader p).
  pose proof (download_returned url options sc (new_Downloader p)) as Hret.
  destruct (download_state url options sc (new_Downloader p))
    as (base & b & evs & Hst & Hbase).
  destruct (download url options sc (new_Downloader p)) as [[u|cause e] s'];
    cbn [fst snd] in *.
  - split; [reflexivity|]. by apply Hret.
  - rewrite cleanup_eq. cbn [snd]. subst s'.
    rewrite halted_stage, this_stage, blob_store_stage.
    pose proof (allocated_controller (new_Downloader p)) as Hc.
    pose proof (allocated_signal (new_Downloader p)) as Hs.
    split; [done|]. split; [done|].
    destruct Hbase as [->| ->].
    + split; [done|]. by apply aborted_stage.
    + rewrite rebased_blobUrl, rebased_blob_store. split.
      * rewrite delete_insert_eq. apply delete_id.
        destruct (fresh_url_spec (allocated (new_Downloader p))) as (Hd & _).
        by apply not_elem_of_dom in Hd.
      * apply aborted_stage; by rewrite ?rebased_controller, ?rebased_signals.
Qed.

(** ** The opening of a transfer *)

Lemma forallb_not_opening (g : Event -> bool) l :
  (∀ e, g e = true -> opening e = false) ->
  forallb g l = true -> forallb (λ e, negb (opening e)) l = true.
Proof.
  intros Hg. rewrite !forallb_forall. intros H e He.
  by rewrite (Hg e (H e He)).
Qed.

Ltac closing :=
  rewrite ?forallb_app;
  repeat (apply andb_true_intro; split);
  first
    [ reflexivity
    | eapply (forallb_not_opening streaming); [by intros []|apply loop_events_streaming]
    | eapply (forallb_not_opening lifecycle);
      [by intros []|first [apply stop_tail_lifecycle|apply release_events_lifecycle]]
    | eapply (forallb_not_opening is_failed); [by intros []|apply report_events_failed] ].

(** X5.  Every transfer opens the same way: the [started] callback, if
    given, is invoked first, and then one request is made for the url, with
    the headers of the options (none when absent) and the signal of the
    token allocated for this transfer - unless the [started] callback threw
    or stopped the session, in which case no request is made.  Nothing of
    the kind happens later in the transfer. *)
Theorem transfer_opening url options sc s :
  ∃ post,
    events_since s (snd (download url options sc s)) =
      (opening_events url options (token s) ++ post)%list ∧
    forallb (λ e, negb (opening e)) post = true.
Proof.
  destruct (download_cases_at url options sc s)
    as [(cause & e & b & vs & rest & _ & -> & _)|(resp & Hn & _ & Ha)]; cbn [snd].
  - rewrite events_since_stage. eexists. split; [reflexivity|]. closing.
  - pose proof (download_completed url options sc s resp _ Hn Ha) as Hd.
    cbv zeta in Hd.
    destruct (success options) as [g|]; [destruct (throws _) as [e|]|]; rewrite Hd;
      cbn [snd]; rewrite events_since_based by reflexivity;
      rewrite <- ?app_assoc; (eexists; split; [reflexivity|]); closing.
Qed.
(** ** Cancellation *)


Lemma stop_tail_stopped s1 c :
  controller (this s1) = Some c -> stop_tail s1 true = Aborted c :: release_events s1.
Proof. intros H. unfold stop_tail, stop_events, release_events. by rewrite H. Qed.







(** ** What a transfer reads and reports *)

(** X7.  When the server does not answer with a success status - there is
    no response at all, or its status is outside 200-299 - [download] is
    rejected, and the body is never touched: no chunk is read, no progress
    and no success is reported, no blob URL is created. *)
Theorem error_response_is_not_read url options sc s :
  (∀ r, network sc = Respond r -> ok r = false) ->
  let r := download url options sc s in
  let evs := events_since s (snd r) in
  received evs = [] ∧
  reported evs = [] ∧
  count is_created evs = 0%nat ∧
  count is_success evs = 0%nat ∧
  ∃ cause e, fst r = Threw cause e.
Proof.
  intros Hbad. cbv zeta.
  destruct (download_cases_at url options sc s)
    as [(cause & e & b & vs & rest & _ & -> & _ & _ & Hvs)|(resp & Hn & Hok & _)]; cbn [fst snd].
  - assert (vs = []) as ->.
    { destruct vs as [|v vs]; [reflexivity|].
      destruct Hvs as (r & Hn & Hok); [done|]. by rewrite (Hbad r Hn) in Hok. }
    pose proof (opening_events_opening url options (token s)) as Hpre.
    rewrite events_since_stage. cbn [loop_events app].
    rewrite <- received_filter, <- reported_filter. unfold count. sift.
    repeat split; try reflexivity. apply rethrown_threw.
  - by rewrite (Hbad resp Hn) in Hok.
Qed.

(** X8.  In every run of [download], completed or not: the chunks read are
    an initial part of the chunks of the body, in order; and when the
    coerced [Content-Length] is truthy and a progress callback is given,
    exactly one percentage is reported per chunk read, computed from the
    bytes received so far - otherwise none is. *)
Theorem progress_per_chunk_read url options sc s :
  let evs := events_since s (snd (download url options sc s)) in
  (∃ rest, sent sc = (received evs ++ rest)%list) ∧
  reported evs =
    (if reporting options (advertised sc)
     then (λ r, percentage r (advertised sc)) <$> cumulative 0 (received evs)
     else []) ∧
  length (reported evs) =
    (if reporting options (advertised sc) then length (received evs) else 0%nat).
Proof.
  cbv zeta.
  destruct (download_reported url options sc s) as (vs & rest & Hsent & -> & ->).
  split; [eauto|]. split; [reflexivity|].
  destruct (reporting options (advertised sc)); [|reflexivity].
  rewrite length_fmap. clear. generalize 0.
  induction vs as [|v vs IH]; intros from; simpl; [reflexivity|]. by rewrite IH.
Qed.

(** ** Assembling the payload *)

Lemma typed_array_set_fits (filled rest chunk : list byte) :
  (length chunk <= length rest)%nat ->
  typed_array_set (filled ++ rest) chunk (length filled) =
    Some (filled ++ chunk ++ drop (length chunk) rest)%list.
Proof.
  intros Hle. unfold typed_array_set.
  rewrite length_app.
  destruct (Nat.leb_spec (length filled + length chunk) (length filled + length rest)); [|lia].
  f_equal. rewrite take_app_length. f_equal. f_equal.
  rewrite drop_app_ge by lia. f_equal. lia.
Qed.

Lemma typed_array_set_overflow (allChunks chunk : list byte) position :
  (length allChunks < position + length chunk)%nat ->
  typed_array_set allChunks chunk position = None.
Proof.
  intros Hlt. unfold typed_array_set.
  by destruct (Nat.leb_spec (position + length chunk) (length allChunks)); [lia|].
Qed.

Lemma copy_chunks_spec chunks :
  ∀ filled rest,
    copy_chunks (filled ++ rest) (length filled) chunks =
      if (length (concat chunks) <=? length rest)%nat
      then Some (filled ++ concat chunks ++ drop (length (concat chunks)) rest)%list
      else None.
Proof.
  induction chunks as [|chunk chunks IH]; intros filled rest; cbn [copy_chunks concat].
  - simpl. by rewrite drop_0.
  - rewrite length_app.
    destruct (Nat.leb_spec (length chunk) (length rest)) as [Hle|Hgt].
    + rewrite typed_array_set_fits by exact Hle.
      rewrite app_assoc, <- (length_app filled chunk), IH.
      rewrite length_drop.
      destruct (Nat.leb_spec (length (concat chunks)) (length rest - length chunk)),
               (Nat.leb_spec (length chunk + length (concat chunks)) (length rest));
        try lia; [|reflexivity].
      by rewrite <- !app_assoc, drop_drop.
    + rewrite typed_array_set_overflow by (rewrite length_app; lia).
      by destruct (Nat.leb_spec (length chunk + length (concat chunks)) (length rest)); [lia|].
Qed.

(** X9.  Lines 94-100, copying the chunks into [new Uint8Array(n)]: when
    the chunks hold at most [n] bytes the array ends up holding the chunks
    one after the other, in order, followed by the zero bytes that were not
    overwritten; when they hold more, the copy overflows and a [RangeError]
    is thrown. *)
Theorem combine_fills_or_overflows (n : nat) (chunks : list (list byte)) (s : State) :
  combine (Z.of_nat n) chunks s =
    if (length (concat chunks) <=? n)%nat
    then (Returned (concat chunks ++ replicate (n - length (concat chunks)) x00)%list, s)
    else (Threw OutOfRange
            {| err_name := "RangeError"; err_message := "offset is out of bounds" |}, s).
Proof.
  unfold combine. rewrite Nat2Z.id.
  pose proof (copy_chunks_spec chunks [] (replicate n x00)) as H.
  cbn [app length] in H. rewrite H, length_replicate, drop_replicate.
  by destruct (length (concat chunks) <=? n)%nat.
Qed.

(** X10.  The byte counter of the read loop always equals the number of
    bytes in the chunks kept, so the copy into the [Uint8Array] never
    overflows: neither the [try] block nor [download] ever fails with the
    [RangeError] of [allChunks.set]. *)
Theorem copy_never_overflows url options sc s (e : JsError) :
  fst (attempt url options sc s) ≠ Threw OutOfRange e ∧
  fst (download url options sc s) ≠ Threw OutOfRange e.
Proof.
  assert (Hre : ∀ cause e0, cause ≠ OutOfRange ->
                  rethrown options cause e0 ≠ Threw OutOfRange e).
  { intros cause e0 Hne. unfold rethrown.
    destruct (failed options) as [f|]; [destruct (throws _)|]; congruence. }
  destruct (download_cases url options sc s)
    as [(cause & e0 & b & pre & vs & rest & -> & -> & _ & _ & Hearly)
       |(resp & pre & Hn & _ & _ & Ha)]; cbn [fst].
  - assert (cause ≠ OutOfRange) by (intros ->; exact Hearly).
    split; [congruence|by apply Hre].
  - pose proof (download_completed url options sc s resp pre Hn Ha) as Hd.
    cbv zeta in Hd. split.
    + clear Hd. rewrite Ha, finish_eq. cbv zeta.
      destruct (success options) as [g|]; [destruct (throws _)|]; cbn [fst]; discriminate.
    + destruct (success options) as [g|]; [destruct (throws _) as [e1|]|]; rewrite Hd;
        cbn [fst]; try discriminate. by apply Hre.
Qed.

(** ** The [catch] block *)

(** ** The accuracy of the percentage *)

(** X12.  The percentage [Math.round((receivedLength / contentLength) *
    100)] as binary64 arithmetic computes it, for a total length [L] below
    [2^53] and a byte count from [0] to [L]: it is an integer, and it lies
    within [1/2 + 2^-45] of the exact value [100 * r / L].  So it is the
    exact percentage rounded to the nearest integer, except possibly when
    that exact value is within [2^-45] of a half-integer. *)
Theorem percentage_is_accurate (r L : Z) :
  0 < L < 2 ^ 53 -> 0 <= r <= L ->
  ∃ p : Z,
    percentage r (of_Z L) = of_Z p ∧
    (Rabs (IZR p - 100 * (IZR r / IZR L)) <= / 2 + bpow (-45))%R.
Proof.
  intros HL Hr. exists (percent_Z r L).
  split; [apply percentage_of_Z; lia|].
  pose proof (bpow_pos (-45)) as H45.
  destruct (decide (r = 0)) as [->|Hne].
  - rewrite percent_Z_zero by exact HL.
    unfold Rdiv. rewrite !Rmult_0_l, Rmult_0_r, Rminus_0_r, Rabs_R0. lra.
  - pose proof (scaled_error r L HL ltac:(lia)) as Hs.
    pose proof (percent_Z_floor L HL r ltac:(lia)) as Hp.
    apply Rabs_le_bounds in Hs. apply Rabs_le. lra.
Qed.
(** X13.  With an advertised total length [L] that the body does not
    exceed, progress never goes backwards: in every run, interrupted or
    not, a percentage reported earlier is at most any percentage reported
    later. *)
Theorem progress_never_decreases url options sc s resp L :
  network sc = Respond resp ->
  ToNumber (content_length resp) = of_Z L ->
  0 < L < 2 ^ 53 ->
  total_length (body_chunks (body resp)) <= L ->
  let ps := reported (events_since s (snd (download url options sc s))) in
  ∀ i j p q, (i <= j)%nat -> ps !! i = Some p -> ps !! j = Some q -> leb p q = true.
Proof.
  intros Hn HL HLr Htotal. cbv zeta.
  destruct (download_reported url options sc s) as (vs & rest & Hsent & _ & ->).
  assert (Ha : advertised sc = of_Z L) by (unfold advertised; by rewrite Hn).
  unfold sent in Hsent. rewrite Hn in Hsent. rewrite Hsent, total_length_app in Htotal.
  pose proof (total_length_nonneg rest).
  destruct (reporting options (advertised sc)); [|intros i j p q _ Hi; by rewrite lookup_nil in Hi].
  rewrite Ha. intros i j p q Hij. rewrite !list_lookup_fmap.
  destruct (cumulative 0 vs !! i) as [r1|] eqn:H1; [|done].
  destruct (cumulative 0 vs !! j) as [r2|] eqn:H2; [|done].
  intros [= <-] [= <-].
  pose proof (cumulative_lookup_ge vs 0 i r1 H1).
  pose proof (cumulative_lookup_total vs 0 j r2 H2).
  pose proof (cumulative_lookup_le vs 0 i j r1 r2 Hij H1 H2).
  rewrite !percentage_of_Z by lia.
  pose proof (percent_Z_bounds L HLr r1 ltac:(lia)).
  pose proof (percent_Z_bounds L HLr r2 ltac:(lia)).
  apply leb_small; try lia. apply percent_Z_mono; lia.
Qed.

(** ** A transfer that nothing disturbs *)

Lemma not_made_calls cs : negb (made_calls cs) = true -> cs = [].
Proof. by destruct cs. Qed.

Section Calm.
Variables (s1 : State) (c : nat).
Hypothesis Hc : controller (this s1) = Some c.
Hypothesis Hs : signals (platform s1) !! c = Some false.

Lemma report_calm options L n evs :
  (∀ f p, progress options = Some f -> silent (f p)) ->
  (if truthy L
   then match progress options with
        | Some f => invoke (Progress (percentage n L)) (f (percentage n L))
        | None => mret tt
        end
   else mret tt) (stage s1 false evs) =
    (Returned tt,
     stage s1 false (evs ++ if reporting options L then [Progress (percentage n L)] else [])).
Proof.
  intros Hp. unfold reporting.
  destruct (truthy L); cbn [andb]; [|by rewrite app_nil_r].
  destruct (progress options) as [f|] eqn:Hf; [|by rewrite app_nil_r].
  destruct (Hp f (percentage n L) eq_refl) as [Hcalls Hthrows].
  rewrite invoke_eq, record_stage. unfold outcome_of. by rewrite Hcalls, Hthrows.
Qed.

Lemma read_loop_calm options L body :
  (∀ f p, progress options = Some f -> silent (f p)) ->
  calm_body body = true ->
  ∀ rl chs evs,
    read_loop options c L body rl chs (stage s1 false evs) =
      (Returned (rl + total_length (body_chunks body), (chs ++ body_chunks body)%list),
       stage s1 false (evs ++ loop_events (reporting options L) L rl (body_chunks body))).
Proof.
  intros Hp.
  induction body as [inter v rest IH|inter|inter msg]; intros Hcalm rl chs evs;
    cbn [read_loop body_chunks calm_body] in *; [| |discriminate].
  - apply andb_prop in Hcalm as [->%not_made_calls Hrest].
    rewrite settle_eq. cbn [after_calls]. rewrite aborted_stage by assumption.
    rewrite bind_eq, emit_eq, record_stage. cbv zeta.
    rewrite bind_eq, (report_calm options L _ _ Hp), (IH Hrest).
    cbn [loop_events]. rewrite total_length_cons, <- !app_assoc. cbn [app].
    by rewrite Z.add_assoc.
  - apply not_made_calls in Hcalm as ->.
    rewrite settle_eq. cbn [after_calls]. rewrite aborted_stage by assumption.
    cbn [mret M_ret loop_events]. by rewrite !app_nil_r, Z.add_0_r.
Qed.

Lemma download_try_calm url options sc resp :
  calm options ->
  during_fetch sc = [] ->
  network sc = Respond resp ->
  ok resp = true ->
  null_body_status (status resp) = false ->
  calm_body (body resp) = true ->
  download_try url options c sc (stage s1 false []) =
    finish options (content_type resp) (total_length (sent sc)) (sent sc)
      (stage s1 false
         (started_events options ++ [Requested url (default ∅ (headers options)) c] ++
          loop_events (reporting options (advertised sc)) (advertised sc) 0 (sent sc))).
Proof.
  intros (Hst & Hp & _) Hd Hn Hok Hnull Hbody.
  unfold download_try, started_events, sent, advertised. rewrite Hn.
  rewrite bind_eq.
  assert (Hstart :
    (match started options with
     | Some f => invoke Started f
     | None => mret ()
     end) (stage s1 false []) =
    (Returned tt, stage s1 false (match started options with Some _ => [Started] | None => [] end))).
  { destruct (started options) as [f|] eqn:Hf; [|reflexivity].
    destruct (Hst f eq_refl) as [Hcalls Hthrows].
    rewrite invoke_eq, record_stage. unfold outcome_of. by rewrite Hcalls, Hthrows. }
  rewrite Hstart, bind_eq, fetch_eq, aborted_stage by assumption.
  cbv zeta. rewrite Hd. cbn [after_calls]. rewrite record_stage, aborted_stage by assumption.
  rewrite Hn, Hok. cbn [negb]. cbv zeta. rewrite Hnull.
  rewrite bind_eq, (read_loop_calm options _ _ Hp Hbody). cbn [app].
  by rewrite Z.add_0_l, <- app_assoc.
Qed.
End Calm.

(** X15.  A transfer that nothing disturbs succeeds.  When the server
    answers with a success status that is not a null body status (204 and
    205 are), the body ends without an error, the page calls neither [stop]
    nor [cleanup] while the transfer is pending, and the callbacks given
    neither throw nor call back into the session, then [download] - on a
    session in any state - resolves with a new blob URL and stores that URL
    in the session.  Behind it is registered the blob made of the whole
    body, constructed with the value of the response's content-type header
    as its [type] option.  Every chunk was read, nothing was aborted, and
    the [failed] callback was not invoked. *)
Theorem undisturbed_transfer_succeeds url options sc s resp :
  calm options ->
  during_fetch sc = [] ->
  network sc = Respond resp ->
  ok resp = true ->
  null_body_status (status resp) = false ->
  calm_body (body resp) = true ->
  let r := download url options sc s in
  let evs := events_since s (snd r) in
  ∃ u,
    fst r = Returned (Some u) ∧
    blobUrl (this (snd r)) = Some u ∧
    blob_store (platform (snd r)) !! u =
      Some {| blob_bytes := concat (body_chunks (body resp));
              blob_type := content_type resp |} ∧
    blob_store (platform s) !! u = None ∧
    received evs = body_chunks (body resp) ∧
    count is_failed evs = 0%nat ∧
    count is_aborted evs = 0%nat.
Proof.
  intros Hcalm Hd Hn Hok Hnull Hbody. cbv zeta.
  pose proof (download_try_calm (allocated s) (token s) (allocated_controller s)
                (allocated_signal s) url options sc resp Hcalm Hd Hn Hok Hnull Hbody) as Ha.
  rewrite stage_nil, <- attempt_eq, app_assoc in Ha.
  assert (Hopen : forallb opening
            (started_events options ++ [Requested url (default ∅ (headers options)) (token s)])
          = true).
  { unfold started_events. by destruct (started options). }
  revert Ha Hopen.
  generalize (started_events options ++ [Requested url (default ∅ (headers options)) (token s)])%list.
  intros pre Ha Hopen.
  pose proof (download_completed url options sc s resp _ Hn Ha) as Hdone.
  cbv zeta in Hdone.
  assert (Hpay : payload sc = {| blob_bytes := concat (body_chunks (body resp));
                                 blob_type := content_type resp |}).
  { unfold payload, sent. by rewrite Hn. }
  assert (Hsent : sent sc = body_chunks (body resp)) by (unfold sent; by rewrite Hn).
  exists (fresh_url (allocated s)).
  destruct (fresh_url_spec s) as (Hfresh & _). rewrite <- fresh_url_allocated in Hfresh.
  apply not_elem_of_dom in Hfresh.
  destruct Hcalm as (_ & _ & Hsucc).
  destruct (success options) as [g|] eqn:Hg.
  - destruct (Hsucc g (fresh_url (allocated s)) (content_type resp) eq_refl) as [Hcalls Hthrows].
    rewrite Hthrows, Hcalls in Hdone. cbn [made_calls stop_tail] in Hdone.
    rewrite Hdone. cbn [fst snd].
    rewrite this_stage, blob_store_stage, rebased_blobUrl, rebased_blob_store,
      lookup_insert_eq, events_since_based, Hpay by reflexivity.
    rewrite <- received_filter. unfold count. sift.
    rewrite (filter_all _ _ (loop_events_streaming _ _ _ _)), ?app_nil_r.
    by rewrite received_loop_events, Hsent.
  - rewrite Hdone. cbn [fst snd].
    rewrite this_stage, blob_store_stage, rebased_blobUrl, rebased_blob_store,
      lookup_insert_eq, events_since_based, Hpay by reflexivity.
    rewrite <- received_filter. unfold count. sift.
    rewrite (filter_all _ _ (loop_events_streaming _ _ _ _)), ?app_nil_r.
    by rewrite received_loop_events, Hsent.
Qed.
(** X16.  [stop] while the request is pending.  When the page calls
    [stop] or [cleanup] before [fetch] has settled - the [started]
    callback, if given, having returned quietly - the transfer consists of
    the request, the abort of its token and the release of the blob URL the
    session held, and is then reported as [ABORTED]: nothing is read, and
    [download] rejects with the [AbortError] unless the [failed] callback
    throws an error of its own.  Both fields of the session end up null. *)
Theorem stop_while_pending_aborts url options sc s :
  (∀ f, started options = Some f -> silent f) ->
  during_fetch sc ≠ [] ->
  let r := download url options sc s in
  events_since s (snd r) =
    (started_events options ++
     [Requested url (default ∅ (headers options)) (token s); Aborted (token s)] ++
     release_events s ++
     match failed options with
     | Some _ => [Failed "ABORTED" "Download was stopped"]
     | None => []
     end)%list ∧
  fst r = match failed options with
          | Some f =>
              match throws (f "ABORTED" "Download was stopped") with
              | Some e' => Threw CallbackThrew e'
              | None => Threw Cancelled AbortError
              end
          | None => Threw Cancelled AbortError
          end ∧
  controller (this (snd r)) = None ∧
  blobUrl (this (snd r)) = None.
Proof.
  intros Hst Hd. cbv zeta.
  pose proof (allocated_controller s) as Hc.
  pose proof (allocated_signal s) as Hs.
  assert (Hmade : made_calls (during_fetch sc) = true) by (by destruct (during_fetch sc)).
  assert (Ha : attempt url options sc s =
               (Threw Cancelled AbortError,
                stage (allocated s) true
                  (started_events options ++
                   [Requested url (default ∅ (headers options)) (token s)] ++
                   stop_tail (allocated s) true))).
  { rewrite attempt_eq, <- (stage_nil (allocated s)) at 1.
    unfold download_try. rewrite bind_eq.
    assert (Hstart :
      (match started options with
       | Some f => invoke Started f
       | None => mret ()
       end) (stage (allocated s) false []) =
      (Returned tt, stage (allocated s) false (started_events options))).
    { unfold started_events.
      destruct (started options) as [f|] eqn:Hf; [|reflexivity].
      destruct (Hst f eq_refl) as [Hcalls Hthrows].
      rewrite invoke_eq, record_stage. unfold outcome_of. by rewrite Hcalls, Hthrows. }
    rewrite Hstart, bind_eq, fetch_eq, aborted_stage by assumption.
    cbv zeta. rewrite record_stage, after_calls_live, Hmade, aborted_stage by assumption.
    by rewrite <- app_assoc. }
  rewrite download_eq, Ha, download_catch_stage. cbn [fst snd orb negb andb].
  rewrite events_since_stage, this_stage, (stop_tail_stopped _ _ Hc).
  cbn [stop_tail]. rewrite app_nil_r.
  change (release_events (allocated s)) with (release_events s).
  unfold report_events, rethrown. cbn [failure_report].
  split; [by rewrite <- !app_assoc|]. split; [|done].
  destruct (failed options) as [f|]; [|reflexivity]. by destruct (throws _).
Qed.
(** ** Sample runs of the properties above *)


Lemma error_response_is_not_read_witness :
  let r := download "u" quiet_options not_found fresh_session in
  let evs := events_since fresh_session (snd r) in
  (∀ resp, network not_found = Respond resp -> ok resp = false) ∧
  received evs = [] ∧
  reported evs = [] ∧
  count is_created evs = 0%nat ∧
  count is_success evs = 0%nat ∧
  ∃ cause e, fst r = Threw cause e.
Proof.
  cbv zeta.
  assert (H : ∀ resp, network not_found = Respond resp -> ok resp = false)
    by (intros resp [= <-]; reflexivity).
  split; [exact H|].
  exact (error_response_is_not_read "u" quiet_options not_found fresh_session H).
Defined.


Lemma percentage_is_accurate_witness :
  (0 < 200 < 2 ^ 53 ∧ 0 <= 29 <= 200) ∧
  ∃ p : Z,
    percentage 29 (of_Z 200) = of_Z p ∧
    (Rabs (IZR p - 100 * (IZR 29 / IZR 200)) <= / 2 + bpow (-45))%R.
Proof.
  split; [lia|]. apply (percentage_is_accurate 29 200); lia.
Defined.

Lemma progress_never_decreases_witness :
  let resp := answer 200 (Some "1000") [chunk_of 250; chunk_of 250; chunk_of 250; chunk_of 250] in
  let ps := reported (events_since fresh_session
                        (snd (download "u" quiet_options four_quarters fresh_session))) in
  (network four_quarters = Respond resp ∧
   ToNumber (content_length resp) = of_Z 1000 ∧
   0 < 1000 < 2 ^ 53 ∧
   total_length (body_chunks (body resp)) <= 1000) ∧
  ∀ i j p q, (i <= j)%nat -> ps !! i = Some p -> ps !! j = Some q -> leb p q = true.
Proof.
  cbv zeta. split.
  - repeat split; reflexivity || lia.
  - apply (progress_never_decreases "u" quiet_options four_quarters fresh_session
             (answer 200 (Some "1000") [chunk_of 250; chunk_of 250; chunk_of 250; chunk_of 250])
             1000); reflexivity || lia.
Defined.


Lemma calm_quiet_options : calm quiet_options.
Proof. repeat split; intros; simplify_eq/=; reflexivity. Qed.

Lemma undisturbed_transfer_succeeds_witness :
  let resp := answer 200 (Some "1000") [chunk_of 250; chunk_of 250; chunk_of 250; chunk_of 250] in
  let r := download "u" quiet_options four_quarters used_session in
  let evs := events_since used_session (snd r) in
  (calm quiet_options ∧ during_fetch four_quarters = [] ∧
   network four_quarters = Respond resp ∧ ok resp = true ∧
   null_body_status (status resp) = false ∧
   calm_body (body resp) = true) ∧
  ∃ u,
    fst r = Returned (Some u) ∧
    blobUrl (this (snd r)) = Some u ∧
    blob_store (platform (snd r)) !! u =
      Some {| blob_bytes := concat (body_chunks (body resp));
              blob_type := content_type resp |} ∧
    blob_store (platform used_session) !! u = None ∧
    received evs = body_chunks (body resp) ∧
    count is_failed evs = 0%nat ∧
    count is_aborted evs = 0%nat.
Proof.
  cbv zeta. split.
  - split; [exact calm_quiet_options|]. repeat split; reflexivity.
  - apply (undisturbed_transfer_succeeds "u" quiet_options four_quarters used_session
             (answer 200 (Some "1000") [chunk_of 250; chunk_of 250; chunk_of 250; chunk_of 250]));
      reflexivity || exact calm_quiet_options.
Defined.

Lemma stop_while_pending_aborts_witness :
  let r := download "u" quiet_options stopped_while_pending used_session in
  ((∀ f, started quiet_options = Some f -> silent f) ∧
   during_fetch stopped_while_pending ≠ []) ∧
  events_since used_session (snd r) =
    [Started; Requested "u" ∅ 1%nat; Aborted 1%nat; Revoked 0%nat;
     Failed "ABORTED" "Download was stopped"] ∧
  fst r = Threw Cancelled AbortError ∧
  controller (this (snd r)) = None ∧
  blobUrl (this (snd r)) = None.
Proof.
  cbv zeta.
  assert (H1 : ∀ f, started quiet_options = Some f -> silent f)
    by (intros f [= <-]; split; reflexivity).
  assert (H2 : during_fetch stopped_while_pending ≠ []) by discriminate.
  split; [auto|].
  exact (stop_while_pending_aborts "u" quiet_options stopped_while_pending used_session H1 H2).
Defined.
